(** * TopFarm2 boundary constraint components: a verification development

  Shallow embedding of [topfarm/constraint_components/boundary.py]:
  the convex-hull, polygon, circle and multi-polygon boundary components,
  their signed distances, gradients, the one-slot result cache, the
  relaxation schedule, the zone merger and [satisfy].

  Conventions of the embedding.
  - A NumPy [float64] is a real number ([R]); rounding, infinities and NaN
    are outside the model, so statements that read a quotient assume its
    divisor is not zero.  Comparisons are the decidable ones of [R].
  - A 1-d array is a [list R], a 2-d array a [list (list R)] (row major),
    a point or 2-vector a pair.  The source keeps edge data as arrays of
    shape (2, #edges); here an edge table is a list of per-edge records.
  - [x] and [y] are passed as two lists, as in the source; element-wise
    operations pair them up position by position.
  - A Python exception is a [None] result, or [Raise e] where the kind of
    error is kept.
  - Mutable attributes ([_cache_input], [_cache_output]) are threaded as
    an explicit state.
  - [scipy.spatial.ConvexHull], the [shapely] predicates and operations and
    [topfarm.utils.smooth_max] are external: they are parameters. *)

From Stdlib Require Import Reals Lra Lia List Bool Arith ZArith.
From Stdlib Require String.
Import ListNotations.
Open Scope R_scope.

(** ** NumPy primitives used by the source *)

Module NumPy.

Definition Rltb (a b : R) : bool := if Rlt_dec a b then true else false.
Definition Rleb (a b : R) : bool := if Rle_dec a b then true else false.
Definition Reqb (a b : R) : bool := if Req_dec_T a b then true else false.

(** A 2-vector, the first axis of the source's (2, ...) arrays. *)
Abbreviation vec := (R * R)%type (only parsing).

Definition vsub (p q : vec) : vec := (fst p - fst q, snd p - snd q).
Definition vadd (p q : vec) : vec := (fst p + fst q, snd p + snd q).
Definition vscale (k : R) (p : vec) : vec := (k * fst p, k * snd p).
Definition vdiv (p : vec) (k : R) : vec := (fst p / k, snd p / k).

(** [np.sum(u * v, axis=0)] and [np.vdot]. *)
Definition dot (u v : vec) : R := fst u * fst v + snd u * snd v.

(** [np.linalg.norm(v, axis=0)] on a 2-vector. *)
Definition vec_len (v : vec) : R := sqrt (fst v ^ 2 + snd v ^ 2).

Definition veqb (p q : vec) : bool := Reqb (fst p) (fst q) && Reqb (snd p) (snd q).

(** Element-wise binary operation on two arrays of one shape. *)
Definition map2 {A B C : Type} (f : A -> B -> C) (a : list A) (b : list B) : list C :=
  map (fun ab => f (fst ab) (snd ab)) (combine a b).

(** [np.where(mask, a, b)]. *)
Definition where_ {A : Type} (mask : list bool) (a b : list A) : list A :=
  map2 (fun (m : bool) (ab : A * A) => if m then fst ab else snd ab) mask (combine a b).

(** [np.argmin]: the position of the first occurrence of the least
    element; [argmin_from best besti i l] scans [l], whose head has
    position [i], keeping the least value seen and its position. *)
Fixpoint argmin_from (best : R) (besti i : nat) (l : list R) : nat :=
  match l with
  | [] => besti
  | v :: t => if Rltb v best then argmin_from v i (S i) t
              else argmin_from best besti (S i) t
  end.

(** An empty array has no argmin ([ValueError]). *)
Definition argmin (l : list R) : option nat :=
  match l with
  | [] => None
  | v :: t => Some (argmin_from v 0 1 t)
  end.

(** [a.min()] of a non-empty array. *)
Fixpoint amin_from (best : R) (l : list R) : R :=
  match l with
  | [] => best
  | v :: t => if Rltb v best then amin_from v t else amin_from best t
  end.

Definition amin (l : list R) : option R :=
  match l with
  | [] => None
  | v :: t => Some (amin_from v t)
  end.

(** [np.roll(a, 1)]: the last element comes first. *)
Definition roll1 {A : Type} (l : list A) : list A :=
  match l with
  | [] => []
  | a :: _ => last l a :: removelast l
  end.

(** [np.roll(a, -1)]: the first element goes last. *)
Definition roll_1 {A : Type} (l : list A) : list A :=
  match l with
  | [] => []
  | a :: t => t ++ [a]
  end.

(** Row [i] of [np.diagflat(d)]: [d_i] at column [i], zero elsewhere. *)
Definition diag_row (n i : nat) (d : R) : list R :=
  map (fun j => if Nat.eqb i j then d else 0) (seq 0 n).

Definition diagflat (d : list R) : list (list R) :=
  map2 (diag_row (length d)) (seq 0 (length d)) d.

(** [np.diag(m)] of a square matrix. *)
Definition diag (m : list (list R)) : list R :=
  map2 (fun i row => nth i row 0) (seq 0 (length m)) m.

(** [np.linspace(a, b, num)] for [num >= 2]: [a + k * step] with
    [step = (b - a) / (num - 1)], the last sample being [b] itself. *)
Definition linspace (a b : R) (num : nat) : list R :=
  map (fun k => if Nat.eqb k (num - 1) then b
                else a + INR k * ((b - a) / INR (num - 1)))
      (seq 0 num).

(** [np.arctan2(y, x)], the angle of the point (x, y) in (-pi, pi]. *)
Definition arctan2 (y x : R) : R :=
  if Rltb 0 x then atan (y / x)
  else if Rltb x 0 then
         if Rleb 0 y then atan (y / x) + PI else atan (y / x) - PI
  else if Rltb 0 y then PI / 2
  else if Rltb y 0 then - (PI / 2)
  else 0.

(** Transpose of a matrix with [n] columns. *)
Definition transpose (n : nat) (m : list (list R)) : list (list R) :=
  map (fun j => map (fun row => nth j row 0) m) (seq 0 n).

End NumPy.

Import NumPy.

(** ** CircleBoundaryComp *)

Module CircleBoundaryComp.

Record t : Type := mk { center : vec; radius : R }.

(** [distances]: radius minus the Euclidean distance to the center. *)
Definition distances (self : t) (x y : list R) : list R :=
  map2 (fun xi yi =>
          radius self - sqrt ((xi - fst (center self)) ^ 2 + (yi - snd (center self)) ^ 2))
       x y.

(** [gradients]: [dx] and [dy] start as [-1 * ones_like(x)]; the entries
    of the points whose distance differs from the radius are overwritten
    with [-cos(theta)] and [-sin(theta)]. *)
Definition gradients (self : t) (x y : list R) : list (list R) * list (list R) :=
  let theta := map2 (fun xi yi => arctan2 (yi - snd (center self)) (xi - fst (center self))) x y in
  let dx := map (fun _ => -1 * 1) x in
  let dy := map (fun _ => -1 * 1) x in
  let dist := distances self x y in
  let not_center := map (fun d => negb (Reqb d (radius self))) dist in
  let dx' := where_ not_center (map (fun th => - cos th) theta) dx in
  let dy' := where_ not_center (map (fun th => - sin th) theta) dy in
  (diagflat dx', diagflat dy').

End CircleBoundaryComp.

(** ** BoundaryBaseComp *)

Module BoundaryBaseComp.

(** [__init__] closes the ring: when the first and the last vertex differ
    in some coordinate the first vertex is appended.  Indexing an empty
    array raises. *)
Definition close_ring (xy_boundary : list vec) : option (list vec) :=
  match xy_boundary with
  | [] => None
  | p :: _ =>
      if negb (veqb p (last xy_boundary p)) then Some (xy_boundary ++ [p])
      else Some xy_boundary
  end.

(** The position mapping handed to [satisfy]: the two coordinate arrays
    under [topfarm.x_key] and [topfarm.y_key]. *)
Record State : Type := mkState { xs : list R; ys : list R }.

End BoundaryBaseComp.

(** ** ConvexBoundaryComp *)

Module ConvexBoundaryComp.

Inductive boundary_type : Type :=
| convex_hull
| square
| rectangle
| unknown_type.

(** Column-wise [min(0)] and [max(0)] of an (n, 2) array. *)
Fixpoint amax_from (best : R) (l : list R) : R :=
  match l with
  | [] => best
  | v :: t => if Rltb best v then amax_from v t else amax_from best t
  end.

Definition amax (l : list R) : option R :=
  match l with
  | [] => None
  | v :: t => Some (amax_from v t)
  end.

Definition min0 (xy : list vec) : option vec :=
  match amin (map fst xy), amin (map snd xy) with
  | Some a, Some b => Some (a, b)
  | _, _ => None
  end.

Definition max0 (xy : list vec) : option vec :=
  match amax (map fst xy), amax (map snd xy) with
  | Some a, Some b => Some (a, b)
  | _, _ => None
  end.

Section Hull.

(** [scipy.spatial.ConvexHull(points).vertices]: the positions of the hull
    vertices in the input, in counter-clockwise order. *)
Variable ConvexHull_vertices : list vec -> list nat.

(** The boundary polygon of each supported type; an unsupported type
    raises [NotImplementedError]. *)
Definition boundary_of (bt : boundary_type) (xy_boundary : list vec) : option (list vec) :=
  match bt with
  | convex_hull =>
      Some (map (fun i => nth i xy_boundary (0, 0)) (ConvexHull_vertices xy_boundary))
  | square =>
      match min0 xy_boundary, max0 xy_boundary with
      | Some min_, Some max_ =>
          let range_ := vsub max_ min_ in
          let c := vadd min_ (vdiv range_ 2) in
          let r := (if Rltb (fst range_) (snd range_) then snd range_ else fst range_) / 2 in
          Some [(fst c - r, snd c - r); (fst c + r, snd c - r);
                (fst c + r, snd c + r); (fst c - r, snd c + r)]
      | _, _ => None
      end
  | rectangle =>
      match min0 xy_boundary, max0 xy_boundary with
      | Some min_, Some max_ =>
          let range_ := vsub max_ min_ in
          let c := vadd min_ (vdiv range_ 2) in
          let r := vdiv range_ 2 in
          Some [(fst c - fst r, snd c - snd r); (fst c + fst r, snd c - snd r);
                (fst c + fst r, snd c + snd r); (fst c - fst r, snd c + snd r)]
      | _, _ => None
      end
  | unknown_type => None
  end.

(** The unit normal of face [j], taking the vertices in order; the last
    face closes the shape. *)
Definition face_normal (xy : list vec) (j : nat) : vec :=
  let nxt := if Nat.ltb j (length xy - 1) then S j else 0%nat in
  let pj := nth j xy (0, 0) in
  let pn := nth nxt xy (0, 0) in
  let normal := (snd pn - snd pj, - (fst pn - fst pj)) in
  vdiv normal (vec_len normal).

(** [calculate_boundary_and_normals]: the polygon, its number of vertices
    and one unit normal per face. *)
Definition calculate_boundary_and_normals (bt : boundary_type) (xy_boundary : list vec)
  : option (list vec * nat * list vec) :=
  match boundary_of bt xy_boundary with
  | None => None
  | Some xy =>
      let nVertices := length xy in
      Some (xy, nVertices, map (face_normal xy) (seq 0 nVertices))
  end.

End Hull.

(** Assignment [m[r, c] = v] into a 2-d array. *)
Definition set2 (m : list (list R)) (r c : nat) (v : R) : list (list R) :=
  map2 (fun i row => if Nat.eqb i r
                     then map2 (fun j old => if Nat.eqb j c then v else old) (seq 0 (length row)) row
                     else row)
       (seq 0 (length m)) m.

Definition zeros2 (rows cols : nat) : list (list R) :=
  repeat (repeat 0 cols) rows.

(** [calculate_gradients]: both Jacobians start as zero arrays of shape
    (n_wt * nVertices, n_wt); the double loop over turbines [i] and faces
    [j] fills entry (i * nVertices + j, i). *)
Definition face_gradient (dpa : vec) (n : vec) : R :=
  let ddistanceVec := vscale (dot dpa n) n in
  dot ddistanceVec n.

Definition calculate_gradient (dpa : vec) (n_wt nVertices : nat) (unit_normals : list vec)
  : list (list R) :=
  fold_left
    (fun m i =>
       fold_left
         (fun m' j =>
            set2 m' (i * nVertices + j) i (face_gradient dpa (nth j unit_normals (0, 0))))
         (seq 0 nVertices) m)
    (seq 0 n_wt) (zeros2 (n_wt * nVertices) n_wt).

Definition calculate_gradients (n_wt nVertices : nat) (unit_normals : list vec)
  : list (list R) * list (list R) :=
  (calculate_gradient (-1, 0) n_wt nVertices unit_normals,
   calculate_gradient (0, -1) n_wt nVertices unit_normals).

Record t : Type := mk {
  n_wt : nat;
  xy_boundary : list vec;
  nVertices : nat;
  unit_normals : list vec;
  dfaceDistance_dx : list (list R);
  dfaceDistance_dy : list (list R)
}.

(** [__init__]: boundary and normals, then the base class closes the ring,
    then the Jacobians are computed once. *)
Definition init (hull : list vec -> list nat) (n_wt : nat) (xy_boundary : list vec)
  (bt : boundary_type) : option t :=
  match calculate_boundary_and_normals hull bt xy_boundary with
  | None => None
  | Some (xy, nV, normals) =>
      match BoundaryBaseComp.close_ring xy with
      | None => None
      | Some closed =>
          let g := calculate_gradients n_wt nV normals in
          Some (mk n_wt closed nV normals (fst g) (snd g))
      end
  end.

(** [calculate_distance_to_boundary]: for every point the distance to
    every face.  The source builds the (faces, points) array and returns
    its transpose; row [i] below is the row of point [i].  The vertices
    ([xy_boundary[:-1]]) and the normals are paired face by face. *)
Definition face_distance (p : vec) (vertex n : vec) : R :=
  let PA := vsub vertex p in
  let dist := dot PA n in
  let d_vec := vscale dist n in
  dot d_vec n.

Definition calculate_distance_to_boundary (self : t) (points : list vec) : list (list R) :=
  let vertices := removelast (xy_boundary self) in
  map (fun p => map2 (face_distance p) vertices (unit_normals self)) points.

Definition distances (self : t) (x y : list R) : list (list R) :=
  calculate_distance_to_boundary self (combine x y).

Definition gradients (self : t) (x y : list R) : list (list R) * list (list R) :=
  (dfaceDistance_dx self, dfaceDistance_dy self).

(** The grid of [np.meshgrid(v, v)], flattened row by row: [X] runs along
    a row, [Y] down the rows. *)
Definition meshgrid (v : list R) : list vec :=
  flat_map (fun yv => map (fun xv => (xv, yv)) v) v.

(** The mask of [satisfy]: the displacement meets every linearised face
    constraint of the point. *)
Definition mask (dx dy d_i : list R) (g : vec) : bool :=
  forallb (fun c => Rleb (- snd c) (fst g * fst (fst c) + snd g * snd (fst c)))
          (combine (combine dx dy) d_i).

(** The smallest admissible displacement on the grid; an empty mask makes
    [np.argmin] raise. *)
Definition smallest_move (dx dy d_i : list R) : option vec :=
  match amin d_i with
  | None => None
  | Some dmin =>
      let v := linspace (- Rabs dmin) (Rabs dmin) 100 in
      let cand := filter (mask dx dy d_i) (meshgrid v) in
      match argmin (map (fun g => fst g ^ 2 + snd g ^ 2) cand) with
      | None => None
      | Some index => Some (nth index cand (0, 0))
      end
  end.

(** One turn of the loop of [satisfy], for the point with face distances
    [d_i]: only a point whose least face distance is negative is moved. *)
Definition satisfy_point (dx dy : list R) (p : vec) (d_i : list R) : option vec :=
  match amin d_i with
  | None => None
  | Some dmin =>
      if Rltb dmin 0 then
        match smallest_move dx dy d_i with
        | None => None
        | Some g => Some (fst p + fst g, snd p + snd g)
        end
      else Some p
  end.

Fixpoint sequence {A : Type} (l : list (option A)) : option (list A) :=
  match l with
  | [] => Some []
  | None :: _ => None
  | Some a :: t =>
      match sequence t with
      | None => None
      | Some r => Some (a :: r)
      end
  end.

(** [satisfy(state, pad)]; [pad] is not used by this component. *)
Definition satisfy (self : t) (state : BoundaryBaseComp.State) (pad : R)
  : option BoundaryBaseComp.State :=
  let x := BoundaryBaseComp.xs state in
  let y := BoundaryBaseComp.ys state in
  let dist := distances self x y in
  let dist := map (map (fun d => if Rltb d 0 then Rmin d (- (1 / 100)) else d)) dist in
  let g := gradients self x y in
  let dx := map (fun row => nth 0 row 0) (firstn (nVertices self) (fst g)) in
  let dy := map (fun row => nth 0 row 0) (firstn (nVertices self) (snd g)) in
  match sequence (map2 (satisfy_point dx dy) (combine x y) dist) with
  | None => None
  | Some moved => Some (BoundaryBaseComp.mkState (map fst moved) (map snd moved))
  end.

End ConvexBoundaryComp.

(** ** PolygonBoundaryComp *)

Module PolygonBoundaryComp.

Inductive error : Type :=
| IndexError        (* indexing an empty array *)
| AssertionError    (* "Area must be non-zero" *)
| RecursionError    (* recursion budget exhausted *)
| ValueError        (* reduction of an empty array *)
| TypeError.        (* unpacking or indexing None *)

Inductive result (A : Type) : Type :=
| Ok (a : A)
| Raise (e : error).

Arguments Ok {A} a.
Arguments Raise {A} e.

Definition bind {A B : Type} (r : result A) (k : A -> result B) : result B :=
  match r with
  | Ok a => k a
  | Raise e => Raise e
  end.

Notation "x <- r ;; k" := (bind r (fun x => k))
  (at level 61, r at next level, right associativity).

Definition sum_R (l : list R) : R := fold_right Rplus 0 l.

(** The shoelace sum [np.sum((x1 - x2) * (y1 + y2))] over the edges A -> B
    of a closed ring: twice the signed area, positive when the ring runs
    counter-clockwise. *)
Definition double_area (vertices : list vec) : R :=
  let A := removelast vertices in
  let B := tl vertices in
  sum_R (map2 (fun a b => (fst a - fst b) * (snd a + snd b)) A B).

(** [get_edges] (local to [get_boundary_properties]): close the ring,
    refuse zero area, and start over on the reversed ring when the winding
    is not the requested one.  [fuel] bounds the recursion depth. *)
Fixpoint get_edges (fuel : nat) (vertices : list vec) (counter_clockwise : bool)
  : result (list vec * list vec * list vec) :=
  match fuel with
  | O => Raise RecursionError
  | S fuel' =>
      match vertices with
      | [] => Raise IndexError
      | p :: _ =>
          let vertices :=
            if negb (veqb p (last vertices p)) then vertices ++ [p] else vertices in
          let A := removelast vertices in
          let B := tl vertices in
          let double_area := double_area vertices in
          if Reqb double_area 0 then Raise AssertionError
          else if (counter_clockwise && Rltb double_area 0)
                  || (negb counter_clockwise && Rltb 0 double_area)
               then get_edges fuel' (rev vertices) counter_clockwise
               else Ok (removelast vertices, A, B)
      end
  end.

(** One edge of the table: the columns of the arrays
    [A, B, AB, AB_len, edge_unit_normal, A_normal, B_normal]. *)
Record edge : Type := mkEdge {
  A : vec;
  B : vec;
  AB : vec;
  AB_len : R;
  edge_unit_normal : vec;
  A_normal : vec;
  B_normal : vec
}.

Definition zero_vec : vec := (0, 0).

(** The arrays derived from the edge end points. *)
Definition edge_table (A B : list vec) : list edge :=
  let AB := map2 (fun b a => vsub b a) B A in
  let AB_len := map vec_len AB in
  let edge_unit_normal := map2 (fun ab l => vdiv (- snd ab, fst ab) l) AB AB_len in
  let A_normal := map2 (fun n m => vdiv (vadd n m) 2) edge_unit_normal (roll1 edge_unit_normal) in
  let B_normal := roll_1 A_normal in
  map (fun j => mkEdge (nth j A zero_vec) (nth j B zero_vec) (nth j AB zero_vec)
                       (nth j AB_len 0) (nth j edge_unit_normal zero_vec)
                       (nth j A_normal zero_vec) (nth j B_normal zero_vec))
      (seq 0 (length A)).

(** [get_boundary_properties]: inclusion zones run counter-clockwise,
    exclusion zones clockwise. *)
Definition get_boundary_properties (fuel : nat) (xy_boundary : list vec) (inclusion_zone : bool)
  : result (list vec * list edge) :=
  r <- get_edges fuel xy_boundary inclusion_zone ;;
  let '(xy, A, B) := r in
  Ok (xy, edge_table A B).

(** [_calc_distance_and_gradients] for one point and one edge: the
    entry of each of the three (points, edges) arrays it returns. *)
Definition edge_distance_and_gradient (P : vec) (e : edge) : R * R * R :=
  let AP := vsub P (A e) in
  let BP := vsub P (B e) in
  let a_tilde := dot AP (AB e) / AB_len e in
  let use_A := Rltb a_tilde 0 in
  let use_B := Rltb (AB_len e) a_tilde in
  let distance := dot AP (edge_unit_normal e) in
  let good_side_of_A := Rltb 0 (dot AP (A_normal e)) in
  let sign_use_A := if good_side_of_A then 1 else -1 in
  let distance := if use_A then vec_len AP * sign_use_A else distance in
  let good_side_of_B := Rltb 0 (dot BP (B_normal e)) in
  let sign_use_B := if good_side_of_B then 1 else -1 in
  let distance := if use_B then vec_len BP * sign_use_B else distance in
  let ddist_dxy := edge_unit_normal e in
  let ddist_dxy := if use_A then vscale sign_use_A (vdiv AP (vec_len AP)) else ddist_dxy in
  let ddist_dxy := if use_B then vscale sign_use_B (vdiv BP (vec_len BP)) else ddist_dxy in
  (distance, fst ddist_dxy, snd ddist_dxy).

(** The three (points, edges) arrays.  [x] and [y] are paired position
    by position; the source builds [np.array([x, y])], which raises
    unless they have one length: a query of unequal lengths is outside
    this definition. *)
Definition _calc_distance_and_gradients (edges : list edge) (x y : list R)
  : list (list R) * list (list R) * list (list R) :=
  let P := combine x y in
  let entry f := map (fun p => map (fun e => f (edge_distance_and_gradient p e)) edges) P in
  (entry (fun r => fst (fst r)), entry (fun r => snd (fst r)), entry (fun r => snd r)).

(** The cached result: [distance, ddist_dX, ddist_dY] of the nearest
    feature of each point. *)
Definition output : Type := (list R * list R * list R)%type.

(** The mutable attributes [_cache_input] and [_cache_output]; both are
    [None] after construction. *)
Record cache (O : Type) : Type := mkCache {
  _cache_input : option (list R * list R);
  _cache_output : option O
}.

Arguments mkCache {O} _ _.
Arguments _cache_input {O} c.
Arguments _cache_output {O} c.

Definition empty_cache {O : Type} : cache O := mkCache None None.

(** [np.all(a == k)] on two 1-d arrays with NumPy's broadcasting: equal
    lengths compare element by element, a length-one array is compared
    with every element of the other, and arrays whose shapes do not
    broadcast do not compare equal.  The last case is what NumPy did
    before version 1.25; from then on [==] raises [ValueError] there,
    which is outside this definition. *)
Definition all_equal (a k : list R) : bool :=
  if Nat.eqb (length a) (length k) then forallb (fun p => Reqb (fst p) (snd p)) (combine a k)
  else if Nat.eqb (length k) 1 then forallb (fun v => Reqb v (hd 0 k)) a
  else if Nat.eqb (length a) 1 then forallb (fun v => Reqb (hd 0 a) v) k
  else false.

(** [np.all(np.array([x, y]) == self._cache_input)]: against [None] every
    element compares unequal, so only an empty query matches. *)
Definition cache_hit (x y : list R) (input : option (list R * list R)) : bool :=
  match input with
  | None => Nat.eqb (length x) 0 && Nat.eqb (length y) 0
  | Some (kx, ky) => all_equal x kx && all_equal y ky
  end.

(** [np.choose(closest_edge_index, v.T)]: entry [closest_edge_index[i]] of
    row [i].  NumPy bounds the number of arrays [np.choose] selects from
    and raises [ValueError] beyond it (beyond 31 edges): a larger edge
    table is outside this definition. *)
Definition choose (index : list nat) (v : list (list R)) : list R :=
  map2 (fun k row => nth k row 0) index v.

(** [np.argmin(np.abs(distance), 1)]. *)
Fixpoint argmin_abs_rows (distance : list (list R)) : result (list nat) :=
  match distance with
  | [] => Ok []
  | row :: rest =>
      match argmin (map Rabs row) with
      | None => Raise ValueError
      | Some k => ks <- argmin_abs_rows rest ;; Ok (k :: ks)
      end
  end.

(** The computation behind a cache miss. *)
Definition nearest_feature (edges : list edge) (x y : list R) : result output :=
  let '(distance, ddist_dX, ddist_dY) := _calc_distance_and_gradients edges x y in
  closest_edge_index <- argmin_abs_rows distance ;;
  Ok (choose closest_edge_index distance,
      choose closest_edge_index ddist_dX,
      choose closest_edge_index ddist_dY).

Record t : Type := mk {
  nTurbines : nat;
  boundary_properties : list vec * list edge;
  xy_boundary : list vec;
  relaxation : option (R * R)
}.

(** [__init__]: boundary properties, then the base class closes the ring. *)
Definition init (fuel : nat) (n_wt : nat) (xy : list vec) (relaxation : option (R * R))
  : result (t * cache output) :=
  bp <- get_boundary_properties fuel xy true ;;
  match BoundaryBaseComp.close_ring (fst bp) with
  | None => Raise IndexError
  | Some closed => Ok (mk n_wt bp closed relaxation, empty_cache)
  end.

(** [calc_distance_and_gradients]: the value returned (possibly the
    stored [None]) and the cache after the call. *)
Definition calc_distance_and_gradients (self : t) (c : cache output) (x y : list R)
  : result (option output * cache output) :=
  if cache_hit x y (_cache_input c) then Ok (_cache_output c, c)
  else
    out <- nearest_feature (snd (boundary_properties self)) x y ;;
    Ok (Some out, mkCache (Some (x, y)) (Some out)).

Definition distances (self : t) (c : cache output) (x y : list R)
  : result (list R * cache output) :=
  r <- calc_distance_and_gradients self c x y ;;
  match fst r with
  | None => Raise TypeError
  | Some (dist, _, _) => Ok (dist, snd r)
  end.

Definition gradients (self : t) (c : cache output) (x y : list R)
  : result (list (list R) * list (list R) * cache output) :=
  r <- calc_distance_and_gradients self c x y ;;
  match fst r with
  | None => Raise TypeError
  | Some (_, dx, dy) => Ok (diagflat dx, diagflat dy, snd r)
  end.

(** The masked update [x[m] -= dx[m] * dist[m] * pad] with [m = dist < 0]. *)
Definition nudge (pad : R) (x dx dist : list R) : list R :=
  map2 (fun xd d => if Rltb d 0 then fst xd - snd xd * d * pad else fst xd)
       (combine x dx) dist.

(** [satisfy(state, pad)]. *)
Definition satisfy (self : t) (c : cache output) (state : BoundaryBaseComp.State) (pad : R)
  : result (BoundaryBaseComp.State * cache output) :=
  let x := BoundaryBaseComp.xs state in
  let y := BoundaryBaseComp.ys state in
  r1 <- distances self c x y ;;
  let '(dist, c1) := r1 in
  r2 <- gradients self c1 x y ;;
  let '(gx, gy, c2) := r2 in
  let dx := diag gx in
  let dy := diag gy in
  Ok (BoundaryBaseComp.mkState (nudge pad x dx dist) (nudge pad y dy dist), c2).

End PolygonBoundaryComp.

(** ** MultiPolygonBoundaryComp *)

Module MultiPolygonBoundaryComp.

Import PolygonBoundaryComp.
Import String.

(** The inclusion flag of a zone as the caller may give it. *)
Inductive flag : Type :=
| FlagStr (s : String.string)
| FlagBool (b : bool)
| FlagInt (n : Z)
| FlagNone.

(** [1 if x in ['i', 'include', True, 1, None] else 0]. *)
Definition type_bool (x : flag) : bool :=
  match x with
  | FlagStr s => String.eqb s "i"%string || String.eqb s "include"%string
  | FlagBool b => b
  | FlagInt n => Z.eqb n 1
  | FlagNone => true
  end.

(** The area below which a merge result is dropped. *)
Definition area_threshold : R := 1 / 1000.

Inductive geometry_type : Type :=
| IsPolygon
| IsMultiPolygon
| IsOtherGeometry.

Inductive reduction : Type :=
| nearest
| smooth_min.

(** The attributes of the component the queries read:
    [base_boundary_properties] is the edge table the base class keeps
    for the first boundary ([self.boundary_properties[1:]]). *)
Record t : Type := mk {
  n_wt : nat;
  base_boundary_properties : list edge;
  boundary_properties_list_all : list edge;
  relaxation : option (R * R);
  method : reduction
}.

(** The cached result [Dist_ij, dDdk_ijk, sign_i]. *)
Definition output : Type := (list (list R) * list (list vec) * list R)%type.

Section Shapely.

(** The [shapely] geometries and the operations the merger calls. *)
Variable Geom : Type.
Variable area : Geom -> R.
Variable intersects : Geom -> Geom -> bool.
Variable contains : Geom -> Geom -> bool.
Variable unary_union : list Geom -> Geom.
Variable symmetric_difference : Geom -> Geom -> Geom.
Variable difference : Geom -> Geom -> Geom.
Variable type_of : Geom -> geometry_type.
Variable geoms : Geom -> list Geom.
Variable Polygon : list vec -> list (list vec) -> Geom.
Variable exterior_coords : Geom -> list vec.
Variable interiors_coords : Geom -> list (list vec).

(** The loop over the domain for an inclusion zone [b]; [j] is the
    position of the head of [domain] and [len] the length of the whole
    domain.  Warnings are not modelled. *)
Fixpoint include_loop (b : Geom) (temp : list Geom) (j len : nat) (domain : list Geom)
  : list Geom :=
  match domain with
  | [] => temp
  | d :: rest =>
      let bt :=
        if intersects d b then (unary_union [d; b], temp)
        else if contains d b then (b, temp)
        else if contains b d then (d, temp)
        else if Rltb area_threshold (area b) then (b, temp ++ [d])
        else (b, temp) in
      let b := fst bt in
      let temp := snd bt in
      let temp :=
        if Nat.eqb j (len - 1)
        then if Rltb area_threshold (area b) then temp ++ [b] else temp
        else temp in
      include_loop b temp (S j) len rest
  end.

(** The loop over the domain for an exclusion zone [b]. *)
Fixpoint exclude_loop (b : Geom) (temp : list Geom) (domain : list Geom) : list Geom :=
  match domain with
  | [] => temp
  | d :: rest =>
      let temp :=
        if intersects d b then
          let nonoverlap := difference (symmetric_difference d b) b in
          match type_of nonoverlap with
          | IsPolygon => temp ++ [nonoverlap]
          | IsMultiPolygon =>
              temp ++ filter (fun x => Rltb area_threshold (area x)) (geoms nonoverlap)
          | IsOtherGeometry => temp
          end
        else if contains b d then temp
        else
          let d := if contains d b
                   then Polygon (exterior_coords d) [exterior_coords b]
                   else d in
          if Rltb area_threshold (area d) then temp ++ [d] else temp in
      exclude_loop b temp rest
  end.

(** One turn of the outer loop of [_calc_resulting_polygons]. *)
Definition merge_zone (domain : list Geom) (zone : Geom * bool) : list Geom :=
  let b := fst zone in
  if Nat.eqb (List.length domain) 0 then
    if snd zone then domain ++ [b] else domain
  else if snd zone then include_loop b [] 0 (List.length domain) domain
  else exclude_loop b [] domain.

Definition _calc_resulting_polygons (boundary_polygons : list Geom) (types_bool : list bool)
  : list Geom :=
  fold_left merge_zone (combine boundary_polygons types_bool) [].

(** [_poly_to_bound]: exterior rings as inclusion, interior rings as
    exclusion boundaries, each without its closing vertex. *)
Definition _poly_to_bound (polygons : list Geom) : list (list vec * bool) :=
  flat_map (fun bound =>
              (removelast (exterior_coords bound), true)
              :: map (fun interior => (removelast interior, false)) (interiors_coords bound))
           polygons.

(** [_setup_boundaries]: the edge tables of all boundaries, concatenated. *)
Fixpoint all_edges (fuel : nat) (boundaries : list (list vec * bool)) : result (list edge) :=
  match boundaries with
  | [] => Ok []
  | (bound, incl_excl) :: rest =>
      bp <- get_boundary_properties fuel bound incl_excl ;;
      es <- all_edges fuel rest ;;
      Ok (snd bp ++ es)
  end.

Definition _setup_boundaries (fuel : nat) (bounds_poly : list Geom) (types_bool : list bool)
  : result (list edge) :=
  all_edges fuel (_poly_to_bound (_calc_resulting_polygons bounds_poly types_bool)).

(** [__init__]: the base class is constructed on the first ring, the
    zones become polygons and flags, and the boundaries are set up.
    [simplify_geometry] keeps its default. *)
Definition init (fuel n_wt : nat) (xy_multi_boundary : list (list vec * flag))
  (relaxation : option (R * R)) (method : reduction) : result (t * cache output) :=
  match xy_multi_boundary with
  | [] => Raise IndexError
  | (first, _) :: _ =>
      base <- PolygonBoundaryComp.init fuel n_wt first relaxation ;;
      let bounds_poly := map (fun z => Polygon (fst z) []) xy_multi_boundary in
      let types_bool := map (fun z => type_bool (snd z)) xy_multi_boundary in
      edges <- _setup_boundaries fuel bounds_poly types_bool ;;
      Ok (mk n_wt (snd (PolygonBoundaryComp.boundary_properties (fst base))) edges
             relaxation method,
          empty_cache)
  end.

End Shapely.

(** [np.sign]. *)
Definition np_sign (r : R) : R :=
  if Rltb r 0 then -1 else if Rltb 0 r then 1 else 0.

(** [sign]: the sign of the distance of least magnitude of each point. *)
Definition sign (Dist_ij : list (list R)) : result (list R) :=
  index <- argmin_abs_rows Dist_ij ;;
  Ok (map np_sign (choose index Dist_ij)).

(** Truth value of the attribute [relaxation]: [False] or a pair. *)
Definition is_set (relaxation : option (R * R)) : bool :=
  match relaxation with
  | Some _ => true
  | None => false
  end.

(** The computation behind a cache miss. *)
Definition all_features (edges : list edge) (x y : list R) : result output :=
  let '(Dist_ij, ddist_dX, ddist_dY) := _calc_distance_and_gradients edges x y in
  let dDdk_ijk := map2 (fun rx ry => combine rx ry) ddist_dX ddist_dY in
  sign_i <- sign Dist_ij ;;
  Ok (Dist_ij, dDdk_ijk, sign_i).

(** The edge table a query runs on: [boundary_properties_list_all], or,
    when that list is empty, the table of the base class
    ([boundary_properties or self.boundary_properties[1:]]). *)
Definition edge_table_in_use (self : t) : list edge :=
  match boundary_properties_list_all self with
  | [] => base_boundary_properties self
  | _ :: _ => boundary_properties_list_all self
  end.

(** [calc_distance_and_gradients]: the cache is consulted only when no
    relaxation is set. *)
Definition calc_distance_and_gradients (self : t) (c : cache output) (x y : list R)
  : result (option output * cache output) :=
  if cache_hit x y (_cache_input c) && negb (is_set (relaxation self))
  then Ok (_cache_output c, c)
  else
    out <- all_features (edge_table_in_use self) x y ;;
    Ok (Some out, mkCache (Some (x, y)) (Some out)).

(** Python's [max(a, b)]: [b] only when it is greater than [a]. *)
Definition py_max (a b : R) : R := if Rltb a b then b else a.

(** [calc_relaxation]; [n_grad_eval] is the counter
    [problem.cost_comp.n_grad_eval] of the surrounding problem. *)
Definition calc_relaxation (relaxation : R * R) (n_grad_eval : nat) : R :=
  let iteration_no := INR n_grad_eval + 1 in
  py_max 0 (fst relaxation * (snd relaxation - iteration_no)).

(** [np.abs(Dist_ij).max()]. *)
Definition max_abs (Dist_ij : list (list R)) : result R :=
  match ConvexBoundaryComp.amax (map Rabs (List.concat Dist_ij)) with
  | None => Raise ValueError
  | Some m => Ok m
  end.

Section Smooth.

(** [topfarm.utils.smooth_max(X, alpha, axis=1)] and its gradient. *)
Variable smooth_max : list (list R) -> R -> list R.
Variable smooth_max_gradient : list (list R) -> R -> list (list R).

(** The reduction over the edges shared by [distances]. *)
Definition reduce_distance (m : reduction) (Dist_ij : list (list R)) (sign_i : list R)
  : result (list R) :=
  match m with
  | smooth_min =>
      mx <- max_abs Dist_ij ;;
      Ok (map2 Rmult (smooth_max (map (map Rabs) Dist_ij) (- mx)) sign_i)
  | nearest =>
      index <- argmin_abs_rows Dist_ij ;;
      Ok (choose index Dist_ij)
  end.

Definition distances (self : t) (c : cache output) (n_grad_eval : nat) (x y : list R)
  : result (list R * cache output) :=
  r <- calc_distance_and_gradients self c x y ;;
  match fst r with
  | None => Raise TypeError
  | Some (Dist_ij, _, sign_i) =>
      Dist_i <- reduce_distance (method self) Dist_ij sign_i ;;
      let Dist_i :=
        match relaxation self with
        | Some rel => map (fun d => d + calc_relaxation rel n_grad_eval) Dist_i
        | None => Dist_i
        end in
      Ok (Dist_i, snd r)
  end.

(** The reduction over the edges shared by [gradients]: one gradient
    vector per point. *)
Definition reduce_gradient (m : reduction) (Dist_ij : list (list R)) (dDdk_ijk : list (list vec))
  : result (list vec) :=
  match m with
  | smooth_min =>
      mx <- max_abs Dist_ij ;;
      let dSdDist_ij := smooth_max_gradient (map (map Rabs) Dist_ij) (- mx) in
      Ok (map2 (fun w g =>
                  fold_right vadd zero_vec (map2 (fun wj gj => vscale wj gj) w g))
               dSdDist_ij dDdk_ijk)
  | nearest =>
      index <- argmin_abs_rows Dist_ij ;;
      Ok (map2 (fun k row => nth k row zero_vec) index dDdk_ijk)
  end.

(** [gradients]: two diagonal Jacobians and, when relaxation is set, a
    third array [np.ones(n_wt) * relaxation[1]]. *)
Definition gradients (self : t) (c : cache output) (x y : list R)
  : result (list (list R) * list (list R) * option (list R) * cache output) :=
  r <- calc_distance_and_gradients self c x y ;;
  match fst r with
  | None => Raise TypeError
  | Some (Dist_ij, dDdk_ijk, _) =>
      dSdk <- reduce_gradient (method self) Dist_ij dDdk_ijk ;;
      let dSdkx_i := map fst dSdk in
      let dSdky_i := map snd dSdk in
      match relaxation self with
      | Some rel =>
          Ok (diagflat dSdkx_i, diagflat dSdky_i,
              Some (map (fun one => one * snd rel) (repeat 1 (n_wt self))), snd r)
      | None => Ok (diagflat dSdkx_i, diagflat dSdky_i, None, snd r)
      end
  end.

End Smooth.

End MultiPolygonBoundaryComp.

(** ** Methods shared through the base classes *)

Module Inherited.

Import PolygonBoundaryComp.

(** [BoundaryBaseComp.compute]: the penalty output
    [-np.minimum(boundaryDistances, 0).sum()], for the one-row-per-point
    distances of the circle, polygon and multi-polygon components and for
    the (points, faces) array of the convex component. *)
Definition penalty (boundaryDistances : list R) : R :=
  - fold_right Rplus 0 (map (fun d => Rmin d 0) boundaryDistances).

Definition penalty2 (boundaryDistances : list (list R)) : R :=
  penalty (List.concat boundaryDistances).

(** [compute] of each component: the outputs [boundaryDistances] and
    [penalty_<const_id>]. *)
Definition circle_compute (self : CircleBoundaryComp.t) (x y : list R) : list R * R :=
  let boundaryDistances := CircleBoundaryComp.distances self x y in
  (boundaryDistances, penalty boundaryDistances).

Definition convex_compute (self : ConvexBoundaryComp.t) (x y : list R)
  : list (list R) * R :=
  let boundaryDistances := ConvexBoundaryComp.distances self x y in
  (boundaryDistances, penalty2 boundaryDistances).

Definition polygon_compute (self : PolygonBoundaryComp.t)
  (c : cache PolygonBoundaryComp.output) (x y : list R)
  : result (list R * R * cache PolygonBoundaryComp.output) :=
  r <- PolygonBoundaryComp.distances self c x y ;;
  Ok (fst r, penalty (fst r), snd r).

(** [CircleBoundaryComp] inherits [PolygonBoundaryComp.satisfy], which
    calls the circle's own [distances] and [gradients]. *)
Definition circle_satisfy (self : CircleBoundaryComp.t) (state : BoundaryBaseComp.State)
  (pad : R) : BoundaryBaseComp.State :=
  let x := BoundaryBaseComp.xs state in
  let y := BoundaryBaseComp.ys state in
  let dist := CircleBoundaryComp.distances self x y in
  let g := CircleBoundaryComp.gradients self x y in
  let dx := diag (fst g) in
  let dy := diag (snd g) in
  BoundaryBaseComp.mkState (nudge pad x dx dist) (nudge pad y dy dist).

Section Smooth.

Variable smooth_max : list (list R) -> R -> list R.
Variable smooth_max_gradient : list (list R) -> R -> list (list R).

(** [MultiPolygonBoundaryComp] inherits [PolygonBoundaryComp.satisfy],
    which calls the component's own [distances] and [gradients] and
    unpacks what the latter returns into two arrays: the three arrays
    returned under relaxation do not unpack ([ValueError]). *)
Definition multi_satisfy (self : MultiPolygonBoundaryComp.t)
  (c : cache MultiPolygonBoundaryComp.output) (n_grad_eval : nat)
  (state : BoundaryBaseComp.State) (pad : R)
  : result (BoundaryBaseComp.State * cache MultiPolygonBoundaryComp.output) :=
  let x := BoundaryBaseComp.xs state in
  let y := BoundaryBaseComp.ys state in
  r1 <- MultiPolygonBoundaryComp.distances smooth_max self c n_grad_eval x y ;;
  let '(dist, c1) := r1 in
  r2 <- MultiPolygonBoundaryComp.gradients smooth_max_gradient self c1 x y ;;
  let '(gx, gy, dt, c2) := r2 in
  match dt with
  | Some _ => Raise ValueError
  | None =>
      Ok (BoundaryBaseComp.mkState (nudge pad x (diag gx) dist) (nudge pad y (diag gy) dist),
          c2)
  end.

End Smooth.

End Inherited.

(** ** Reference notions and scenarios *)

(** The signed perpendicular distance from [P] to the line through [A]
    and [B]: positive when [P] lies to the left of the direction A -> B,
    the inner side of a face of a counter-clockwise ring. *)
Definition signed_perpendicular_distance (A B P : vec) : R :=
  ((fst B - fst A) * (snd P - snd A) - (snd B - snd A) * (fst P - fst A))
  / vec_len (vsub B A).

(** [P] lies strictly to the left of the directed line from [A] to [B]:
    inside the half-plane of a face of a counter-clockwise ring. *)
Definition left_of (A B P : vec) : Prop :=
  0 < (fst B - fst A) * (snd P - snd A) - (snd B - snd A) * (fst P - fst A).

(** The end vertex of face [j] of a ring of [n] vertices. *)
Definition next_vertex (n j : nat) : nat := if Nat.ltb j (n - 1) then S j else 0%nat.

(** The circle of radius 10 about the origin. *)
Definition circle10 : CircleBoundaryComp.t := CircleBoundaryComp.mk (0, 0) 10.

(** The square ring of side 10. *)
Definition square_ring : list vec := [(0, 0); (10, 0); (10, 10); (0, 10)].

(** The counter-clockwise orders in which the hull of the square can be
    reported: the four rotations of the input order. *)
Definition square_hull_orders : list (list nat) :=
  [[0; 1; 2; 3]; [1; 2; 3; 0]; [2; 3; 0; 1]; [3; 0; 1; 2]]%nat.

Import PolygonBoundaryComp.

(** The ring [get_edges] works on after closing it. *)
Definition closed_ring (vertices : list vec) : list vec :=
  match vertices with
  | [] => []
  | p :: _ => if negb (veqb p (last vertices p)) then vertices ++ [p] else vertices
  end.

(** The shoelace sum over consecutive vertices, by recursion on the ring. *)
Fixpoint shoelace (l : list vec) : R :=
  match l with
  | a :: (b :: _) as t => (fst a - fst b) * (snd a + snd b) + shoelace t
  | _ => 0
  end.

(** A ring is closed when its first and last vertex coincide. *)
Definition is_closed (l : list vec) : Prop := hd (0, 0) l = last l (0, 0).

(** The test under which [get_edges] starts over on the reversed ring. *)
Definition wrong_winding (counter_clockwise : bool) (a : R) : bool :=
  (counter_clockwise && Rltb a 0) || (negb counter_clockwise && Rltb 0 a).

(** [k] is the first position of a least element of [l]. *)
Definition first_least (l : list R) (k : nat) : Prop :=
  (k < length l)%nat
  /\ (forall j, (j < length l)%nat -> nth k l 0 <= nth j l 0)
  /\ (forall j, (j < k)%nat -> nth k l 0 < nth j l 0).

(** The distance part of an entry of [_calc_distance_and_gradients]. *)
Definition edge_distance (P : vec) (e : edge) : R :=
  fst (fst (edge_distance_and_gradient P e)).

(** [k] is the first edge of least absolute distance from [P]. *)
Definition nearest_edge (edges : list edge) (P : vec) (k : nat) : Prop :=
  first_least (map (fun e => Rabs (edge_distance P e)) edges) k.

(** The three arrays hold, for each point, the entries of its nearest edge. *)
Definition reports_nearest (edges : list edge) (x y : list R) (out : output) : Prop :=
  let '(dist, dx, dy) := out in
  length dist = length x /\ length dx = length x /\ length dy = length x
  /\ forall i, (i < length x)%nat ->
       exists k, nearest_edge edges (nth i x 0, nth i y 0) k
                 /\ forall e0, (nth i dist 0, nth i dx 0, nth i dy 0)
                               = edge_distance_and_gradient (nth i x 0, nth i y 0)
                                                            (nth k edges e0).

(** The states of the cache of a polygon component: empty, or holding the
    result computed for a query of [nTurbines] points. *)
Definition cache_ok (self : PolygonBoundaryComp.t) (c : cache output) : Prop :=
  c = empty_cache
  \/ exists kx ky out,
       length kx = nTurbines self /\ length ky = nTurbines self
       /\ nearest_feature (snd (boundary_properties self)) kx ky = Ok out
       /\ c = mkCache (Some (kx, ky)) (Some out).

(** The relations between the columns of an edge table. *)
Definition well_formed_edge (e : edge) : Prop :=
  AB e = vsub (B e) (A e)
  /\ AB_len e = vec_len (AB e)
  /\ edge_unit_normal e = vdiv (- snd (AB e), fst (AB e)) (AB_len e).

(** The sign given to a vertex distance: [+1] on the good side of the
    vertex normal, [-1] otherwise. *)
Definition side (AP normal : vec) : R := if Rltb 0 (dot AP normal) then 1 else -1.

(** The nearest-feature rule for a point [P] and an edge A -> B, with
    [t] the signed component of AP along the edge: before A the feature
    is the vertex A, beyond B the vertex B, and the edge itself between
    them.  At a vertex the distance has the magnitude of the Euclidean
    distance to it and the gradient is the signed unit vector from the
    vertex to [P]; on the edge the distance is the signed perpendicular
    distance to its line and the gradient is the edge normal. *)
Definition nearest_feature_rule (P : vec) (e : edge) : Prop :=
  let AP := vsub P (A e) in
  let BP := vsub P (B e) in
  let t := dot AP (AB e) / vec_len (AB e) in
  (t < 0 ->
   edge_distance_and_gradient P e
   = (vec_len AP * side AP (A_normal e),
      side AP (A_normal e) * (fst AP / vec_len AP),
      side AP (A_normal e) * (snd AP / vec_len AP))
   /\ Rabs (edge_distance P e) = vec_len AP)
  /\ (vec_len (AB e) < t ->
      edge_distance_and_gradient P e
      = (vec_len BP * side BP (B_normal e),
         side BP (B_normal e) * (fst BP / vec_len BP),
         side BP (B_normal e) * (snd BP / vec_len BP))
      /\ Rabs (edge_distance P e) = vec_len BP)
  /\ (0 <= t <= vec_len (AB e) ->
      edge_distance_and_gradient P e
      = (signed_perpendicular_distance (A e) (B e) P,
         fst (edge_unit_normal e), snd (edge_unit_normal e))).

(** The states of the cache of a multi-polygon component: empty, or
    holding what was computed for the stored positions. *)
Definition multi_cache_ok (self : MultiPolygonBoundaryComp.t)
           (c : cache MultiPolygonBoundaryComp.output) : Prop :=
  c = empty_cache
  \/ exists kx ky out,
       MultiPolygonBoundaryComp.all_features
         (MultiPolygonBoundaryComp.edge_table_in_use self) kx ky = Ok out
       /\ c = mkCache (Some (kx, ky)) (Some out).

(** The component with its relaxation switched off. *)
Definition unrelaxed (self : MultiPolygonBoundaryComp.t) : MultiPolygonBoundaryComp.t :=
  MultiPolygonBoundaryComp.mk
    (MultiPolygonBoundaryComp.n_wt self)
    (MultiPolygonBoundaryComp.base_boundary_properties self)
    (MultiPolygonBoundaryComp.boundary_properties_list_all self)
    None
    (MultiPolygonBoundaryComp.method self).

(** The square ring closed, and its edge table. *)
Definition square_closed : list vec := square_ring ++ [(0, 0)].

Definition square_edges : list edge := edge_table (removelast square_closed) (tl square_closed).

(** The polygon component over the square for one turbine. *)
Definition square_polygon : PolygonBoundaryComp.t :=
  PolygonBoundaryComp.mk 1 (square_ring, square_edges) square_closed None.

(** A multi-polygon component over the square for one turbine, without
    and with relaxation (rate 1/10 over 5 iterations). *)
Definition square_multi : MultiPolygonBoundaryComp.t :=
  MultiPolygonBoundaryComp.mk 1 square_edges square_edges None
                              MultiPolygonBoundaryComp.nearest.

Definition square_multi_relaxed : MultiPolygonBoundaryComp.t :=
  MultiPolygonBoundaryComp.mk 1 square_edges square_edges (Some (1 / 10, 5))
                              MultiPolygonBoundaryComp.nearest.

(** A triangle of area 1/20000, as a ring, and the area of a ring. *)
Definition small_triangle : list vec := [(0, 0); (1 / 100, 0); (0, 1 / 100)].

Definition ring_area (ring : list vec) : R := Rabs (double_area (closed_ring ring)) / 2.

(** ** Components that enter the merged domain without an area test *)

(** [merge] is one turn of the outer loop of [_calc_resulting_polygons]
    and [zones] the list of (polygon, flag) pairs it runs over.  An
    inclusion zone [p] that met an empty domain: the zones ahead of it
    merge to the empty domain. *)
Definition placed_into_empty_domain {Geom : Type}
  (merge : list Geom -> Geom * bool -> list Geom) (zones : list (Geom * bool)) (p : Geom)
  : Prop :=
  exists pre post, zones = pre ++ (p, true) :: post /\ fold_left merge pre [] = [].

(** The single polygon left when an exclusion zone [b] of the list is
    subtracted from a component [d] of the domain merged from the zones
    ahead of it, which it intersects. *)
Definition single_polygon_remainder {Geom : Type}
  (merge : list Geom -> Geom * bool -> list Geom)
  (intersects : Geom -> Geom -> bool)
  (symmetric_difference difference : Geom -> Geom -> Geom)
  (type_of : Geom -> MultiPolygonBoundaryComp.geometry_type)
  (zones : list (Geom * bool)) (p : Geom) : Prop :=
  exists pre post b d,
    zones = pre ++ (b, false) :: post
    /\ In d (fold_left merge pre [])
    /\ intersects d b = true
    /\ type_of (difference (symmetric_difference d b) b) = MultiPolygonBoundaryComp.IsPolygon
    /\ p = difference (symmetric_difference d b) b.

(** A triangle of area 1/20000 away from the square ring. *)
Definition far_triangle : list vec := [(20, 20); (20 + 1 / 100, 20); (20, 20 + 1 / 100)].

(** The stored key of a cache is absent or has the shape of the query
    [x], [y]: the comparison [np.array([x, y]) == self._cache_input] is
    then between arrays of one shape, or against [None]. *)
Definition key_of_query_shape (x y : list R) (input : option (list R * list R)) : Prop :=
  match input with
  | None => True
  | Some (kx, ky) => length kx = length x /\ length ky = length y
  end.

(** ** Further reference notions *)

(** The distance of point [i] from the center of a circle. *)
Definition radial (self : CircleBoundaryComp.t) (x y : list R) (i : nat) : R :=
  sqrt ((nth i x 0 - fst (CircleBoundaryComp.center self)) ^ 2
        + (nth i y 0 - snd (CircleBoundaryComp.center self)) ^ 2).

(** A 2-d array of [rows] rows, each of [cols] entries. *)
Definition has_shape (m : list (list R)) (rows cols : nat) : Prop :=
  length m = rows /\ forall r, (r < rows)%nat -> length (nth r m []) = cols.

(** The two loops of [calculate_gradients] run part of the way: the
    inner loop over the first [J] faces for turbine [i], and the outer
    loop over the first [I] turbines; [g j] is the value stored for face
    [j] and [nV] the number of faces. *)
Definition fill_faces (g : nat -> R) (nV i J : nat) (m : list (list R)) : list (list R) :=
  fold_left (fun m' j => ConvexBoundaryComp.set2 m' (i * nV + j) i (g j)) (seq 0 J) m.

Definition fill_turbines (g : nat -> R) (nV I : nat) (m : list (list R)) : list (list R) :=
  fold_left (fun m' i => fill_faces g nV i nV m') (seq 0 I) m.

(** The clipping [np.where(dist < 0, np.minimum(dist, -.01), dist)] of
    [ConvexBoundaryComp.satisfy]. *)
Definition clip (d : R) : R := if Rltb d 0 then Rmin d (- (1 / 100)) else d.

(** The grid searched for a point with face distances [d_i] holds a
    displacement that meets every linearised face constraint, when the
    point needs one. *)
Definition admissible_move (dx dy d_i : list R) : Prop :=
  match amin d_i with
  | Some dmin =>
      dmin < 0 ->
      exists g, In g (ConvexBoundaryComp.meshgrid (linspace (- Rabs dmin) (Rabs dmin) 100))
                /\ ConvexBoundaryComp.mask dx dy d_i g = true
  | None => False
  end.

(** The per-face gradients [ConvexBoundaryComp.satisfy] reads off the
    rows of the first turbine. *)
Definition first_turbine_gradients (self : ConvexBoundaryComp.t) : list R * list R :=
  (map (fun row => nth 0 row 0)
       (firstn (ConvexBoundaryComp.nVertices self) (ConvexBoundaryComp.dfaceDistance_dx self)),
   map (fun row => nth 0 row 0)
       (firstn (ConvexBoundaryComp.nVertices self) (ConvexBoundaryComp.dfaceDistance_dy self))).

(** The axis-aligned box with corners (a, b) and (c, d), counter-clockwise
    from the lower left corner. *)
Definition box (a b c d : R) : list vec := [(a, b); (c, b); (c, d); (a, d)].

(** Three points wider than high. *)
Definition wide_triangle : list vec := [(0, 0); (10, 0); (10, 4)].

(** The successor of edge [j] around a ring of [n] edges. *)
Definition next_edge (n j : nat) : nat := if Nat.eqb (S j) n then 0%nat else S j.

(** The point the update of [PolygonBoundaryComp.satisfy] moves [P] to,
    given the distance and the gradient reported for it. *)
Definition moved_point (pad : R) (P : vec) (r : R * R * R) : vec :=
  (fst P - snd (fst r) * fst (fst r) * pad, snd P - snd r * fst (fst r) * pad).

(** * Properties *)

(** ** Comparisons *)

Lemma Rltb_true (a b : R) : a < b -> Rltb a b = true.
Proof. intros H; unfold Rltb; destruct (Rlt_dec a b); [reflexivity | contradiction]. Qed.

Lemma Rltb_false (a b : R) : ~ a < b -> Rltb a b = false.
Proof. intros H; unfold Rltb; destruct (Rlt_dec a b); [contradiction | reflexivity]. Qed.

Lemma Rltb_spec (a b : R) : Rltb a b = true <-> a < b.
Proof.
  unfold Rltb; destruct (Rlt_dec a b); split; intros; try assumption; try reflexivity.
  - discriminate.
  - contradiction.
Qed.

Lemma Rleb_true (a b : R) : a <= b -> Rleb a b = true.
Proof. intros H; unfold Rleb; destruct (Rle_dec a b); [reflexivity | contradiction]. Qed.

Lemma Rleb_false (a b : R) : ~ a <= b -> Rleb a b = false.
Proof. intros H; unfold Rleb; destruct (Rle_dec a b); [contradiction | reflexivity]. Qed.

Lemma Reqb_true (a b : R) : a = b -> Reqb a b = true.
Proof. intros H; unfold Reqb; destruct (Req_dec_T a b); [reflexivity | contradiction]. Qed.

Lemma Reqb_false (a b : R) : a <> b -> Reqb a b = false.
Proof. intros H; unfold Reqb; destruct (Req_dec_T a b); [contradiction | reflexivity]. Qed.

Lemma Reqb_refl (a : R) : Reqb a a = true.
Proof. apply Reqb_true; reflexivity. Qed.

(** Decide every comparison of the goal whose outcome linear arithmetic
    settles. *)
Ltac decide_cmp :=
  repeat match goal with
         | |- context [Rltb ?a ?b] =>
             first [ rewrite (Rltb_true a b) by lra | rewrite (Rltb_false a b) by lra ]
         | |- context [Rleb ?a ?b] =>
             first [ rewrite (Rleb_true a b) by lra | rewrite (Rleb_false a b) by lra ]
         | |- context [Reqb ?a ?b] =>
             first [ rewrite (Reqb_true a b) by lra | rewrite (Reqb_false a b) by lra ]
         end.

Lemma sqrt_of_square (r s : R) : 0 <= r -> s = r * r -> sqrt s = r.
Proof. intros Hr ->; apply sqrt_square; assumption. Qed.

(** ** Lists *)

Lemma map2_length {A B C : Type} (f : A -> B -> C) (a : list A) (b : list B) :
  length (map2 f a b) = Nat.min (length a) (length b).
Proof. unfold map2; rewrite length_map, length_combine; reflexivity. Qed.

Lemma nth_map2 {A B C : Type} (f : A -> B -> C) (a : list A) (b : list B)
      (j : nat) (da : A) (db : B) (dc : C) :
  (j < length a)%nat -> (j < length b)%nat ->
  nth j (map2 f a b) dc = f (nth j a da) (nth j b db).
Proof.
  intros Ha Hb; unfold map2.
  rewrite (nth_indep _ dc (f da db)) by (rewrite length_map, length_combine; lia).
  change (f da db) with ((fun ab => f (fst ab) (snd ab)) (da, db)).
  rewrite map_nth.
  revert b j Ha Hb; induction a as [|a0 a IH]; intros [|b0 b] [|j] Ha Hb;
    simpl in *; try lia; try reflexivity.
  apply IH; lia.
Qed.

(** ** CircleBoundaryComp: the scenario of radius 10 about the origin *)

Lemma circle10_distance_center : CircleBoundaryComp.distances circle10 [0] [0] = [10].
Proof.
  unfold CircleBoundaryComp.distances, map2; simpl.
  rewrite (sqrt_of_square 0) by lra.
  f_equal; lra.
Qed.

Lemma circle10_distance_outside : CircleBoundaryComp.distances circle10 [20] [0] = [-10].
Proof.
  unfold CircleBoundaryComp.distances, map2; simpl.
  rewrite (sqrt_of_square 20) by lra.
  f_equal; lra.
Qed.

Lemma circle10_gradient_center :
  CircleBoundaryComp.gradients circle10 [0] [0] = ([[-1]], [[-1]]).
Proof.
  unfold CircleBoundaryComp.gradients.
  rewrite circle10_distance_center.
  cbn [map negb where_ map2 combine fst snd circle10 CircleBoundaryComp.radius].
  rewrite Reqb_refl.
  cbn.
  repeat f_equal; lra.
Qed.

Lemma arctan2_pos_x_axis (x : R) : 0 < x -> arctan2 (0 - 0) (x - 0) = 0.
Proof.
  intros Hx; unfold arctan2.
  rewrite Rltb_true by lra.
  replace ((0 - 0) / (x - 0)) with 0 by (field; lra).
  apply atan_0.
Qed.

Lemma circle10_gradient_outside :
  CircleBoundaryComp.gradients circle10 [20] [0] = ([[-1]], [[0]]).
Proof.
  unfold CircleBoundaryComp.gradients.
  rewrite circle10_distance_outside.
  cbn [map negb where_ map2 combine fst snd circle10 CircleBoundaryComp.radius
       CircleBoundaryComp.center].
  rewrite Reqb_false by lra.
  rewrite arctan2_pos_x_axis by lra.
  cbn.
  rewrite cos_0, sin_0.
  repeat f_equal; lra.
Qed.

(** ** ConvexBoundaryComp *)

Section Convex.

Import ConvexBoundaryComp.

Lemma veqb_false_iff (p q : vec) : veqb p q = false <-> p <> q.
Proof.
  unfold veqb, Reqb; destruct p as [a b], q as [c d]; cbn [fst snd].
  destruct (Req_dec_T a c), (Req_dec_T b d); cbn; split; intros H; try reflexivity;
    try discriminate; try (intros E; injection E; intros; contradiction).
  subst; exfalso; apply H; reflexivity.
Qed.

Lemma vec_len_pos (v : vec) : v <> (0, 0) -> 0 < vec_len v.
Proof.
  intros Hv; unfold vec_len; apply sqrt_lt_R0.
  destruct v as [a b]; cbn [fst snd].
  destruct (Req_dec_T a 0) as [Ha|Ha]; destruct (Req_dec_T b 0) as [Hb|Hb]; subst.
  - exfalso; apply Hv; reflexivity.
  - nra.
  - nra.
  - nra.
Qed.

Lemma vec_len_sqr (v : vec) : vec_len v * vec_len v = fst v ^ 2 + snd v ^ 2.
Proof. unfold vec_len; apply sqrt_sqrt; nra. Qed.

(** A face distance is the signed perpendicular distance to the line of
    the face, positive to the left of A -> B. *)
Lemma face_distance_perpendicular (A B P : vec) :
  A <> B ->
  let normal := (snd B - snd A, - (fst B - fst A)) in
  face_distance P A (vdiv normal (vec_len normal)) = signed_perpendicular_distance A B P.
Proof.
  intros HAB normal.
  assert (Hn : normal <> (0, 0)).
  { unfold normal; intros E; injection E as E1 E2; apply HAB.
    destruct A, B; cbn [fst snd] in *; f_equal; lra. }
  pose proof (vec_len_pos normal Hn) as Hpos.
  pose proof (vec_len_sqr normal) as Hsq.
  assert (HL : vec_len (vsub B A) = vec_len normal).
  { unfold vec_len, vsub, normal; cbn [fst snd]; f_equal; ring. }
  unfold signed_perpendicular_distance; rewrite HL.
  unfold face_distance, vdiv, vscale, vsub, dot; cbn [fst snd].
  unfold normal in Hsq, Hpos |- *; cbn [fst snd] in Hsq |- *.
  set (L := vec_len (snd B - snd A, - (fst B - fst A))) in *.
  set (nx := snd B - snd A) in *. set (ny := - (fst B - fst A)) in *.
  assert (Hunit : nx / L * (nx / L) + ny / L * (ny / L) = 1).
  { replace (nx / L * (nx / L) + ny / L * (ny / L)) with ((nx ^ 2 + ny ^ 2) / (L * L))
      by (field; lra).
    rewrite <- Hsq; field; lra. }
  transitivity (((fst A - fst P) * (nx / L) + (snd A - snd P) * (ny / L))
                * (nx / L * (nx / L) + ny / L * (ny / L))); [ring |].
  rewrite Hunit. unfold nx, ny. field; lra.
Qed.

(** The signed perpendicular distance is positive exactly to the left. *)
Lemma signed_perpendicular_positive (A B P : vec) :
  A <> B -> (0 < signed_perpendicular_distance A B P <-> left_of A B P).
Proof.
  intros HAB. unfold signed_perpendicular_distance, left_of.
  assert (Hpos : 0 < vec_len (vsub B A)).
  { apply vec_len_pos. unfold vsub; intros E; injection E as E1 E2; apply HAB.
    destruct A, B; cbn [fst snd] in *; f_equal; lra. }
  set (c := (fst B - fst A) * (snd P - snd A) - (snd B - snd A) * (fst P - fst A)).
  split; intros H.
  - apply Rmult_lt_compat_r with (r := vec_len (vsub B A)) in H; [| exact Hpos].
    unfold Rdiv in H. rewrite Rmult_0_l, Rmult_assoc, Rinv_l, Rmult_1_r in H; lra.
  - apply Rdiv_lt_0_compat; assumption.
Qed.

Lemma init_convex_hull_inv hull n_wt0 xy self :
  init hull n_wt0 xy convex_hull = Some self ->
  let poly := map (fun i => nth i xy (0, 0)) (hull xy) in
  BoundaryBaseComp.close_ring poly = Some (xy_boundary self)
  /\ nVertices self = length poly
  /\ unit_normals self = map (face_normal poly) (seq 0 (length poly))
  /\ n_wt self = n_wt0
  /\ (dfaceDistance_dx self, dfaceDistance_dy self)
     = calculate_gradients n_wt0 (length poly) (map (face_normal poly) (seq 0 (length poly))).
Proof.
  intros H poly.
  unfold init, calculate_boundary_and_normals, boundary_of in H.
  fold poly in H.
  destruct (BoundaryBaseComp.close_ring poly) as [closed|]; [| discriminate].
  injection H as <-; cbn.
  repeat split; reflexivity.
Qed.

Lemma last_nonempty_indep {A : Type} (l : list A) (d d' : A) :
  l <> [] -> last l d = last l d'.
Proof.
  induction l as [|a [|b l] IH]; intros H; [contradiction | reflexivity |].
  change (last (b :: l) d = last (b :: l) d'); apply IH; discriminate.
Qed.

Lemma close_ring_open (poly closed : list vec) :
  BoundaryBaseComp.close_ring poly = Some closed ->
  hd (0, 0) poly <> last poly (0, 0) ->
  removelast closed = poly.
Proof.
  unfold BoundaryBaseComp.close_ring; destruct poly as [|p rest]; [discriminate |].
  intros H Hne.
  assert (E : veqb p (last (p :: rest) p) = false).
  { apply veqb_false_iff.
    rewrite (last_nonempty_indep (p :: rest) p (0, 0)) by discriminate.
    exact Hne. }
  rewrite E in H; cbn [negb] in H; injection H as <-.
  apply (removelast_last (p :: rest) p).
Qed.

Lemma nth_map_lt {A B : Type} (f : A -> B) (l : list A) (i : nat) (d : A) (d' : B) :
  (i < length l)%nat -> nth i (map f l) d' = f (nth i l d).
Proof.
  intros Hi. rewrite (nth_indep _ d' (f d)) by (rewrite length_map; exact Hi).
  apply map_nth.
Qed.

(** Every row of the convex distances has one entry per face, and the
    entry of face [j] is the signed perpendicular distance to its line. *)
Lemma convex_distances_entry hull n_wt0 xy self :
  init hull n_wt0 xy convex_hull = Some self ->
  let poly := map (fun i => nth i xy (0, 0)) (hull xy) in
  hd (0, 0) poly <> last poly (0, 0) ->
  forall (x y : list R) (i j : nat),
    length x = length y -> (i < length x)%nat -> (j < length poly)%nat ->
    let A := nth j poly (0, 0) in
    let B := nth (next_vertex (length poly) j) poly (0, 0) in
    A <> B ->
    length (nth i (distances self x y) []) = length poly
    /\ nth j (nth i (distances self x y) []) 0
       = signed_perpendicular_distance A B (nth i x 0, nth i y 0)
    /\ (0 < nth j (nth i (distances self x y) []) 0 <-> left_of A B (nth i x 0, nth i y 0)).
Proof.
  intros Hinit poly Hopen x y i j Hxy Hi Hj A B HAB.
  enough (H : length (nth i (distances self x y) []) = length poly
              /\ nth j (nth i (distances self x y) []) 0
                 = signed_perpendicular_distance A B (nth i x 0, nth i y 0)).
  { destruct H as [H1 H2]. split; [exact H1 | split; [exact H2 |]].
    rewrite H2. apply signed_perpendicular_positive; exact HAB. }
  destruct (init_convex_hull_inv _ _ _ _ Hinit) as (Hclose & _ & Hnormals & _).
  fold poly in Hclose, Hnormals.
  clearbody poly.
  unfold distances, calculate_distance_to_boundary.
  rewrite (close_ring_open _ _ Hclose Hopen), Hnormals.
  rewrite (nth_map_lt _ _ i (0, 0)) by (rewrite length_combine; lia).
  rewrite combine_nth by assumption.
  split.
  - rewrite map2_length, length_map, length_seq; lia.
  - rewrite (nth_map2 _ _ _ j (0, 0) (0, 0))
      by (rewrite ?length_map, ?length_seq; exact Hj).
    rewrite (nth_map_lt _ _ j 0%nat) by (rewrite length_seq; lia).
    rewrite seq_nth by lia. cbn [Nat.add].
    unfold face_normal. fold (next_vertex (length poly) j). fold A B.
    apply face_distance_perpendicular; exact HAB.
Qed.

Ltac eval_square_distances :=
  unfold distances, calculate_distance_to_boundary;
  cbn [xy_boundary unit_normals removelast combine map map2 length seq nth fst snd];
  unfold face_distance, face_normal, vec_len, vdiv, vscale, vsub, dot;
  cbn [fst snd length Nat.ltb Nat.leb Nat.sub nth];
  repeat rewrite (sqrt_of_square 10) by lra;
  repeat f_equal; field.

Lemma square_scenario hull n_wt0 :
  In (hull square_ring) square_hull_orders ->
  exists self,
    init hull n_wt0 square_ring convex_hull = Some self
    /\ distances self [5] [5] = [[5; 5; 5; 5]]
    /\ distances self [15] [5]
       = [map (fun v => nth v [5; -5; 5; 15] 0) (hull square_ring)].
Proof.
  intros Hin.
  unfold init, calculate_boundary_and_normals, boundary_of.
  cbn [In square_hull_orders] in Hin.
  destruct Hin as [<- | [<- | [<- | [<- | []]]]];
    cbn [map nth square_ring BoundaryBaseComp.close_ring last length seq];
    unfold veqb; cbn [fst snd]; decide_cmp; cbn [andb negb app];
    (eexists; split; [reflexivity |]); split; eval_square_distances.
Qed.

(** The Jacobians returned do not depend on the positions. *)
Lemma convex_gradients_constant self x1 y1 x2 y2 :
  gradients self x1 y1 = gradients self x2 y2.
Proof. reflexivity. Qed.

Lemma amin_from_In (l : list R) (b : R) : amin_from b l = b \/ In (amin_from b l) l.
Proof.
  revert b; induction l as [|v t IH]; intros b; cbn; [left; reflexivity |].
  destruct (Rltb v b).
  - destruct (IH v) as [-> | H]; [right; left; reflexivity | right; right; exact H].
  - destruct (IH b) as [-> | H]; [left; reflexivity | right; right; exact H].
Qed.

Lemma amin_In (l : list R) (m : R) : amin l = Some m -> In m l.
Proof.
  destruct l as [|v t]; [discriminate |]; cbn; intros H; injection H as <-.
  destruct (amin_from_In t v) as [-> | H]; [left; reflexivity | right; exact H].
Qed.

Lemma map_id_on {A : Type} (f : A -> A) (l : list A) :
  (forall a, In a l -> f a = a) -> map f l = l.
Proof.
  induction l as [|a l IH]; intros H; cbn; [reflexivity |].
  rewrite H by (left; reflexivity). f_equal. apply IH. intros; apply H; right; assumption.
Qed.

Lemma sequence_nth {A : Type} (l : list (option A)) (r : list A) (i : nat) (a d : A) :
  sequence l = Some r -> nth i l None = Some a -> nth i r d = a.
Proof.
  revert r i; induction l as [|o l IH]; intros r i Hs Hn.
  - destruct i; discriminate.
  - cbn in Hs. destruct o as [a0|]; [| discriminate].
    destruct (sequence l) as [r0|] eqn:E; [| discriminate].
    injection Hs as <-. destruct i as [|i]; cbn in *.
    + injection Hn as ->; reflexivity.
    + apply IH; [reflexivity | assumption].
Qed.

Lemma sequence_length {A : Type} (l : list (option A)) (r : list A) :
  sequence l = Some r -> length r = length l.
Proof.
  revert r; induction l as [|o l IH]; intros r Hs; cbn in Hs.
  - injection Hs as <-; reflexivity.
  - destruct o as [a|]; [| discriminate].
    destruct (sequence l) as [r0|]; [| discriminate].
    injection Hs as <-; cbn; f_equal; apply IH; reflexivity.
Qed.

Lemma amin_from_lower (l : list R) (b : R) :
  amin_from b l <= b /\ forall v, In v l -> amin_from b l <= v.
Proof.
  revert b; induction l as [|w t IH]; intros b; cbn.
  - split; [lra | intros v []].
  - destruct (Rltb w b) eqn:E.
    + apply Rltb_spec in E. destruct (IH w) as [H1 H2]. split; [lra |].
      intros v [<- | Hv]; [assumption | apply H2; assumption].
    + assert (~ w < b) by (intros C; apply Rltb_spec in C; congruence).
      destruct (IH b) as [H1 H2]. split; [assumption |].
      intros v [<- | Hv]; [lra | apply H2; assumption].
Qed.

Lemma amin_lower (l : list R) (m : R) :
  amin l = Some m -> forall v, In v l -> m <= v.
Proof.
  destruct l as [|w t]; [discriminate |]; cbn; intros H; injection H as <-.
  destruct (amin_from_lower t w) as [H1 H2].
  intros v [<- | Hv]; [assumption | apply H2; assumption].
Qed.

(** A point whose least face distance is not negative is left where it is. *)
Lemma satisfy_point_feasible (dx dy d_i : list R) (p : vec) (m : R) :
  amin d_i = Some m -> 0 <= m -> satisfy_point dx dy p d_i = Some p.
Proof.
  intros Hm Hpos; unfold satisfy_point; rewrite Hm.
  rewrite Rltb_false by lra. reflexivity.
Qed.

Lemma convex_satisfy_feasible self state pad (i : nat) (m : R) :
  let x := BoundaryBaseComp.xs state in
  let y := BoundaryBaseComp.ys state in
  length x = length y -> (i < length x)%nat ->
  amin (nth i (distances self x y) []) = Some m -> 0 <= m ->
  forall state',
    satisfy self state pad = Some state' ->
    nth i (BoundaryBaseComp.xs state') 0 = nth i x 0
    /\ nth i (BoundaryBaseComp.ys state') 0 = nth i y 0.
Proof.
  intros x y Hxy Hi Hm Hpos state' Hs.
  unfold satisfy in Hs. fold x y in Hs.
  set (dist := map (map (fun d => if Rltb d 0 then Rmin d (- (1 / 100)) else d))
                   (distances self x y)) in Hs.
  set (dx := map _ (firstn _ (fst _))) in Hs.
  set (dy := map _ (firstn _ (snd _))) in Hs.
  destruct (sequence (map2 (satisfy_point dx dy) (combine x y) dist)) as [moved|] eqn:E;
    [| discriminate].
  injection Hs as <-. cbn [BoundaryBaseComp.xs BoundaryBaseComp.ys].
  assert (Hlen : length (distances self x y) = length x).
  { unfold distances, calculate_distance_to_boundary.
    rewrite length_map, length_combine; lia. }
  assert (Hrow : nth i dist [] = nth i (distances self x y) []).
  { unfold dist. rewrite (nth_map_lt _ _ i []) by lia.
    apply map_id_on. intros d Hd.
    pose proof (amin_lower _ _ Hm d Hd). rewrite Rltb_false by lra. reflexivity. }
  assert (Hp : nth i (map2 (satisfy_point dx dy) (combine x y) dist) None
               = Some (nth i x 0, nth i y 0)).
  { rewrite (nth_map2 _ _ _ i (0, 0) [])
      by (unfold dist; rewrite ?length_map, ?length_combine; lia).
    rewrite combine_nth by assumption. rewrite Hrow.
    apply (satisfy_point_feasible _ _ _ _ m); assumption. }
  pose proof (sequence_nth _ _ i _ (0, 0) E Hp) as Hmoved.
  assert (Hil : (i < length moved)%nat).
  { rewrite (sequence_length _ _ E), map2_length, length_combine.
    unfold dist; rewrite length_map; lia. }
  split.
  - rewrite (nth_map_lt _ _ i (0, 0)) by assumption. rewrite Hmoved; reflexivity.
  - rewrite (nth_map_lt _ _ i (0, 0)) by assumption. rewrite Hmoved; reflexivity.
Qed.

End Convex.

(** ** PolygonBoundaryComp *)

(** The array form of the shoelace sum agrees with its recursive form. *)
Lemma double_area_shoelace (l : list vec) : double_area l = shoelace l.
Proof.
  unfold double_area, map2.
  induction l as [|a [|b t] IH]; [reflexivity | reflexivity |].
  change (removelast (a :: b :: t)) with (a :: removelast (b :: t)).
  cbn [tl combine map sum_R fold_right fst snd] in *.
  change (shoelace (a :: b :: t)) with ((fst a - fst b) * (snd a + snd b) + shoelace (b :: t)).
  rewrite <- IH. reflexivity.
Qed.

Lemma shoelace_snoc (l : list vec) (a b : vec) :
  shoelace (l ++ [a; b]) = shoelace (l ++ [a]) + (fst a - fst b) * (snd a + snd b).
Proof.
  induction l as [|c [|d t] IH].
  - cbn; lra.
  - cbn; lra.
  - change (shoelace ((c :: d :: t) ++ [a; b]))
      with ((fst c - fst d) * (snd c + snd d) + shoelace ((d :: t) ++ [a; b])).
    change (shoelace ((c :: d :: t) ++ [a]))
      with ((fst c - fst d) * (snd c + snd d) + shoelace ((d :: t) ++ [a])).
    rewrite IH; lra.
Qed.

(** Reversing the ring negates the shoelace sum. *)
Lemma shoelace_rev (l : list vec) : shoelace (rev l) = - shoelace l.
Proof.
  induction l as [|a [|b t] IH]; [cbn; lra | cbn; lra |].
  change (rev (a :: b :: t)) with (rev (b :: t) ++ [a]).
  change (shoelace (a :: b :: t)) with ((fst a - fst b) * (snd a + snd b) + shoelace (b :: t)).
  change (rev (b :: t)) with (rev t ++ [b]) in *.
  rewrite <- app_assoc. cbn [app].
  rewrite shoelace_snoc, IH. lra.
Qed.

Lemma double_area_rev (l : list vec) : double_area (rev l) = - double_area l.
Proof. rewrite !double_area_shoelace; apply shoelace_rev. Qed.

Lemma veqb_refl (p : vec) : veqb p p = true.
Proof. unfold veqb; rewrite !Reqb_refl; reflexivity. Qed.

Lemma veqb_true_iff (p q : vec) : veqb p q = true <-> p = q.
Proof.
  split; [| intros ->; apply veqb_refl].
  unfold veqb, Reqb; destruct p as [a b], q as [c d]; cbn [fst snd].
  destruct (Req_dec_T a c), (Req_dec_T b d); cbn; intros H; try discriminate.
  subst; reflexivity.
Qed.

Lemma closed_ring_is_closed (v : list vec) : is_closed (closed_ring v).
Proof.
  unfold is_closed, closed_ring; destruct v as [|p rest]; [reflexivity |].
  destruct (veqb p (last (p :: rest) p)) eqn:E; cbn [negb].
  - apply veqb_true_iff in E. cbn [hd].
    rewrite (last_nonempty_indep (p :: rest) (0, 0) p) by discriminate. exact E.
  - change ((p :: rest) ++ [p]) with (p :: (rest ++ [p])). cbn [hd].
    change (p :: rest ++ [p]) with ((p :: rest) ++ [p]). rewrite last_last. reflexivity.
Qed.

Lemma rev_is_closed (l : list vec) : is_closed l -> is_closed (rev l).
Proof.
  unfold is_closed; intros H.
  destruct l as [|p rest]; [reflexivity |].
  cbn [hd] in H.
  assert (Hl : last (rev (p :: rest)) (0, 0) = p).
  { cbn [rev]. apply last_last. }
  rewrite Hl.
  destruct (rev (p :: rest)) as [|q r] eqn:E.
  - apply (f_equal (@length _)) in E; rewrite length_rev in E; discriminate.
  - cbn [hd]. 
    assert (Hq : q = last (p :: rest) (0, 0)).
    { rewrite <- (rev_involutive (p :: rest)), E. cbn [rev]. rewrite last_last. reflexivity. }
    rewrite Hq, <- H. reflexivity.
Qed.

(** Closing a closed ring changes nothing. *)
Lemma closed_ring_idem (l : list vec) : is_closed l -> closed_ring l = l.
Proof.
  unfold is_closed, closed_ring; destruct l as [|p rest]; [reflexivity |].
  cbn [hd]; intros H.
  rewrite (last_nonempty_indep (p :: rest) p (0, 0)) by discriminate.
  rewrite <- H, veqb_refl. reflexivity.
Qed.

Lemma get_edges_unfold (fuel : nat) (v : list vec) (ccw : bool) :
  v <> [] ->
  get_edges (S fuel) v ccw =
    let c := closed_ring v in
    if Reqb (double_area c) 0 then Raise AssertionError
    else if wrong_winding ccw (double_area c) then get_edges fuel (rev c) ccw
         else Ok (removelast c, removelast c, tl c).
Proof. destruct v as [|p rest]; [intros H; contradiction | intros _; reflexivity]. Qed.

Lemma closed_ring_nonempty (v : list vec) : v <> [] -> closed_ring v <> [].
Proof.
  destruct v as [|p rest]; [intros H; contradiction | intros _].
  unfold closed_ring; destruct (negb _); [| discriminate].
  cbn; discriminate.
Qed.

Lemma rev_nonempty {A : Type} (l : list A) : l <> [] -> rev l <> [].
Proof.
  intros H E; apply H. rewrite <- (rev_involutive l), E; reflexivity.
Qed.

Lemma wrong_winding_flip (ccw : bool) (a : R) :
  wrong_winding ccw a = true -> wrong_winding ccw (- a) = false.
Proof.
  unfold wrong_winding; destruct ccw; cbn [andb negb orb]; rewrite ?orb_false_r;
    intros H; apply Rltb_spec in H; apply Rltb_false; lra.
Qed.

Lemma right_winding_sign (ccw : bool) (a : R) :
  a <> 0 -> wrong_winding ccw a = false ->
  if ccw then 0 < a else a < 0.
Proof.
  unfold wrong_winding; destruct ccw; cbn [andb negb orb]; rewrite ?orb_false_r;
    intros Ha H.
  - destruct (Rlt_dec a 0) as [C|C]; [rewrite (Rltb_true _ _ C) in H; discriminate | lra].
  - destruct (Rlt_dec 0 a) as [C|C]; [rewrite (Rltb_true _ _ C) in H; discriminate | lra].
Qed.

(** [get_edges] needs at most one restart: with a recursion budget of two
    or more it fails exactly on the rings of zero area and otherwise
    returns the closed ring in the requested winding. *)
Lemma get_edges_total (fuel : nat) (v : list vec) (ccw : bool) :
  v <> [] -> (2 <= fuel)%nat ->
  (double_area (closed_ring v) = 0 -> get_edges fuel v ccw = Raise AssertionError)
  /\ (double_area (closed_ring v) <> 0 ->
      exists ring,
        (ring = closed_ring v \/ ring = rev (closed_ring v))
        /\ is_closed ring
        /\ (if ccw then 0 < double_area ring else double_area ring < 0)
        /\ get_edges fuel v ccw = Ok (removelast ring, removelast ring, tl ring)).
Proof.
  intros Hv Hfuel.
  destruct fuel as [|[|fuel]]; [lia | lia |].
  rewrite (get_edges_unfold _ _ _ Hv). cbv zeta.
  set (c := closed_ring v).
  split.
  - intros H0. rewrite (Reqb_true _ _ H0). reflexivity.
  - intros Hne. rewrite (Reqb_false _ _ Hne).
    destruct (wrong_winding ccw (double_area c)) eqn:Ew.
    + exists (rev c).
      assert (Hc : is_closed (rev c)) by (apply rev_is_closed, closed_ring_is_closed).
      assert (Hflip := wrong_winding_flip _ _ Ew).
      rewrite <- double_area_rev in Hflip.
      assert (Hne' : double_area (rev c) <> 0) by (rewrite double_area_rev; lra).
      repeat split.
      * right; reflexivity.
      * exact Hc.
      * apply right_winding_sign; assumption.
      * rewrite get_edges_unfold by (apply rev_nonempty, closed_ring_nonempty, Hv).
        cbv zeta. rewrite (closed_ring_idem _ Hc).
        rewrite (Reqb_false _ _ Hne'), Hflip. reflexivity.
    + exists c. repeat split.
      * left; reflexivity.
      * apply closed_ring_is_closed.
      * apply right_winding_sign; assumption.
Qed.

Lemma get_boundary_properties_total (fuel : nat) (xy : list vec) (inclusion_zone : bool) :
  xy <> [] -> (2 <= fuel)%nat ->
  (double_area (closed_ring xy) = 0 ->
   get_boundary_properties fuel xy inclusion_zone = Raise AssertionError)
  /\ (double_area (closed_ring xy) <> 0 ->
      exists ring,
        (ring = closed_ring xy \/ ring = rev (closed_ring xy))
        /\ is_closed ring
        /\ (if inclusion_zone then 0 < double_area ring else double_area ring < 0)
        /\ get_boundary_properties fuel xy inclusion_zone
           = Ok (removelast ring, edge_table (removelast ring) (tl ring))).
Proof.
  intros Hv Hfuel.
  destruct (get_edges_total fuel xy inclusion_zone Hv Hfuel) as [H0 H1].
  unfold get_boundary_properties; split.
  - intros Hz; rewrite (H0 Hz); reflexivity.
  - intros Hne; destruct (H1 Hne) as (ring & Hr & Hc & Hs & He).
    exists ring; rewrite He; cbn. repeat split; assumption.
Qed.

(** The scan of [np.argmin] keeps the first position of the least value. *)
Lemma argmin_from_first_least (l pre : list R) (best : R) (besti : nat) :
  (besti < length pre)%nat ->
  nth besti pre 0 = best ->
  (forall j, (j < length pre)%nat -> best <= nth j pre 0) ->
  (forall j, (j < besti)%nat -> best < nth j pre 0) ->
  first_least (pre ++ l) (argmin_from best besti (length pre) l).
Proof.
  revert pre best besti; induction l as [|v t IH]; intros pre best besti Hb Hn Hle Hlt.
  - cbn [argmin_from]. rewrite app_nil_r. unfold first_least.
    rewrite Hn. repeat split; assumption.
  - cbn [argmin_from].
    replace (pre ++ v :: t) with ((pre ++ [v]) ++ t) by (rewrite <- app_assoc; reflexivity).
    replace (S (length pre)) with (length (pre ++ [v])) by (rewrite length_app; cbn; lia).
    destruct (Rltb v best) eqn:E.
    + apply Rltb_spec in E. apply IH.
      * rewrite length_app; cbn; lia.
      * rewrite app_nth2 by lia. rewrite Nat.sub_diag. reflexivity.
      * intros j Hj. rewrite length_app in Hj; cbn in Hj.
        destruct (Nat.eq_dec j (length pre)) as [->|Hne].
        -- rewrite app_nth2 by lia. rewrite Nat.sub_diag. cbn. lra.
        -- rewrite app_nth1 by lia. specialize (Hle j ltac:(lia)). lra.
      * intros j Hj. rewrite app_nth1 by lia. specialize (Hle j Hj). lra.
    + assert (Hge : best <= v).
      { destruct (Rlt_dec v best) as [C|C]; [rewrite (Rltb_true _ _ C) in E; discriminate | lra]. }
      apply IH.
      * rewrite length_app; cbn; lia.
      * rewrite app_nth1 by lia. assumption.
      * intros j Hj. rewrite length_app in Hj; cbn in Hj.
        destruct (Nat.eq_dec j (length pre)) as [->|Hne].
        -- rewrite app_nth2 by lia. rewrite Nat.sub_diag. cbn. lra.
        -- rewrite app_nth1 by lia. apply Hle; lia.
      * intros j Hj. rewrite app_nth1 by lia. apply Hlt; assumption.
Qed.

(** [np.argmin] returns the first position of the minimum. *)
Lemma argmin_first_least (l : list R) (k : nat) :
  argmin l = Some k -> first_least l k.
Proof.
  destruct l as [|v t]; [discriminate |]; cbn [argmin]; intros H; injection H as <-.
  apply (argmin_from_first_least t [v] v 0%nat).
  - cbn; lia.
  - reflexivity.
  - intros j Hj; cbn in Hj. assert (j = 0%nat) by lia; subst; cbn; lra.
  - intros j Hj; lia.
Qed.

Lemma argmin_nonempty (l : list R) : l <> [] -> exists k, argmin l = Some k.
Proof. destruct l; [intros H; contradiction | intros _; eexists; reflexivity]. Qed.

(** Row-wise argmin succeeds on rows that are not empty and gives, for
    every row, the first position of the least magnitude. *)
Lemma argmin_abs_rows_ok (M : list (list R)) :
  (forall row, In row M -> row <> []) ->
  exists index,
    argmin_abs_rows M = Ok index
    /\ length index = length M
    /\ forall i, (i < length M)%nat ->
                 first_least (map Rabs (nth i M [])) (nth i index 0%nat).
Proof.
  induction M as [|row rest IH]; intros Hne.
  - exists []; split; [reflexivity | split; [reflexivity |]].
    intros i Hi; cbn in Hi; lia.
  - destruct IH as (ks & Hks & Hlen & Hfl); [intros r Hr; apply Hne; right; exact Hr |].
    destruct (argmin_nonempty (map Rabs row)) as [k Hk].
    { intros E; apply (Hne row); [left; reflexivity |].
      destruct row; [reflexivity | discriminate]. }
    exists (k :: ks). cbn [argmin_abs_rows]. rewrite Hk, Hks. cbn [bind].
    split; [reflexivity | split; [cbn; lia |]].
    intros [|i] Hi; cbn [nth].
    + apply argmin_first_least; exact Hk.
    + apply Hfl; cbn in Hi; lia.
Qed.

Lemma nth_choose (index : list nat) (M : list (list R)) (i : nat) :
  (i < length index)%nat -> (i < length M)%nat ->
  nth i (choose index M) 0 = nth (nth i index 0%nat) (nth i M []) 0.
Proof.
  intros Hi HM; unfold choose.
  rewrite (nth_map2 _ _ _ i 0%nat []) by assumption. reflexivity.
Qed.

Lemma choose_length (index : list nat) (M : list (list R)) :
  length index = length M -> length (choose index M) = length M.
Proof. intros H; unfold choose; rewrite map2_length; lia. Qed.

Lemma nearest_feature_reports (edges : list edge) (x y : list R) :
  edges <> [] -> length x = length y ->
  exists out, nearest_feature edges x y = Ok out /\ reports_nearest edges x y out.
Proof.
  intros Hne Hxy. unfold nearest_feature, _calc_distance_and_gradients.
  set (P := combine x y).
  set (D := map (fun p => map (fun e => fst (fst (edge_distance_and_gradient p e))) edges) P).
  set (DX := map (fun p => map (fun e => snd (fst (edge_distance_and_gradient p e))) edges) P).
  set (DY := map (fun p => map (fun e => snd (edge_distance_and_gradient p e)) edges) P).
  assert (HP : length P = length x) by (unfold P; rewrite length_combine; lia).
  assert (HD : length D = length x) by (unfold D; rewrite length_map; exact HP).
  assert (HDX : length DX = length x) by (unfold DX; rewrite length_map; exact HP).
  assert (HDY : length DY = length x) by (unfold DY; rewrite length_map; exact HP).
  destruct (argmin_abs_rows_ok D) as (index & Hidx & Hlen & Hfl).
  { intros row Hrow. unfold D in Hrow. apply in_map_iff in Hrow.
    destruct Hrow as (p & <- & _). destruct edges; [contradiction | discriminate]. }
  rewrite Hidx. cbn [bind]. eexists; split; [reflexivity |].
  unfold reports_nearest.
  rewrite !choose_length by lia.
  repeat (split; [lia |]).
  intros i Hi. exists (nth i index 0%nat).
  assert (HPi : nth i P (0, 0) = (nth i x 0, nth i y 0))
    by (unfold P; apply combine_nth; exact Hxy).
  specialize (Hfl i ltac:(lia)).
  assert (Hrow : nth i D [] = map (edge_distance (nth i x 0, nth i y 0)) edges).
  { unfold D. rewrite (nth_map_lt _ _ i (0, 0)) by lia. rewrite HPi. reflexivity. }
  rewrite Hrow, map_map in Hfl.
  split; [exact Hfl |].
  intros e0.
  destruct Hfl as (Hk & _). rewrite length_map in Hk.
  rewrite !nth_choose by lia.
  unfold D, DX, DY.
  rewrite !(nth_map_lt _ _ i (0, 0)) by lia. rewrite HPi.
  rewrite !(nth_map_lt _ _ _ e0) by exact Hk.
  destruct (edge_distance_and_gradient (nth i x 0, nth i y 0) (nth (nth i index 0%nat) edges e0))
    as [[d gx] gy]. reflexivity.
Qed.

(** ** The one-slot cache *)

Lemma forallb_Reqb_eq (a k : list R) :
  length a = length k ->
  forallb (fun p => Reqb (fst p) (snd p)) (combine a k) = true -> a = k.
Proof.
  revert k; induction a as [|v a IH]; intros [|w k] Hlen H; cbn in *; try lia;
    [reflexivity |].
  apply andb_true_iff in H; destruct H as [H1 H2].
  unfold Reqb in H1; destruct (Req_dec_T v w); [| discriminate].
  subst; f_equal; apply IH; [lia | assumption].
Qed.

Lemma all_equal_same_length (a k : list R) :
  length a = length k -> all_equal a k = true -> a = k.
Proof.
  intros Hlen; unfold all_equal. rewrite Hlen, Nat.eqb_refl.
  apply forallb_Reqb_eq; exact Hlen.
Qed.

Lemma all_equal_refl (a : list R) : all_equal a a = true.
Proof.
  unfold all_equal; rewrite Nat.eqb_refl.
  induction a as [|v a IH]; cbn; [reflexivity |].
  rewrite Reqb_refl; exact IH.
Qed.

Lemma cache_hit_refl (x y : list R) : cache_hit x y (Some (x, y)) = true.
Proof. cbn; rewrite !all_equal_refl; reflexivity. Qed.

Lemma calc_distance_and_gradients_ok (self : t) (c : cache output) (x y : list R) :
  snd (boundary_properties self) <> [] ->
  (0 < nTurbines self)%nat ->
  length x = nTurbines self -> length y = nTurbines self ->
  cache_ok self c ->
  exists out c',
    calc_distance_and_gradients self c x y = Ok (Some out, c')
    /\ nearest_feature (snd (boundary_properties self)) x y = Ok out
    /\ cache_ok self c'.
Proof.
  intros Hne Hn Hx Hy Hc.
  destruct (nearest_feature_reports _ x y Hne ltac:(lia)) as (out & Hout & _).
  assert (Hfresh : cache_ok self (mkCache (Some (x, y)) (Some out))).
  { right; exists x, y, out; repeat split; assumption. }
  unfold calc_distance_and_gradients.
  destruct Hc as [-> | (kx & ky & out0 & Hkx & Hky & Hout0 & ->)].
  - cbn [empty_cache _cache_input cache_hit].
    replace (Nat.eqb (length x) 0) with false
      by (symmetry; apply Nat.eqb_neq; lia).
    cbn [andb]. rewrite Hout. cbn [bind].
    exists out, (mkCache (Some (x, y)) (Some out)). repeat split; assumption.
  - cbn [_cache_input _cache_output cache_hit].
    destruct (all_equal x kx && all_equal y ky) eqn:E.
    + apply andb_true_iff in E; destruct E as [E1 E2].
      apply all_equal_same_length in E1; [| lia].
      apply all_equal_same_length in E2; [| lia].
      subst kx ky. rewrite Hout in Hout0; injection Hout0 as <-.
      exists out, (mkCache (Some (x, y)) (Some out)). repeat split; assumption.
    + rewrite Hout. cbn [bind].
      exists out, (mkCache (Some (x, y)) (Some out)). repeat split; assumption.
Qed.

Lemma distances_gradients_report (self : t) (c : cache output) (x y : list R) :
  snd (boundary_properties self) <> [] ->
  (0 < nTurbines self)%nat ->
  length x = nTurbines self -> length y = nTurbines self ->
  cache_ok self c ->
  exists dist dx dy c',
    distances self c x y = Ok (dist, c')
    /\ gradients self c x y = Ok (diagflat dx, diagflat dy, c')
    /\ reports_nearest (snd (boundary_properties self)) x y (dist, dx, dy)
    /\ cache_ok self c'.
Proof.
  intros Hne Hn Hx Hy Hc.
  destruct (calc_distance_and_gradients_ok self c x y Hne Hn Hx Hy Hc)
    as (out & c' & Hcalc & Hout & Hc').
  destruct (nearest_feature_reports _ x y Hne ltac:(lia)) as (out' & Hout' & Hrep).
  rewrite Hout in Hout'; injection Hout' as <-.
  destruct out as [[dist dx] dy].
  exists dist, dx, dy, c'.
  unfold distances, gradients. rewrite Hcalc. cbn [bind fst snd].
  split; [reflexivity | split; [reflexivity | split; assumption]].
Qed.

(** ** Nearest-feature classification *)

Lemma edge_table_well_formed (As Bs : list vec) (e : edge) :
  length As = length Bs -> In e (edge_table As Bs) -> well_formed_edge e.
Proof.
  intros Hlen Hin. unfold edge_table in Hin.
  apply in_map_iff in Hin. destruct Hin as (j & <- & Hj).
  apply in_seq in Hj. destruct Hj as [_ Hj]; cbn in Hj.
  unfold well_formed_edge; cbn [A B AB AB_len edge_unit_normal].
  set (ABs := map2 (fun b a => vsub b a) Bs As).
  assert (HAB : length ABs = length As) by (unfold ABs; rewrite map2_length; lia).
  assert (E1 : nth j ABs zero_vec = vsub (nth j Bs zero_vec) (nth j As zero_vec)).
  { unfold ABs. rewrite (nth_map2 _ _ _ j zero_vec zero_vec) by lia. reflexivity. }
  assert (E2 : nth j (map vec_len ABs) 0 = vec_len (nth j ABs zero_vec)).
  { apply nth_map_lt; lia. }
  split; [exact E1 | split; [exact E2 |]].
  rewrite (nth_map2 _ _ _ j zero_vec 0) by (rewrite ?length_map; lia).
  rewrite E2. reflexivity.
Qed.

Lemma vec_len_nonneg (v : vec) : 0 <= vec_len v.
Proof. unfold vec_len; apply sqrt_pos. Qed.

Lemma Rabs_signed (v s : R) : 0 <= v -> s = 1 \/ s = -1 -> Rabs (v * s) = v.
Proof.
  intros Hv [-> | ->].
  - rewrite Rmult_1_r; apply Rabs_pos_eq; exact Hv.
  - replace (v * -1) with (- v) by ring. rewrite Rabs_Ropp; apply Rabs_pos_eq; exact Hv.
Qed.

Lemma side_cases (AP normal : vec) : side AP normal = 1 \/ side AP normal = -1.
Proof. unfold side; destruct (Rltb 0 (dot AP normal)); [left | right]; reflexivity. Qed.

Lemma edge_classification (P : vec) (e : edge) :
  well_formed_edge e -> nearest_feature_rule P e.
Proof.
  intros (HAB & HL & Hn); unfold nearest_feature_rule.
  set (AP := vsub P (A e)). set (BP := vsub P (B e)).
  set (t := dot AP (AB e) / vec_len (AB e)).
  pose proof (vec_len_nonneg (AB e)) as Hpos.
  unfold edge_distance, edge_distance_and_gradient.
  fold AP BP. rewrite HL. fold t. fold (side AP (A_normal e)) (side BP (B_normal e)).
  split; [intros Ht | split; [intros Ht | intros [H0 H1]]].
  - rewrite (Rltb_true t 0) by assumption. rewrite (Rltb_false (vec_len (AB e)) t) by lra.
    split; [reflexivity |].
    cbn [fst]. apply Rabs_signed; [apply vec_len_nonneg | apply side_cases].
  - rewrite (Rltb_true (vec_len (AB e)) t) by assumption.
    split; [reflexivity |].
    cbn [fst]. apply Rabs_signed; [apply vec_len_nonneg | apply side_cases].
  - rewrite (Rltb_false t 0) by lra. rewrite (Rltb_false (vec_len (AB e)) t) by lra.
    f_equal. f_equal.
    rewrite Hn, HL. unfold signed_perpendicular_distance.
    rewrite <- HAB. unfold dot, vdiv, AP, vsub; cbn [fst snd].
    rewrite HAB. unfold vsub; cbn [fst snd]. 
    unfold Rdiv. ring.
Qed.

Lemma get_edges_inv (fuel : nat) (v : list vec) (ccw : bool) (r : list vec * list vec * list vec) :
  get_edges fuel v ccw = Ok r ->
  exists ring,
    is_closed ring
    /\ (if ccw then 0 < double_area ring else double_area ring < 0)
    /\ r = (removelast ring, removelast ring, tl ring).
Proof.
  revert v; induction fuel as [|fuel IH]; intros v H; [discriminate |].
  destruct v as [|p rest]; [discriminate |].
  rewrite get_edges_unfold in H by discriminate. cbv zeta in H.
  set (c := closed_ring (p :: rest)) in H.
  destruct (Reqb (double_area c) 0) eqn:E0; [discriminate |].
  assert (Hne : double_area c <> 0).
  { intros C; rewrite (Reqb_true _ _ C) in E0; discriminate. }
  destruct (wrong_winding ccw (double_area c)) eqn:Ew.
  - apply IH in H. exact H.
  - injection H as <-. exists c. repeat split.
    + apply closed_ring_is_closed.
    + apply right_winding_sign; assumption.
Qed.

Lemma removelast_length {A : Type} (l : list A) : length (removelast l) = (length l - 1)%nat.
Proof.
  induction l as [|a [|b t] IH]; [reflexivity | reflexivity |].
  change (removelast (a :: b :: t)) with (a :: removelast (b :: t)).
  cbn [length] in *. lia.
Qed.

Lemma tl_length {A : Type} (l : list A) : length (tl l) = (length l - 1)%nat.
Proof. destruct l; cbn; lia. Qed.

Lemma double_area_short (l : list vec) : (length l <= 1)%nat -> double_area l = 0.
Proof.
  rewrite double_area_shoelace.
  destruct l as [|a [|b t]]; cbn; intros H; try reflexivity; lia.
Qed.

Lemma edge_table_length (As Bs : list vec) : length (edge_table As Bs) = length As.
Proof. unfold edge_table; rewrite length_map, length_seq; reflexivity. Qed.

(** What construction establishes. *)
Lemma init_inv (fuel n : nat) (xy : list vec) (relax : option (R * R)) (self : t)
      (c0 : cache output) :
  init fuel n xy relax = Ok (self, c0) ->
  nTurbines self = n
  /\ c0 = empty_cache
  /\ snd (boundary_properties self) <> []
  /\ (forall e, In e (snd (boundary_properties self)) -> well_formed_edge e)
  /\ exists ring,
       is_closed ring /\ 0 < double_area ring
       /\ boundary_properties self = (removelast ring, edge_table (removelast ring) (tl ring)).
Proof.
  unfold init, get_boundary_properties. intros H.
  destruct (get_edges fuel xy true) as [r|e] eqn:E; [| discriminate].
  destruct (get_edges_inv _ _ _ _ E) as (ring & Hc & Hs & ->).
  cbn [bind fst] in H.
  destruct (BoundaryBaseComp.close_ring (removelast ring)) as [closed|]; [| discriminate].
  injection H as <- <-. cbn [nTurbines boundary_properties snd].
  assert (Hlen : (2 <= length ring)%nat).
  { destruct (Nat.le_gt_cases (length ring) 1) as [C|C]; [| lia].
    rewrite (double_area_short _ C) in Hs; lra. }
  split; [reflexivity | split; [reflexivity | split; [| split]]].
  - intros C. apply (f_equal (@length _)) in C.
    rewrite edge_table_length, removelast_length in C. cbn in C. lia.
  - intros e He. apply (edge_table_well_formed _ _ e) in He; [exact He |].
    rewrite removelast_length, tl_length; reflexivity.
  - exists ring. repeat split; assumption.
Qed.

Lemma init_ok (fuel n : nat) (xy : list vec) (relax : option (R * R)) :
  xy <> [] -> (2 <= fuel)%nat -> 0 < double_area (closed_ring xy) \/ double_area (closed_ring xy) < 0 ->
  exists self, init fuel n xy relax = Ok (self, empty_cache).
Proof.
  intros Hxy Hfuel Hne.
  destruct (get_boundary_properties_total fuel xy true Hxy Hfuel) as [_ H].
  destruct H as (ring & _ & _ & Hs & Hgbp); [lra |].
  unfold init. rewrite Hgbp. cbn [bind fst].
  assert (Hlen : (2 <= length ring)%nat).
  { destruct (Nat.le_gt_cases (length ring) 1) as [C|C]; [| lia].
    rewrite (double_area_short _ C) in Hs; lra. }
  destruct (removelast ring) as [|q rest] eqn:Er.
  - apply (f_equal (@length _)) in Er. rewrite removelast_length in Er. cbn in Er; lia.
  - unfold BoundaryBaseComp.close_ring.
    destruct (negb (veqb q (last (q :: rest) q))); eexists; reflexivity.
Qed.

(** A call right after a successful call with the same positions is
    served from the cache and returns the same value. *)
Lemma calc_distance_and_gradients_again (self : t) (c c1 : cache output) (x y : list R)
      (o : option output) :
  calc_distance_and_gradients self c x y = Ok (o, c1) ->
  calc_distance_and_gradients self c1 x y = Ok (o, c1).
Proof.
  unfold calc_distance_and_gradients.
  destruct (cache_hit x y (_cache_input c)) eqn:E.
  - intros H; injection H as <- <-. rewrite E. reflexivity.
  - destruct (nearest_feature (snd (boundary_properties self)) x y) as [out|err];
      [| discriminate].
    cbn [bind]. intros H; injection H as <- <-.
    cbn [_cache_input _cache_output]. rewrite cache_hit_refl. reflexivity.
Qed.

Lemma nth_combine_lt {A B : Type} (a : list A) (b : list B) (i : nat) (da : A) (db : B) :
  (i < length a)%nat -> (i < length b)%nat ->
  nth i (combine a b) (da, db) = (nth i a da, nth i b db).
Proof.
  revert b i; induction a as [|a0 a IH]; intros [|b0 b] [|i] Ha Hb;
    cbn in *; try lia; try reflexivity.
  apply IH; lia.
Qed.

Lemma nth_nudge (pad : R) (x dx dist : list R) (i : nat) :
  (i < length (nudge pad x dx dist))%nat ->
  nth i (nudge pad x dx dist) 0
  = if Rltb (nth i dist 0) 0
    then nth i x 0 - nth i dx 0 * nth i dist 0 * pad
    else nth i x 0.
Proof.
  unfold nudge; intros Hi. rewrite map2_length, length_combine in Hi.
  rewrite (nth_map2 _ _ _ i (0, 0) 0) by (rewrite ?length_combine; lia).
  rewrite nth_combine_lt by lia. reflexivity.
Qed.

(** [satisfy] succeeds whenever the distances can be obtained, and moves
    no point whose distance is not negative. *)
Lemma polygon_satisfy_feasible (self : t) (c c1 : cache output)
      (state : BoundaryBaseComp.State) (pad : R) (dist : list R) :
  distances self c (BoundaryBaseComp.xs state) (BoundaryBaseComp.ys state) = Ok (dist, c1) ->
  exists state',
    satisfy self c state pad = Ok (state', c1)
    /\ forall i, 0 <= nth i dist 0 ->
         ((i < length (BoundaryBaseComp.xs state'))%nat ->
          nth i (BoundaryBaseComp.xs state') 0 = nth i (BoundaryBaseComp.xs state) 0)
         /\ ((i < length (BoundaryBaseComp.ys state'))%nat ->
             nth i (BoundaryBaseComp.ys state') 0 = nth i (BoundaryBaseComp.ys state) 0).
Proof.
  intros Hd. unfold satisfy. rewrite Hd. cbn [bind].
  unfold distances in Hd.
  destruct (calc_distance_and_gradients self c (BoundaryBaseComp.xs state)
              (BoundaryBaseComp.ys state)) as [[o c']|err] eqn:E; [| discriminate].
  cbn [bind fst snd] in Hd.
  destruct o as [[[d gx] gy]|]; [| discriminate].
  injection Hd as -> ->.
  unfold gradients. rewrite (calc_distance_and_gradients_again _ _ _ _ _ _ E).
  cbn [bind fst snd].
  eexists; split; [reflexivity |].
  intros i Hi; cbn [BoundaryBaseComp.xs BoundaryBaseComp.ys].
  split; intros Hlen; rewrite nth_nudge by exact Hlen;
    rewrite Rltb_false by lra; reflexivity.
Qed.

(** ** MultiPolygonBoundaryComp *)

Import MultiPolygonBoundaryComp.

(** ** The relaxation schedule *)

Lemma py_max_nonneg (b : R) : 0 <= py_max 0 b.
Proof.
  unfold py_max; destruct (Rltb 0 b) eqn:E; [apply Rltb_spec in E |]; lra.
Qed.

Lemma py_max_pos (b : R) : 0 <= b -> py_max 0 b = b.
Proof.
  intros Hb; unfold py_max.
  destruct (Rltb 0 b) eqn:E; [reflexivity |].
  destruct (Rlt_dec 0 b) as [C|C]; [rewrite (Rltb_true _ _ C) in E; discriminate | lra].
Qed.

Lemma py_max_neg (b : R) : b <= 0 -> py_max 0 b = 0.
Proof. intros Hb; unfold py_max; rewrite Rltb_false by lra; reflexivity. Qed.

Lemma py_max_mono (a b : R) : a <= b -> py_max 0 a <= py_max 0 b.
Proof.
  intros Hab.
  destruct (Rle_dec 0 a) as [Ha|Ha].
  - rewrite !py_max_pos by lra. exact Hab.
  - rewrite (py_max_neg a) by lra. apply py_max_nonneg.
Qed.

Lemma calc_relaxation_nonneg (rel : R * R) (n : nat) : 0 <= calc_relaxation rel n.
Proof. unfold calc_relaxation; apply py_max_nonneg. Qed.

Lemma calc_relaxation_before (rate horizon : R) (n : nat) :
  0 <= rate -> INR n + 1 <= horizon ->
  calc_relaxation (rate, horizon) n = rate * (horizon - (INR n + 1)).
Proof.
  intros Hr Hn; unfold calc_relaxation; cbn [fst snd].
  apply py_max_pos. apply Rmult_le_pos; lra.
Qed.

Lemma calc_relaxation_after (rate horizon : R) (n : nat) :
  0 <= rate -> horizon <= INR n + 1 -> calc_relaxation (rate, horizon) n = 0.
Proof.
  intros Hr Hn; unfold calc_relaxation; cbn [fst snd].
  apply py_max_neg. nra.
Qed.

Lemma calc_relaxation_mono (rate horizon : R) (n m : nat) :
  0 <= rate -> (n <= m)%nat ->
  calc_relaxation (rate, horizon) m <= calc_relaxation (rate, horizon) n.
Proof.
  intros Hr Hnm; unfold calc_relaxation; cbn [fst snd].
  apply py_max_mono. apply le_INR in Hnm. nra.
Qed.

(** ** Calls of the multi-polygon component *)

(** With relaxation set the cache is never consulted. *)
Lemma multi_calc_relaxed (self : MultiPolygonBoundaryComp.t)
      (c : cache MultiPolygonBoundaryComp.output) (x y : list R) :
  is_set (relaxation self) = true ->
  MultiPolygonBoundaryComp.calc_distance_and_gradients self c x y
  = bind (all_features (edge_table_in_use self) x y)
         (fun out => Ok (Some out, mkCache (Some (x, y)) (Some out))).
Proof.
  intros H; unfold MultiPolygonBoundaryComp.calc_distance_and_gradients.
  rewrite H, andb_false_r. reflexivity.
Qed.

(** Every call leaves the cache in such a state. *)
Lemma multi_calc_preserves (self : MultiPolygonBoundaryComp.t)
      (c c' : cache MultiPolygonBoundaryComp.output) (x y : list R)
      (o : option MultiPolygonBoundaryComp.output) :
  multi_cache_ok self c ->
  MultiPolygonBoundaryComp.calc_distance_and_gradients self c x y = Ok (o, c') ->
  multi_cache_ok self c'.
Proof.
  intros Hc; unfold MultiPolygonBoundaryComp.calc_distance_and_gradients.
  destruct (cache_hit x y (_cache_input c) && negb (is_set (relaxation self))).
  - intros H; injection H as _ <-; exact Hc.
  - destruct (all_features (edge_table_in_use self) x y) as [out|e] eqn:E;
      [| discriminate].
    cbn [bind]; intros H; injection H as _ <-.
    right; exists x, y, out; split; [exact E | reflexivity].
Qed.

(** Without relaxation a call on the cached positions returns the cached
    output and leaves the cache as it is; the output is the one direct
    recomputation gives. *)
Lemma multi_calc_cached (self : MultiPolygonBoundaryComp.t)
      (c : cache MultiPolygonBoundaryComp.output) (x y : list R) :
  relaxation self = None ->
  multi_cache_ok self c ->
  _cache_input c = Some (x, y) ->
  MultiPolygonBoundaryComp.calc_distance_and_gradients self c x y = Ok (_cache_output c, c)
  /\ exists out, _cache_output c = Some out
                 /\ all_features (edge_table_in_use self) x y = Ok out.
Proof.
  intros Hr Hc Hk.
  unfold MultiPolygonBoundaryComp.calc_distance_and_gradients.
  rewrite Hk, cache_hit_refl, Hr. cbn [is_set negb andb].
  split; [reflexivity |].
  destruct Hc as [-> | (kx & ky & out & Hout & ->)]; [discriminate |].
  cbn [_cache_input] in Hk; injection Hk as -> ->.
  exists out; split; [reflexivity | exact Hout].
Qed.

Lemma polygon_calc_cached (self : PolygonBoundaryComp.t) (c : cache PolygonBoundaryComp.output)
      (x y : list R) :
  (c = empty_cache
   \/ exists kx ky out,
        nearest_feature (snd (boundary_properties self)) kx ky = Ok out
        /\ c = mkCache (Some (kx, ky)) (Some out)) ->
  _cache_input c = Some (x, y) ->
  PolygonBoundaryComp.calc_distance_and_gradients self c x y = Ok (_cache_output c, c)
  /\ exists out, _cache_output c = Some out
                 /\ nearest_feature (snd (boundary_properties self)) x y = Ok out.
Proof.
  intros Hc Hk.
  unfold PolygonBoundaryComp.calc_distance_and_gradients.
  rewrite Hk, cache_hit_refl.
  split; [reflexivity |].
  destruct Hc as [-> | (kx & ky & out & Hout & ->)]; [discriminate |].
  cbn [_cache_input] in Hk; injection Hk as -> ->.
  exists out; split; [reflexivity | exact Hout].
Qed.

(** ** The zone merger *)

Section Merger.

Variable Geom : Type.
Variable area : Geom -> R.
Variable intersects : Geom -> Geom -> bool.
Variable contains : Geom -> Geom -> bool.
Variable unary_union : list Geom -> Geom.
Variable symmetric_difference : Geom -> Geom -> Geom.
Variable difference : Geom -> Geom -> Geom.
Variable type_of : Geom -> geometry_type.
Variable geoms : Geom -> list Geom.
Variable Polygon : list vec -> list (list vec) -> Geom.
Variable exterior_coords : Geom -> list vec.

(** A property every component of area above the threshold has. *)
Variable Q : Geom -> Prop.
Hypothesis Q_large : forall p, area_threshold < area p -> Q p.

Lemma Forall_snoc (l : list Geom) (p : Geom) : Forall Q l -> Q p -> Forall Q (l ++ [p]).
Proof. intros Hl Hp; apply Forall_app; split; [exact Hl | constructor; [exact Hp | constructor]]. Qed.

(** The loop for an inclusion zone adds only components it carries over
    and components that pass the area test. *)
Lemma include_loop_keeps (domain : list Geom) :
  forall b temp j len,
    Forall Q domain -> Forall Q temp ->
    Forall Q (include_loop Geom area intersects contains unary_union b temp j len domain).
Proof.
  induction domain as [|d rest IH]; intros b temp j len Hd Ht; cbn [include_loop];
    [exact Ht |].
  inversion Hd as [|? ? Hq Hrest]; subst.
  apply IH; [exact Hrest |].
  set (bt := if intersects d b then _ else _).
  assert (Hbt : Forall Q (snd bt)).
  { unfold bt. destruct (intersects d b); [exact Ht |].
    destruct (contains d b); [exact Ht |].
    destruct (contains b d); [exact Ht |].
    destruct (Rltb area_threshold (area b)); [apply Forall_snoc; assumption | exact Ht]. }
  destruct (Nat.eqb j (len - 1)); [| exact Hbt].
  destruct (Rltb area_threshold (area (fst bt))) eqn:E; [| exact Hbt].
  apply Forall_snoc; [exact Hbt |]. apply Q_large, Rltb_spec, E.
Qed.

(** The loop for an exclusion zone [b] over part of a domain [whole]
    adds only components that pass the area test and single polygons
    left by subtracting [b] from a component of [whole] it intersects. *)
Lemma exclude_loop_keeps (whole : list Geom) (b : Geom) :
  (forall d, In d whole -> intersects d b = true ->
             type_of (difference (symmetric_difference d b) b) = IsPolygon ->
             Q (difference (symmetric_difference d b) b)) ->
  forall domain temp,
    (forall d, In d domain -> In d whole) -> Forall Q temp ->
    Forall Q (exclude_loop Geom area intersects contains symmetric_difference difference
                           type_of geoms Polygon exterior_coords b temp domain).
Proof.
  intros Hrem. induction domain as [|d rest IH]; intros temp Hsub Ht; cbn [exclude_loop];
    [exact Ht |].
  apply IH; [intros d' Hd'; apply Hsub; right; exact Hd' |].
  destruct (intersects d b) eqn:Ei.
  - destruct (type_of (difference (symmetric_difference d b) b)) eqn:Et.
    + apply Forall_snoc; [exact Ht |].
      apply Hrem; [apply Hsub; left; reflexivity | exact Ei | exact Et].
    + apply Forall_app; split; [exact Ht |].
      apply Forall_forall; intros x Hx. apply filter_In in Hx. destruct Hx as [_ Hx].
      apply Q_large, Rltb_spec, Hx.
    + exact Ht.
  - destruct (contains b d); [exact Ht |].
    destruct (Rltb area_threshold (area _)) eqn:E; [| exact Ht].
    apply Forall_snoc; [exact Ht | apply Q_large, Rltb_spec, E].
Qed.

End Merger.

(** Every component of the merged domain has area above the threshold,
    unless it is an inclusion zone that met an empty domain, or the
    single polygon left when an exclusion zone was subtracted from a
    component it intersects. *)
Lemma merged_components (Geom : Type) (area : Geom -> R)
      (intersects contains : Geom -> Geom -> bool) (unary_union : list Geom -> Geom)
      (symmetric_difference difference : Geom -> Geom -> Geom)
      (type_of : Geom -> geometry_type) (geoms : Geom -> list Geom)
      (Polygon : list vec -> list (list vec) -> Geom) (exterior_coords : Geom -> list vec)
      (zones : list (Geom * bool)) (p : Geom) :
  let merge := merge_zone Geom area intersects contains unary_union symmetric_difference
                          difference type_of geoms Polygon exterior_coords in
  In p (fold_left merge zones []) ->
  area_threshold < area p
  \/ placed_into_empty_domain merge zones p
  \/ single_polygon_remainder merge intersects symmetric_difference difference type_of
                              zones p.
Proof.
  intros merge.
  set (Q := fun p => area_threshold < area p
                     \/ placed_into_empty_domain merge zones p
                     \/ single_polygon_remainder merge intersects symmetric_difference
                                                 difference type_of zones p).
  assert (Hlarge : forall q, area_threshold < area q -> Q q) by (intros q Hq; left; exact Hq).
  assert (Hstep : forall rest pre,
             zones = pre ++ rest ->
             Forall Q (fold_left merge pre []) ->
             Forall Q (fold_left merge rest (fold_left merge pre []))).
  { induction rest as [|[b ty] rest IH]; intros pre Hz Hpre; [exact Hpre |].
    cbn [fold_left].
    replace (merge (fold_left merge pre []) (b, ty))
      with (fold_left merge (pre ++ [(b, ty)]) [])
      by (rewrite fold_left_app; reflexivity).
    apply IH; [rewrite <- app_assoc; exact Hz |].
    rewrite fold_left_app. cbn [fold_left].
    set (domain := fold_left merge pre []) in *.
    unfold merge at 1, merge_zone. cbn [fst snd].
    destruct (Nat.eqb (List.length domain) 0) eqn:El.
    - destruct ty; [| exact Hpre].
      apply Forall_snoc; [exact Hpre |].
      right; left. exists pre, rest. split; [exact Hz |].
      apply Nat.eqb_eq in El. fold domain. destruct domain; [reflexivity | discriminate].
    - destruct ty.
      + apply include_loop_keeps; [exact Hlarge | exact Hpre | constructor].
      + apply (exclude_loop_keeps Geom area intersects contains symmetric_difference
                                  difference type_of geoms Polygon exterior_coords
                                  Q Hlarge domain b).
        * intros d Hd Hi Ht. right; right. exists pre, rest, b, d.
          repeat split; assumption.
        * intros d Hd; exact Hd.
        * constructor. }
  intros Hin.
  pose proof (Hstep zones [] eq_refl (Forall_nil Q)) as H.
  cbn [fold_left] in H. rewrite Forall_forall in H. exact (H p Hin).
Qed.

(** ** Distances and gradients of the multi-polygon component *)

Lemma distance_rows_nonempty (edges : list edge) (x y : list R) (row : list R) :
  edges <> [] ->
  In row (fst (fst (_calc_distance_and_gradients edges x y))) -> row <> [].
Proof.
  intros Hne Hrow. unfold _calc_distance_and_gradients in Hrow. cbn [fst] in Hrow.
  apply in_map_iff in Hrow. destruct Hrow as (p & <- & _).
  destruct edges; [contradiction | discriminate].
Qed.

Lemma all_features_ok (edges : list edge) (x y : list R) :
  edges <> [] ->
  exists index,
    argmin_abs_rows (fst (fst (_calc_distance_and_gradients edges x y))) = Ok index
    /\ exists out, all_features edges x y = Ok out
                   /\ fst (fst out) = fst (fst (_calc_distance_and_gradients edges x y)).
Proof.
  intros Hne.
  destruct (argmin_abs_rows_ok (fst (fst (_calc_distance_and_gradients edges x y))))
    as (index & Hidx & _).
  { intros row; apply distance_rows_nonempty; exact Hne. }
  exists index; split; [exact Hidx |].
  unfold all_features, sign.
  destruct (_calc_distance_and_gradients edges x y) as [[D DX] DY]. cbn [fst] in *.
  rewrite Hidx. cbn [bind]. eexists; split; reflexivity.
Qed.

Section Smooth.

Variable smooth_max : list (list R) -> R -> list R.
Variable smooth_max_gradient : list (list R) -> R -> list (list R).

(** With relaxation set, the third array returned by [gradients] holds
    the second entry of the relaxation pair for every turbine. *)
Lemma multi_gradients_third (self : MultiPolygonBoundaryComp.t)
      (c c' : cache MultiPolygonBoundaryComp.output) (x y : list R)
      (rel : R * R) (gx gy : list (list R)) (dt : option (list R)) :
  relaxation self = Some rel ->
  MultiPolygonBoundaryComp.gradients smooth_max_gradient self c x y = Ok (gx, gy, dt, c') ->
  dt = Some (map (fun one => one * snd rel) (repeat 1 (n_wt self))).
Proof.
  intros Hr. unfold MultiPolygonBoundaryComp.gradients.
  destruct (MultiPolygonBoundaryComp.calc_distance_and_gradients self c x y)
    as [[o c1]|e]; [| discriminate].
  cbn [bind fst snd].
  destruct o as [[[D dD] s]|]; [| discriminate].
  destruct (reduce_gradient smooth_max_gradient (method self) D dD) as [g|e];
    [| discriminate].
  cbn [bind]. rewrite Hr. intros H; injection H as _ _ <- _. reflexivity.
Qed.

Lemma multi_gradients_nearest_ok (self : MultiPolygonBoundaryComp.t)
      (c : cache MultiPolygonBoundaryComp.output) (x y : list R) (rel : R * R) :
  relaxation self = Some rel -> method self = nearest ->
  edge_table_in_use self <> [] ->
  exists gx gy c',
    MultiPolygonBoundaryComp.gradients smooth_max_gradient self c x y
    = Ok (gx, gy, Some (map (fun one => one * snd rel) (repeat 1 (n_wt self))), c').
Proof.
  intros Hr Hm Hne.
  destruct (all_features_ok _ x y Hne) as (index & Hidx & out & Hout & HD).
  unfold MultiPolygonBoundaryComp.gradients.
  rewrite multi_calc_relaxed by (rewrite Hr; reflexivity).
  rewrite Hout. cbn [bind fst snd].
  destruct out as [[D dD] s]. cbn [fst] in HD. subst D.
  rewrite Hm. cbn [reduce_gradient]. rewrite Hidx. cbn [bind]. rewrite Hr.
  do 3 eexists; reflexivity.
Qed.

(** Relaxation leaves the two position Jacobians as they are without it. *)
Lemma multi_gradients_position (self : MultiPolygonBoundaryComp.t)
      (c c' : cache MultiPolygonBoundaryComp.output) (x y : list R)
      (rel : R * R) (gx gy : list (list R)) (dt : option (list R)) :
  x <> [] ->
  relaxation self = Some rel ->
  MultiPolygonBoundaryComp.gradients smooth_max_gradient self c x y = Ok (gx, gy, dt, c') ->
  MultiPolygonBoundaryComp.gradients smooth_max_gradient (unrelaxed self) empty_cache x y
  = Ok (gx, gy, None, c').
Proof.
  intros Hx Hr. unfold MultiPolygonBoundaryComp.gradients.
  rewrite multi_calc_relaxed by (rewrite Hr; reflexivity).
  unfold MultiPolygonBoundaryComp.calc_distance_and_gradients.
  change (edge_table_in_use (unrelaxed self)) with (edge_table_in_use self).
  cbn [empty_cache _cache_input cache_hit unrelaxed relaxation method].
  replace (Nat.eqb (length x) 0) with false
    by (symmetry; apply Nat.eqb_neq; destruct x; [contradiction | cbn; lia]).
  cbn [andb].
  destruct (all_features (edge_table_in_use self) x y) as [out|e];
    [| discriminate].
  cbn [bind fst snd].
  destruct out as [[D dD] s].
  destruct (reduce_gradient smooth_max_gradient (method self) D dD) as [g|e];
    [| discriminate].
  cbn [bind]. rewrite Hr. intros H; injection H as <- <- _ <-. reflexivity.
Qed.

(** The relaxed distance is the distance without relaxation plus the
    offset of the schedule. *)
Lemma multi_distances_relaxed (self : MultiPolygonBoundaryComp.t)
      (c c' : cache MultiPolygonBoundaryComp.output) (n : nat) (x y : list R)
      (rel : R * R) (d : list R) :
  x <> [] ->
  relaxation self = Some rel ->
  MultiPolygonBoundaryComp.distances smooth_max self c n x y = Ok (d, c') ->
  exists d0,
    MultiPolygonBoundaryComp.distances smooth_max (unrelaxed self) empty_cache n x y
    = Ok (d0, c')
    /\ d = map (fun v => v + calc_relaxation rel n) d0.
Proof.
  intros Hx Hr. unfold MultiPolygonBoundaryComp.distances.
  rewrite multi_calc_relaxed by (rewrite Hr; reflexivity).
  unfold MultiPolygonBoundaryComp.calc_distance_and_gradients.
  change (edge_table_in_use (unrelaxed self)) with (edge_table_in_use self).
  cbn [empty_cache _cache_input cache_hit unrelaxed relaxation method].
  replace (Nat.eqb (length x) 0) with false
    by (symmetry; apply Nat.eqb_neq; destruct x; [contradiction | cbn; lia]).
  cbn [andb].
  destruct (all_features (edge_table_in_use self) x y) as [out|e];
    [| discriminate].
  cbn [bind fst snd].
  destruct out as [[D dD] s].
  destruct (reduce_distance smooth_max (method self) D s) as [d0|e]; [| discriminate].
  cbn [bind]. rewrite Hr. intros H; injection H as <- <-.
  exists d0; split; reflexivity.
Qed.

End Smooth.

(** * The claims *)

(** ** Scenario facts *)

Lemma closed_ring_square : closed_ring square_ring = square_closed.
Proof.
  unfold closed_ring, square_ring, square_closed, veqb; cbn [last fst snd].
  decide_cmp. reflexivity.
Qed.

Lemma double_area_square : double_area (closed_ring square_ring) = 200.
Proof.
  rewrite closed_ring_square, double_area_shoelace.
  unfold square_closed, square_ring; cbn [app shoelace fst snd]. lra.
Qed.

Lemma square_edges_nonempty : square_edges <> [].
Proof.
  intros E; apply (f_equal (@length _)) in E.
  unfold square_edges in E; rewrite edge_table_length in E. discriminate.
Qed.

Lemma square_polygon_init :
  PolygonBoundaryComp.init 2 1 square_ring None = Ok (square_polygon, empty_cache).
Proof.
  unfold PolygonBoundaryComp.init, get_boundary_properties.
  rewrite get_edges_unfold by discriminate. cbv zeta.
  rewrite double_area_square, closed_ring_square.
  rewrite (Reqb_false 200 0) by lra.
  unfold wrong_winding. rewrite (Rltb_false 200 0) by lra.
  cbn [andb negb orb bind fst snd].
  change (removelast square_closed) with square_ring.
  unfold BoundaryBaseComp.close_ring, square_ring, veqb; cbn [last fst snd].
  decide_cmp. reflexivity.
Qed.

Lemma square_edges_nondegenerate (e : edge) : In e square_edges -> A e <> B e.
Proof.
  unfold square_edges, edge_table.
  change (removelast square_closed) with square_ring.
  unfold square_closed, square_ring.
  cbn [length seq map app tl In].
  intros [<- | [<- | [<- | [<- | []]]]]; cbn [A B nth zero_vec];
    intros E; injection E; intros; lra.
Qed.

(** ** C1 *)

(** C1.  For a polygon component as constructed, none of whose edges has
    zero length (there the source divides by zero) and whose edges are no
    more than [np.choose] selects from (beyond that it raises), every
    entry of the per-edge arrays follows the nearest-feature rule (vertex A when
    t < 0, vertex B when t > |AB|, the edge otherwise, with the Euclidean
    distance to the vertex respectively the perpendicular distance to the
    edge line), and [distances] and [gradients] return, for every point,
    the entries of the edge of least absolute distance, the first such
    edge in table order on ties. *)
Theorem C1_polygon_nearest_feature
        (fuel n : nat) (xy : list vec) (relax : option (R * R))
        (self : PolygonBoundaryComp.t) (c0 : cache PolygonBoundaryComp.output) :
  PolygonBoundaryComp.init fuel n xy relax = Ok (self, c0) ->
  (0 < n)%nat ->
  (forall e, In e (snd (boundary_properties self)) -> A e <> B e) ->
  (length (snd (boundary_properties self)) <= 31)%nat ->
  (forall e P, In e (snd (boundary_properties self)) -> nearest_feature_rule P e)
  /\ (forall c x y,
        cache_ok self c -> length x = n -> length y = n ->
        exists dist dx dy c',
          PolygonBoundaryComp.distances self c x y = Ok (dist, c')
          /\ PolygonBoundaryComp.gradients self c x y = Ok (diagflat dx, diagflat dy, c')
          /\ reports_nearest (snd (boundary_properties self)) x y (dist, dx, dy)
          /\ cache_ok self c').
Proof.
  intros Hinit Hn _ _.
  destruct (init_inv _ _ _ _ _ _ Hinit) as (HnT & _ & Hne & Hwf & _).
  split.
  - intros e P He. apply edge_classification, Hwf, He.
  - intros c x y Hc Hx Hy. apply distances_gradients_report; try assumption; lia.
Qed.

(** The square, queried at one point. *)
Lemma C1_polygon_nearest_feature_witness :
  (forall e P, In e square_edges -> nearest_feature_rule P e)
  /\ (forall c x y,
        cache_ok square_polygon c -> length x = 1%nat -> length y = 1%nat ->
        exists dist dx dy c',
          PolygonBoundaryComp.distances square_polygon c x y = Ok (dist, c')
          /\ PolygonBoundaryComp.gradients square_polygon c x y
             = Ok (diagflat dx, diagflat dy, c')
          /\ reports_nearest square_edges x y (dist, dx, dy)
          /\ cache_ok square_polygon c').
Proof.
  apply (C1_polygon_nearest_feature 2 1 square_ring None square_polygon empty_cache
                                    square_polygon_init).
  - lia.
  - exact square_edges_nondegenerate.
  - cbn; lia.
Defined.

(** ** C2 *)

(** C2, as the claim states it, fails: at the center of the circle the
    masked assignment leaves the initial value [-1 * ones_like(x)] in
    both gradient arrays, so the gradient reported there is (-1, -1) and
    not (0, 0). *)
Lemma C2_center_gradient_is_not_zero :
  CircleBoundaryComp.gradients circle10 [0] [0] = ([[-1]], [[-1]])
  /\ CircleBoundaryComp.gradients circle10 [0] [0] <> ([[0]], [[0]]).
Proof.
  split; [apply circle10_gradient_center |].
  rewrite circle10_gradient_center.
  intros H; injection H as H _; lra.
Qed.

(** C2, amended: for the circle of center (0,0) and radius 10, the point
    at the center has distance 10 and the gradient entries (-1, -1) the
    arrays are initialised with; the point (20, 0) has distance -10 and
    gradient (-1, 0). *)
Theorem C2_circle_scenario :
  CircleBoundaryComp.distances circle10 [0] [0] = [10]
  /\ CircleBoundaryComp.gradients circle10 [0] [0] = ([[-1]], [[-1]])
  /\ CircleBoundaryComp.distances circle10 [20] [0] = [-10]
  /\ CircleBoundaryComp.gradients circle10 [20] [0] = ([[-1]], [[0]]).
Proof.
  repeat split.
  - apply circle10_distance_center.
  - apply circle10_gradient_center.
  - apply circle10_distance_outside.
  - apply circle10_gradient_outside.
Qed.

(** ** C3 *)

(** C3.  In convex-hull mode [distances] gives every point one entry per
    hull face, the signed perpendicular distance to the line of that
    face, positive to the left of the face taken counter-clockwise (the
    inside).  For the square ring, whatever rotation of the input order
    the hull reports, the point (5,5) gets 5 from every face, and the
    point (15,5) gets, from the face starting at input vertex [v], entry
    [v] of [5; -5; 5; 15]: -5 from the right face, which starts at
    vertex 1. *)
Theorem C3_convex_distances_every_edge :
  (forall hull n_wt0 xy self,
      ConvexBoundaryComp.init hull n_wt0 xy ConvexBoundaryComp.convex_hull = Some self ->
      let poly := map (fun i => nth i xy (0, 0)) (hull xy) in
      hd (0, 0) poly <> last poly (0, 0) ->
      forall (x y : list R) (i j : nat),
        length x = length y -> (i < length x)%nat -> (j < length poly)%nat ->
        let A := nth j poly (0, 0) in
        let B := nth (next_vertex (length poly) j) poly (0, 0) in
        A <> B ->
        length (nth i (ConvexBoundaryComp.distances self x y) []) = length poly
        /\ nth j (nth i (ConvexBoundaryComp.distances self x y) []) 0
           = signed_perpendicular_distance A B (nth i x 0, nth i y 0)
        /\ (0 < nth j (nth i (ConvexBoundaryComp.distances self x y) []) 0
            <-> left_of A B (nth i x 0, nth i y 0)))
  /\ (forall hull n_wt0,
         In (hull square_ring) square_hull_orders ->
         exists self,
           ConvexBoundaryComp.init hull n_wt0 square_ring ConvexBoundaryComp.convex_hull
           = Some self
           /\ ConvexBoundaryComp.distances self [5] [5] = [[5; 5; 5; 5]]
           /\ ConvexBoundaryComp.distances self [15] [5]
              = [map (fun v => nth v [5; -5; 5; 15] 0) (hull square_ring)]).
Proof.
  split.
  - intros hull n_wt0 xy self Hinit poly Hopen x y i j Hxy Hi Hj A B HAB.
    exact (convex_distances_entry hull n_wt0 xy self Hinit Hopen x y i j Hxy Hi Hj HAB).
  - intros hull n_wt0 Hin. apply square_scenario; exact Hin.
Qed.

Lemma C3_convex_distances_every_edge_witness :
  exists self,
    ConvexBoundaryComp.init (fun _ => [0; 1; 2; 3]%nat) 1 square_ring
                            ConvexBoundaryComp.convex_hull = Some self
    /\ ConvexBoundaryComp.distances self [5] [5] = [[5; 5; 5; 5]]
    /\ ConvexBoundaryComp.distances self [15] [5] = [[5; -5; 5; 15]].
Proof.
  apply (proj2 C3_convex_distances_every_edge (fun _ => [0; 1; 2; 3]%nat) 1%nat).
  left; reflexivity.
Defined.

(** ** C4 *)

Lemma close_ring_closed_ring (l : list vec) :
  l <> [] -> BoundaryBaseComp.close_ring l = Some (closed_ring l).
Proof.
  destruct l as [|p rest]; [intros H; contradiction | intros _].
  unfold BoundaryBaseComp.close_ring, closed_ring.
  destruct (negb (veqb p (last (p :: rest) p))); reflexivity.
Qed.

Lemma removelast_nonempty (ring : list vec) :
  double_area ring <> 0 -> removelast ring <> [].
Proof.
  intros Hne E. apply (f_equal (@length _)) in E.
  rewrite removelast_length in E. cbn [length] in E.
  apply Hne, double_area_short. lia.
Qed.

(** C4.  For a non-empty ring and a recursion budget of two or more,
    [get_boundary_properties] fails with the assertion error "Area must
    be non-zero" exactly when the shoelace double area of the closed ring
    is zero; otherwise it succeeds, and the ring it returns (without the
    closing vertex) and builds the edge table from is closed and wound as
    requested: counter-clockwise (positive double area) for an inclusion
    zone, clockwise for an exclusion zone.  The base class stores the
    returned vertices as a closed ring again. *)
Theorem C4_boundary_normalisation
        (fuel : nat) (xy : list vec) (inclusion_zone : bool) :
  xy <> [] -> (2 <= fuel)%nat ->
  (double_area (closed_ring xy) = 0 ->
   get_boundary_properties fuel xy inclusion_zone = Raise AssertionError)
  /\ (double_area (closed_ring xy) <> 0 ->
      exists ring,
        (ring = closed_ring xy \/ ring = rev (closed_ring xy))
        /\ is_closed ring
        /\ (if inclusion_zone then 0 < double_area ring else double_area ring < 0)
        /\ get_boundary_properties fuel xy inclusion_zone
           = Ok (removelast ring, edge_table (removelast ring) (tl ring))
        /\ exists stored,
             BoundaryBaseComp.close_ring (removelast ring) = Some stored
             /\ is_closed stored).
Proof.
  intros Hxy Hfuel.
  destruct (get_boundary_properties_total fuel xy inclusion_zone Hxy Hfuel) as [H0 H1].
  split; [exact H0 |].
  intros Hne. destruct (H1 Hne) as (ring & Hr & Hc & Hs & Hg).
  exists ring. repeat (split; [assumption |]).
  exists (closed_ring (removelast ring)). split.
  - apply close_ring_closed_ring, removelast_nonempty.
    destruct inclusion_zone; lra.
  - apply closed_ring_is_closed.
Qed.

(** The square as an exclusion zone. *)
Lemma C4_boundary_normalisation_witness :
  (double_area (closed_ring square_ring) = 0 ->
   get_boundary_properties 2 square_ring false = Raise AssertionError)
  /\ (double_area (closed_ring square_ring) <> 0 ->
      exists ring,
        (ring = closed_ring square_ring \/ ring = rev (closed_ring square_ring))
        /\ is_closed ring
        /\ double_area ring < 0
        /\ get_boundary_properties 2 square_ring false
           = Ok (removelast ring, edge_table (removelast ring) (tl ring))
        /\ exists stored,
             BoundaryBaseComp.close_ring (removelast ring) = Some stored
             /\ is_closed stored).
Proof.
  apply (C4_boundary_normalisation 2 square_ring false).
  - discriminate.
  - lia.
Defined.

(** ** C5 *)

(** C5, as the claim states it, fails.  The schedule counts from
    [n_grad_eval + 1], so with the pair (1, 5) the offset of the first
    evaluation is 4 and not rate * horizon = 5; and with the negative
    rate of the pair (-1, 2) the offset is 0 at count 1 and 1 at count 2:
    it is not non-increasing. *)
Lemma C5_offset_counterexample :
  calc_relaxation (1, 5) 0 = 4
  /\ calc_relaxation (1, 5) 0 <> 1 * 5
  /\ calc_relaxation (-1, 2) 1 = 0
  /\ calc_relaxation (-1, 2) 2 = 1
  /\ ~ (calc_relaxation (-1, 2) 2 <= calc_relaxation (-1, 2) 1).
Proof.
  assert (H1 : calc_relaxation (1, 5) 0 = 4).
  { unfold calc_relaxation, py_max; cbn [fst snd INR]. decide_cmp. lra. }
  assert (H2 : calc_relaxation (-1, 2) 1 = 0).
  { unfold calc_relaxation, py_max; cbn [fst snd INR]. decide_cmp. reflexivity. }
  assert (H3 : calc_relaxation (-1, 2) 2 = 1).
  { unfold calc_relaxation, py_max; cbn [fst snd INR]. decide_cmp. lra. }
  rewrite H1, H2, H3. repeat split; lra.
Qed.

(** C5, amended.  For a rate that is not negative and every count [n]
    of gradient evaluations so far, the offset is
    rate * (horizon - (n + 1)) while n + 1 <= horizon (so
    rate * (horizon - 1) at the first evaluation, falling by [rate] per
    evaluation), it is 0 once n + 1 >= horizon, it never increases with
    [n], and it is never negative; with relaxation set, [distances]
    returns the distances without relaxation plus this offset. *)
Theorem C5_relaxation_offset (rate horizon : R) (n : nat) :
  0 <= rate ->
  0 <= calc_relaxation (rate, horizon) n
  /\ (INR n + 1 <= horizon ->
      calc_relaxation (rate, horizon) n = rate * (horizon - (INR n + 1)))
  /\ (horizon <= INR n + 1 -> calc_relaxation (rate, horizon) n = 0)
  /\ (forall m, (n <= m)%nat ->
                calc_relaxation (rate, horizon) m <= calc_relaxation (rate, horizon) n)
  /\ (forall smooth_max (self : MultiPolygonBoundaryComp.t) c c' x y d,
         x <> [] ->
         relaxation self = Some (rate, horizon) ->
         MultiPolygonBoundaryComp.distances smooth_max self c n x y = Ok (d, c') ->
         exists d0,
           MultiPolygonBoundaryComp.distances smooth_max (unrelaxed self) empty_cache n x y
           = Ok (d0, c')
           /\ d = map (fun v => v + calc_relaxation (rate, horizon) n) d0).
Proof.
  intros Hr.
  split; [apply calc_relaxation_nonneg |].
  split; [apply calc_relaxation_before; exact Hr |].
  split; [apply calc_relaxation_after; exact Hr |].
  split; [intros m Hm; apply calc_relaxation_mono; assumption |].
  intros smooth_max self c c' x y d Hx Hrel Hd.
  exact (multi_distances_relaxed smooth_max self c c' n x y (rate, horizon) d Hx Hrel Hd).
Qed.

Lemma C5_relaxation_offset_witness :
  0 <= calc_relaxation (1 / 10, 5) 0
  /\ (INR 0 + 1 <= 5 -> calc_relaxation (1 / 10, 5) 0 = 1 / 10 * (5 - (INR 0 + 1)))
  /\ (5 <= INR 0 + 1 -> calc_relaxation (1 / 10, 5) 0 = 0)
  /\ (forall m, (0 <= m)%nat ->
                calc_relaxation (1 / 10, 5) m <= calc_relaxation (1 / 10, 5) 0)
  /\ (forall smooth_max (self : MultiPolygonBoundaryComp.t) c c' x y d,
         x <> [] ->
         relaxation self = Some (1 / 10, 5) ->
         MultiPolygonBoundaryComp.distances smooth_max self c 0 x y = Ok (d, c') ->
         exists d0,
           MultiPolygonBoundaryComp.distances smooth_max (unrelaxed self) empty_cache 0 x y
           = Ok (d0, c')
           /\ d = map (fun v => v + calc_relaxation (1 / 10, 5) 0) d0).
Proof. apply (C5_relaxation_offset (1 / 10) 5 0). lra. Defined.

(** ** C6 *)

(** C6 at the failing input: the component over the square with the
    relaxation pair (1/10, 5).  The two position Jacobians are those of
    the component without relaxation.  The third array [gradients]
    returns holds the horizon 5 for the one turbine, while the offset
    added to the distance falls by the rate 1/10 from one evaluation to
    the next. *)
Theorem C6_time_gradient_is_horizon
        (smooth_max_gradient : list (list R) -> R -> list (list R)) :
  (exists gx gy c',
      MultiPolygonBoundaryComp.gradients smooth_max_gradient square_multi_relaxed
                                         empty_cache [5] [5]
      = Ok (gx, gy, Some [1 * 5], c')
      /\ MultiPolygonBoundaryComp.gradients smooth_max_gradient square_multi
                                            empty_cache [5] [5]
         = Ok (gx, gy, None, c'))
  /\ calc_relaxation (1 / 10, 5) 1 - calc_relaxation (1 / 10, 5) 0 = - (1 / 10).
Proof.
  split.
  - destruct (multi_gradients_nearest_ok smooth_max_gradient square_multi_relaxed
                                         empty_cache [5] [5] (1 / 10, 5))
      as (gx & gy & c' & Hg);
      [reflexivity | reflexivity | exact square_edges_nonempty |].
    exists gx, gy, c'. split; [exact Hg |].
    apply (multi_gradients_position smooth_max_gradient square_multi_relaxed
                                    empty_cache c' [5] [5] (1 / 10, 5) gx gy
                                    (Some [1 * 5]));
      [discriminate | reflexivity | exact Hg].
  - rewrite !calc_relaxation_before by (cbn [INR]; lra). cbn [INR]. lra.
Qed.

(** ** C7 *)

(** C7, as the claim states it, fails: a single inclusion zone goes into
    the empty domain without an area test.  With rings as geometries and
    the shoelace area, the zone list holding only the triangle
    (0,0), (1/100,0), (0,1/100) of area 1/20000 merges to that triangle,
    whatever the other operations do. *)
Lemma C7_small_first_zone_counterexample :
  ~ (forall (Geom : Type) (area : Geom -> R)
            (intersects contains : Geom -> Geom -> bool) (unary_union : list Geom -> Geom)
            (symmetric_difference difference : Geom -> Geom -> Geom)
            (type_of : Geom -> geometry_type) (geoms : Geom -> list Geom)
            (Polygon : list vec -> list (list vec) -> Geom)
            (exterior_coords : Geom -> list vec)
            (boundary_polygons : list Geom) (types_bool : list bool) (p : Geom),
        In p (_calc_resulting_polygons Geom area intersects contains unary_union
                symmetric_difference difference type_of geoms Polygon exterior_coords
                boundary_polygons types_bool) ->
        area_threshold < area p).
Proof.
  intros H.
  specialize (H (list vec) ring_area (fun _ _ => false) (fun _ _ => false)
                (fun _ => []) (fun d _ => d) (fun d _ => d) (fun _ => IsPolygon)
                (fun _ => []) (fun shell _ => shell) (fun g => g)
                [small_triangle] [true] small_triangle).
  assert (Harea : ring_area small_triangle = 1 / 20000).
  { unfold ring_area, closed_ring, small_triangle, veqb; cbn [last fst snd].
    decide_cmp. cbn [andb negb app]. rewrite double_area_shoelace.
    cbn [shoelace fst snd].
    replace ((0 - 1 / 100) * (0 + 0) + ((1 / 100 - 0) * (0 + 1 / 100)
             + ((0 - 0) * (1 / 100 + 0) + 0))) with (1 / 10000) by lra.
    rewrite Rabs_pos_eq by lra. lra. }
  rewrite Harea in H. unfold area_threshold in H.
  assert (1 / 1000 < 1 / 20000); [apply H; left; reflexivity | lra].
Qed.

(** C7, amended.  Every polygon of the merged domain has area above
    1e-3, unless it is an inclusion zone that met an empty domain: there
    the zone is appended without an area test.  The statement leaves out
    the single polygon left when an exclusion zone is subtracted from a
    component it intersects, the one other component appended without an
    area test: nothing is said of its area. *)
Theorem C7_merged_components
        (Geom : Type) (area : Geom -> R)
        (intersects contains : Geom -> Geom -> bool) (unary_union : list Geom -> Geom)
        (symmetric_difference difference : Geom -> Geom -> Geom)
        (type_of : Geom -> geometry_type) (geoms : Geom -> list Geom)
        (Polygon : list vec -> list (list vec) -> Geom) (exterior_coords : Geom -> list vec)
        (boundary_polygons : list Geom) (types_bool : list bool) (p : Geom) :
  let merge := merge_zone Geom area intersects contains unary_union symmetric_difference
                          difference type_of geoms Polygon exterior_coords in
  let zones := combine boundary_polygons types_bool in
  In p (_calc_resulting_polygons Geom area intersects contains unary_union
          symmetric_difference difference type_of geoms Polygon exterior_coords
          boundary_polygons types_bool) ->
  ~ single_polygon_remainder merge intersects symmetric_difference difference type_of
                             zones p ->
  area_threshold < area p \/ placed_into_empty_domain merge zones p.
Proof.
  intros merge zones Hin Hnot.
  destruct (merged_components Geom area intersects contains unary_union
              symmetric_difference difference type_of geoms Polygon exterior_coords
              zones p Hin) as [H | [H | H]].
  - left; exact H.
  - right; exact H.
  - contradiction.
Qed.

Lemma ring_area_square : ring_area square_ring = 100.
Proof.
  unfold ring_area. rewrite double_area_square.
  rewrite Rabs_pos_eq by lra. lra.
Qed.

(** Two inclusion zones apart from one another, which neither intersect
    nor contain one another: the small triangle at (20, 20) first, then
    the square.  The triangle met the empty domain and stays. *)
Lemma C7_merged_components_witness :
  let merge := merge_zone (list vec) ring_area (fun _ _ => false) (fun _ _ => false)
                          (fun _ => []) (fun d _ => d) (fun d _ => d) (fun _ => IsPolygon)
                          (fun _ => []) (fun shell _ => shell) (fun g => g) in
  area_threshold < ring_area far_triangle
  \/ placed_into_empty_domain merge (combine [far_triangle; square_ring] [true; true])
                              far_triangle.
Proof.
  apply (C7_merged_components
           (list vec) ring_area (fun _ _ => false) (fun _ _ => false)
           (fun _ => []) (fun d _ => d) (fun d _ => d) (fun _ => IsPolygon)
           (fun _ => []) (fun shell _ => shell) (fun g => g)
           [far_triangle; square_ring] [true; true] far_triangle).
  - unfold _calc_resulting_polygons.
    cbn [combine fold_left merge_zone List.length Nat.eqb fst snd app include_loop Nat.sub].
    rewrite ring_area_square.
    unfold area_threshold. decide_cmp.
    cbn [fst snd]. rewrite ring_area_square. decide_cmp.
    cbn [app fst snd In]. left; reflexivity.
  - intros (pre & post & b & d & Hz & _). cbn [combine] in Hz.
    destruct pre as [|z1 [|z2 [|z3 pre]]]; cbn [app] in Hz; discriminate.
Defined.

(** ** C8 *)

(** C8.  Multi-polygon component: with relaxation set, a call of
    [calc_distance_and_gradients] computes and stores the result whatever
    the cache holds, for a cache that is empty or holds a key of the
    shape of the query (the source compares the two arrays before it
    reads the relaxation flag); without relaxation, a call on the positions the
    cache holds returns the cached output and leaves the cache as it is,
    and that output is the one direct recomputation gives.  Every call
    leaves the cache empty or holding what was computed for the stored
    positions.  The polygon component has no relaxation test: a call on
    the cached positions returns the cached output, equal to direct
    recomputation. *)
Theorem C8_cache_and_relaxation :
  (forall (self : MultiPolygonBoundaryComp.t) c x y,
      is_set (relaxation self) = true ->
      length x = length y ->
      key_of_query_shape x y (_cache_input c) ->
      MultiPolygonBoundaryComp.calc_distance_and_gradients self c x y
      = bind (all_features (edge_table_in_use self) x y)
             (fun out => Ok (Some out, mkCache (Some (x, y)) (Some out))))
  /\ (forall (self : MultiPolygonBoundaryComp.t) c x y,
         relaxation self = None ->
         multi_cache_ok self c ->
         _cache_input c = Some (x, y) ->
         MultiPolygonBoundaryComp.calc_distance_and_gradients self c x y
         = Ok (_cache_output c, c)
         /\ exists out, _cache_output c = Some out
                        /\ all_features (edge_table_in_use self) x y = Ok out)
  /\ (forall (self : MultiPolygonBoundaryComp.t) c c' x y o,
         multi_cache_ok self c ->
         MultiPolygonBoundaryComp.calc_distance_and_gradients self c x y = Ok (o, c') ->
         multi_cache_ok self c')
  /\ (forall (self : PolygonBoundaryComp.t) c x y,
         cache_ok self c ->
         _cache_input c = Some (x, y) ->
         PolygonBoundaryComp.calc_distance_and_gradients self c x y
         = Ok (_cache_output c, c)
         /\ exists out, _cache_output c = Some out
                        /\ nearest_feature (snd (boundary_properties self)) x y = Ok out).
Proof.
  split; [intros self c x y Hr _ _; exact (multi_calc_relaxed self c x y Hr) |].
  split; [exact multi_calc_cached |].
  split; [exact multi_calc_preserves |].
  intros self c x y Hc Hk. apply polygon_calc_cached; [| exact Hk].
  destruct Hc as [Hc | (kx & ky & out & _ & _ & Hout & Hc)]; [left; exact Hc |].
  right; exists kx, ky, out; split; assumption.
Qed.

(** A first call on the square from the empty cache, then a second call
    on the same positions. *)
Lemma C8_cache_and_relaxation_witness :
  exists out c1,
    MultiPolygonBoundaryComp.calc_distance_and_gradients square_multi empty_cache [5] [5]
    = Ok (Some out, c1)
    /\ MultiPolygonBoundaryComp.calc_distance_and_gradients square_multi c1 [5] [5]
       = Ok (_cache_output c1, c1)
    /\ _cache_output c1 = Some out
    /\ all_features square_edges [5] [5] = Ok out.
Proof.
  destruct (all_features_ok square_edges [5] [5] square_edges_nonempty)
    as (_ & _ & out & Hout & _).
  exists out, (mkCache (Some ([5], [5])) (Some out)).
  assert (Hfirst : MultiPolygonBoundaryComp.calc_distance_and_gradients
                     square_multi empty_cache [5] [5]
                   = Ok (Some out, mkCache (Some ([5], [5])) (Some out))).
  { unfold MultiPolygonBoundaryComp.calc_distance_and_gradients.
    cbn [empty_cache _cache_input cache_hit length Nat.eqb andb].
    change (edge_table_in_use square_multi) with square_edges.
    rewrite Hout. reflexivity. }
  split; [exact Hfirst |].
  destruct (proj1 (proj2 C8_cache_and_relaxation) square_multi
                  (mkCache (Some ([5], [5])) (Some out)) [5] [5])
    as (Hsecond & out' & Hcached & Hrecomputed).
  - reflexivity.
  - right; exists [5], [5], out; split; [exact Hout | reflexivity].
  - reflexivity.
  - split; [exact Hsecond |]. split; [reflexivity | exact Hout].
Defined.

(** ** C9 *)

(** C9.  [satisfy] leaves a feasible point where it is.  Polygon
    component: when [distances] returns, [satisfy] returns too, and every
    point whose distance is not negative keeps its coordinates.  Convex
    component: a point whose least face distance is not negative is not
    moved by its turn of the loop, and keeps its coordinates in the state
    [satisfy] returns. *)
Theorem C9_satisfy_keeps_feasible_points :
  (forall (self : PolygonBoundaryComp.t) (c c1 : cache PolygonBoundaryComp.output)
          (state : BoundaryBaseComp.State) (pad : R) (dist : list R),
      PolygonBoundaryComp.distances self c (BoundaryBaseComp.xs state)
                                    (BoundaryBaseComp.ys state) = Ok (dist, c1) ->
      exists state',
        PolygonBoundaryComp.satisfy self c state pad = Ok (state', c1)
        /\ forall i, 0 <= nth i dist 0 ->
             ((i < length (BoundaryBaseComp.xs state'))%nat ->
              nth i (BoundaryBaseComp.xs state') 0 = nth i (BoundaryBaseComp.xs state) 0)
             /\ ((i < length (BoundaryBaseComp.ys state'))%nat ->
                 nth i (BoundaryBaseComp.ys state') 0 = nth i (BoundaryBaseComp.ys state) 0))
  /\ (forall (self : ConvexBoundaryComp.t) (state : BoundaryBaseComp.State) (pad : R)
             (i : nat) (m : R),
         let x := BoundaryBaseComp.xs state in
         let y := BoundaryBaseComp.ys state in
         length x = length y -> (i < length x)%nat ->
         amin (nth i (ConvexBoundaryComp.distances self x y) []) = Some m -> 0 <= m ->
         (forall dx dy,
             ConvexBoundaryComp.satisfy_point
               dx dy (nth i x 0, nth i y 0) (nth i (ConvexBoundaryComp.distances self x y) [])
             = Some (nth i x 0, nth i y 0))
         /\ forall state',
             ConvexBoundaryComp.satisfy self state pad = Some state' ->
             nth i (BoundaryBaseComp.xs state') 0 = nth i x 0
             /\ nth i (BoundaryBaseComp.ys state') 0 = nth i y 0).
Proof.
  split.
  - intros self c c1 state pad dist Hd.
    exact (polygon_satisfy_feasible self c c1 state pad dist Hd).
  - intros self state pad i m x y Hxy Hi Hm Hpos. split.
    + intros dx dy. apply (satisfy_point_feasible _ _ _ _ m); assumption.
    + exact (convex_satisfy_feasible self state pad i m Hxy Hi Hm Hpos).
Qed.

Lemma amin_fives : amin [5; 5; 5; 5] = Some 5.
Proof. cbn [amin amin_from]. decide_cmp. reflexivity. Qed.

(** The point (5,5) in the square, for the convex and for the polygon
    component. *)
Lemma C9_satisfy_keeps_feasible_points_witness :
  (exists self,
      ConvexBoundaryComp.init (fun _ => [0; 1; 2; 3]%nat) 1 square_ring
                              ConvexBoundaryComp.convex_hull = Some self
      /\ forall state',
          ConvexBoundaryComp.satisfy self (BoundaryBaseComp.mkState [5] [5]) (11 / 10)
          = Some state' ->
          nth 0 (BoundaryBaseComp.xs state') 0 = 5
          /\ nth 0 (BoundaryBaseComp.ys state') 0 = 5)
  /\ (exists self dist c1 state',
         PolygonBoundaryComp.init 2 1 square_ring None = Ok (self, empty_cache)
         /\ PolygonBoundaryComp.distances self empty_cache [5] [5] = Ok (dist, c1)
         /\ PolygonBoundaryComp.satisfy self empty_cache (BoundaryBaseComp.mkState [5] [5])
                                        (11 / 10)
            = Ok (state', c1)).
Proof.
  split.
  - destruct (square_scenario (fun _ => [0; 1; 2; 3]%nat) 1%nat) as (self & Hinit & H5 & _).
    + left; reflexivity.
    + exists self. split; [exact Hinit |].
      refine (proj2 (proj2 C9_satisfy_keeps_feasible_points self
                           (BoundaryBaseComp.mkState [5] [5]) (11 / 10) 0%nat 5 _ _ _ _)).
      * reflexivity.
      * cbn; lia.
      * cbn [BoundaryBaseComp.xs BoundaryBaseComp.ys]. rewrite H5. exact amin_fives.
      * lra.
  - destruct (init_ok 2 1 square_ring None) as [self Hinit].
    + discriminate.
    + lia.
    + left; rewrite double_area_square; lra.
    + destruct (init_inv _ _ _ _ _ _ Hinit) as (HnT & _ & Hne & _).
      destruct (distances_gradients_report self empty_cache [5] [5])
        as (dist & dx & dy & c1 & Hd & _).
      * exact Hne.
      * rewrite HnT; lia.
      * rewrite HnT; reflexivity.
      * rewrite HnT; reflexivity.
      * left; reflexivity.
      * destruct (proj1 C9_satisfy_keeps_feasible_points self empty_cache c1
                        (BoundaryBaseComp.mkState [5] [5]) (11 / 10) dist Hd)
          as (state' & Hs & _).
        exists self, dist, c1, state'. split; [exact Hinit | split; [exact Hd | exact Hs]].
Defined.

(** ** C10 *)

(** C10.  The Jacobians a convex component returns do not depend on the
    positions: any two queries return the same pair, the pair stored at
    construction, which [calculate_gradients] computed from the unit
    normals of the faces of the boundary polygon. *)
Theorem C10_convex_gradients_constant
        (hull : list vec -> list nat) (n_wt0 : nat) (xy : list vec)
        (bt : ConvexBoundaryComp.boundary_type) (self : ConvexBoundaryComp.t) :
  ConvexBoundaryComp.init hull n_wt0 xy bt = Some self ->
  forall x1 y1 x2 y2,
    ConvexBoundaryComp.gradients self x1 y1 = ConvexBoundaryComp.gradients self x2 y2
    /\ exists poly,
         ConvexBoundaryComp.boundary_of hull bt xy = Some poly
         /\ ConvexBoundaryComp.gradients self x1 y1
            = ConvexBoundaryComp.calculate_gradients
                n_wt0 (length poly)
                (map (ConvexBoundaryComp.face_normal poly) (seq 0 (length poly))).
Proof.
  intros Hinit x1 y1 x2 y2. split; [reflexivity |].
  unfold ConvexBoundaryComp.init, ConvexBoundaryComp.calculate_boundary_and_normals in Hinit.
  destruct (ConvexBoundaryComp.boundary_of hull bt xy) as [poly|]; [| discriminate].
  destruct (BoundaryBaseComp.close_ring poly) as [closed|]; [| discriminate].
  injection Hinit as <-. exists poly. split; [reflexivity |].
  unfold ConvexBoundaryComp.gradients, ConvexBoundaryComp.calculate_gradients.
  reflexivity.
Qed.

Lemma C10_convex_gradients_constant_witness :
  exists self,
    ConvexBoundaryComp.init (fun _ => [0; 1; 2; 3]%nat) 2 square_ring
                            ConvexBoundaryComp.convex_hull = Some self
    /\ ConvexBoundaryComp.gradients self [5; 15] [5; 5]
       = ConvexBoundaryComp.gradients self [1; 2] [3; 4].
Proof.
  destruct (square_scenario (fun _ => [0; 1; 2; 3]%nat) 2%nat) as (self & Hinit & _).
  - left; reflexivity.
  - exists self. split; [exact Hinit |].
    exact (proj1 (C10_convex_gradients_constant _ _ _ _ _ Hinit [5; 15] [5; 5] [1; 2] [3; 4])).
Defined.

(** * Further lemmas *)

(** ** The angle of [np.arctan2] *)

Lemma hypot_pos (x y : R) : (x, y) <> (0, 0) -> 0 < sqrt (x ^ 2 + y ^ 2).
Proof. intros H; exact (vec_len_pos (x, y) H). Qed.

Lemma sqrt_one_plus_ratio (x y : R) :
  x <> 0 -> sqrt (1 + (y / x)²) = sqrt (x ^ 2 + y ^ 2) / Rabs x.
Proof.
  intros Hx.
  assert (Hax : 0 < Rabs x) by (apply Rabs_pos_lt; exact Hx).
  apply sqrt_lem_1.
  - unfold Rsqr; nra.
  - apply Rlt_le, Rdiv_lt_0_compat; [| exact Hax].
    apply hypot_pos; intros E; injection E; intros; contradiction.
  - assert (Hs : sqrt (x ^ 2 + y ^ 2) * sqrt (x ^ 2 + y ^ 2) = x ^ 2 + y ^ 2)
      by (apply sqrt_sqrt; nra).
    assert (Ha : Rabs x * Rabs x = x * x).
    { unfold Rabs; destruct (Rcase_abs x); ring. }
    unfold Rsqr.
    replace (sqrt (x ^ 2 + y ^ 2) / Rabs x * (sqrt (x ^ 2 + y ^ 2) / Rabs x))
      with ((sqrt (x ^ 2 + y ^ 2) * sqrt (x ^ 2 + y ^ 2)) / (Rabs x * Rabs x))
      by (field; lra).
    rewrite Hs, Ha. field; exact Hx.
Qed.

Lemma cos_minus_PI (a : R) : cos (a - PI) = - cos a.
Proof. rewrite cos_minus, cos_PI, sin_PI; ring. Qed.

Lemma sin_minus_PI (a : R) : sin (a - PI) = - sin a.
Proof. rewrite sin_minus, cos_PI, sin_PI; ring. Qed.

(** Off the origin, the angle of [np.arctan2 y x] has cosine x / rho and
    sine y / rho, with rho the distance of (x, y) from the origin. *)
Lemma arctan2_cos_sin (x y : R) :
  (x, y) <> (0, 0) ->
  cos (arctan2 y x) = x / sqrt (x ^ 2 + y ^ 2)
  /\ sin (arctan2 y x) = y / sqrt (x ^ 2 + y ^ 2).
Proof.
  intros Hne. pose proof (hypot_pos x y Hne) as Hrho.
  set (rho := sqrt (x ^ 2 + y ^ 2)) in *.
  unfold arctan2.
  destruct (Rlt_dec 0 x) as [Hx | Hx].
  - rewrite (Rltb_true 0 x Hx).
    rewrite cos_atan, sin_atan, sqrt_one_plus_ratio by lra. fold rho.
    rewrite (Rabs_pos_eq x) by lra. split; field; lra.
  - rewrite (Rltb_false 0 x Hx).
    destruct (Rlt_dec x 0) as [Hx' | Hx'].
    + rewrite (Rltb_true x 0 Hx').
      assert (Habs : Rabs x = - x) by (apply Rabs_left; exact Hx').
      destruct (Rleb 0 y).
      * rewrite neg_cos, neg_sin, cos_atan, sin_atan, sqrt_one_plus_ratio by lra.
        fold rho. rewrite Habs. split; field; lra.
      * rewrite cos_minus_PI, sin_minus_PI, cos_atan, sin_atan, sqrt_one_plus_ratio by lra.
        fold rho. rewrite Habs. split; field; lra.
    + rewrite (Rltb_false x 0 Hx').
      assert (x = 0) by lra. subst x.
      assert (Hy : y <> 0) by (intros ->; apply Hne; reflexivity).
      destruct (Rlt_dec 0 y) as [Hy0 | Hy0].
      * rewrite (Rltb_true 0 y Hy0), cos_PI2, sin_PI2.
        assert (E : rho = y) by (unfold rho; apply sqrt_of_square; lra).
        rewrite E. split; field; lra.
      * rewrite (Rltb_false 0 y Hy0), (Rltb_true y 0) by lra.
        rewrite cos_neg, sin_neg, cos_PI2, sin_PI2.
        assert (E : rho = - y) by (unfold rho; apply sqrt_of_square; lra).
        rewrite E. split; field; lra.
Qed.

Section CircleFacts.

Import CircleBoundaryComp.
Import Inherited.

(** ** Diagonal matrices *)

Lemma diagflat_length (d : list R) : length (diagflat d) = length d.
Proof. unfold diagflat; rewrite map2_length, length_seq; lia. Qed.

Lemma diagflat_row (d : list R) (i : nat) :
  (i < length d)%nat ->
  nth i (diagflat d) [] = diag_row (length d) i (nth i d 0).
Proof.
  intros Hi; unfold diagflat.
  rewrite (nth_map2 _ _ _ i 0%nat 0) by (rewrite ?length_seq; lia).
  rewrite seq_nth by lia. reflexivity.
Qed.

Lemma diag_row_entry (n i j : nat) (v : R) :
  (j < n)%nat -> nth j (diag_row n i v) 0 = if Nat.eqb i j then v else 0.
Proof.
  intros Hj; unfold diag_row.
  rewrite (nth_map_lt _ _ j 0%nat) by (rewrite length_seq; lia).
  rewrite seq_nth by lia. reflexivity.
Qed.

(** Entry (i, j) of [np.diagflat(d)]. *)
Lemma diagflat_entry (d : list R) (i j : nat) :
  (i < length d)%nat -> (j < length d)%nat ->
  nth j (nth i (diagflat d) []) 0 = if Nat.eqb i j then nth i d 0 else 0.
Proof. intros Hi Hj; rewrite diagflat_row, diag_row_entry by assumption; reflexivity. Qed.

(** [np.diag] reads back what [np.diagflat] laid out. *)
Lemma diag_diagflat (d : list R) : diag (diagflat d) = d.
Proof.
  apply (nth_ext _ _ 0 0).
  - unfold diag; rewrite map2_length, length_seq, diagflat_length; lia.
  - intros i Hi. unfold diag in Hi |- *.
    rewrite map2_length, length_seq, diagflat_length in Hi.
    rewrite (nth_map2 _ _ _ i 0%nat [])
      by (rewrite ?length_seq, ?diagflat_length; lia).
    rewrite seq_nth by (rewrite diagflat_length; lia). cbn [Nat.add].
    rewrite diagflat_entry by lia. rewrite Nat.eqb_refl. reflexivity.
Qed.

Lemma nth_where (mask : list bool) (a b : list R) (i : nat) :
  (i < length mask)%nat -> (i < length a)%nat -> (i < length b)%nat ->
  nth i (where_ mask a b) 0 = if nth i mask false then nth i a 0 else nth i b 0.
Proof.
  intros Hm Ha Hb; unfold where_.
  rewrite (nth_map2 _ _ _ i false (0, 0)) by (rewrite ?length_combine; lia).
  rewrite nth_combine_lt by lia. reflexivity.
Qed.

Lemma where_length (mask : list bool) (a b : list R) :
  length mask = length a -> length a = length b -> length (where_ mask a b) = length a.
Proof. intros H1 H2; unfold where_; rewrite map2_length, length_combine; lia. Qed.

(** ** CircleBoundaryComp *)



Lemma circle_distances_length (self : t) (x y : list R) :
  length x = length y -> length (distances self x y) = length x.
Proof. intros H; unfold distances; rewrite map2_length; lia. Qed.

Lemma circle_distance_entry (self : t) (x y : list R) (i : nat) :
  length x = length y -> (i < length x)%nat ->
  nth i (distances self x y) 0 = radius self - radial self x y i.
Proof.
  intros Hxy Hi; unfold distances, radial.
  rewrite (nth_map2 _ _ _ i 0 0) by lia. reflexivity.
Qed.

(** A point is feasible for the circle exactly when it lies in the closed
    disc, and its distance is zero exactly on the circle. *)
Lemma circle_distance_sign (self : t) (x y : list R) (i : nat) :
  0 <= radius self -> length x = length y -> (i < length x)%nat ->
  let q := (nth i x 0 - fst (center self)) ^ 2 + (nth i y 0 - snd (center self)) ^ 2 in
  (0 <= nth i (distances self x y) 0 <-> q <= radius self ^ 2)
  /\ (nth i (distances self x y) 0 = 0 <-> q = radius self ^ 2).
Proof.
  intros Hr Hxy Hi q. rewrite circle_distance_entry by assumption.
  unfold radial. fold q.
  assert (Hq : 0 <= q) by (unfold q; apply Rplus_le_le_0_compat; apply pow2_ge_0).
  pose proof (sqrt_pos q) as Hs.
  pose proof (sqrt_sqrt q Hq) as Hss.
  replace (radius self ^ 2) with (radius self * radius self) by ring.
  set (r := radius self) in *. set (s := sqrt q) in *.
  split; split; intros H.
  - assert (s <= r) by lra. rewrite <- Hss. apply Rmult_le_compat; lra.
  - destruct (Rle_dec s r) as [C|C]; [lra |].
    assert (r * r < s * s) by (apply Rmult_le_0_lt_compat; lra). lra.
  - assert (s = r) by lra. rewrite <- Hss. subst r. congruence.
  - assert (Hsr : s * s = r * r) by lra.
    destruct (Rtotal_order s r) as [C | [C | C]]; [| lra |].
    + assert (s * s < r * r) by (apply Rmult_le_0_lt_compat; lra). lra.
    + assert (r * r < s * s) by (apply Rmult_le_0_lt_compat; lra). lra.
Qed.

Lemma radial_nonneg (self : t) (x y : list R) (i : nat) : 0 <= radial self x y i.
Proof. unfold radial; apply sqrt_pos. Qed.

Lemma radial_zero_iff (self : t) (x y : list R) (i : nat) :
  radial self x y i = 0 <-> (nth i x 0, nth i y 0) = center self.
Proof.
  unfold radial. destruct (center self) as [cx cy]; cbn [fst snd].
  set (a := nth i x 0 - cx). set (b := nth i y 0 - cy).
  assert (Hq : 0 <= a ^ 2 + b ^ 2) by (apply Rplus_le_le_0_compat; apply pow2_ge_0).
  split.
  - intros H. apply sqrt_eq_0 in H; [| exact Hq].
    assert (a = 0 /\ b = 0) as [Ha Hb] by (split; nra).
    unfold a, b in *; f_equal; lra.
  - intros E; injection E as E1 E2.
    assert (a = 0) by (unfold a; lra). assert (b = 0) by (unfold b; lra).
    replace (a ^ 2 + b ^ 2) with 0 by nra. apply sqrt_0.
Qed.

(** The diagonals of the two Jacobians of the circle. *)
Lemma circle_gradient_diagonal (self : t) (x y : list R) (i : nat) :
  length x = length y -> (i < length x)%nat ->
  let theta := arctan2 (nth i y 0 - snd (center self)) (nth i x 0 - fst (center self)) in
  nth i (diag (fst (gradients self x y))) 0
  = (if Reqb (radial self x y i) 0 then -1 else - cos theta)
  /\ nth i (diag (snd (gradients self x y))) 0
     = (if Reqb (radial self x y i) 0 then -1 else - sin theta).
Proof.
  intros Hxy Hi theta. unfold gradients. cbn [fst snd]. rewrite !diag_diagflat.
  assert (Hd : length (distances self x y) = length x)
    by (apply circle_distances_length; exact Hxy).
  assert (Hth : length (map2 (fun xi yi => arctan2 (yi - snd (center self))
                                                   (xi - fst (center self))) x y)
                = length x) by (rewrite map2_length; lia).
  assert (Hmask : nth i (map (fun d => negb (Reqb d (radius self))) (distances self x y))
                      false
                  = negb (Reqb (radial self x y i) 0)).
  { rewrite (nth_map_lt _ _ i 0) by lia.
    rewrite circle_distance_entry by assumption.
    f_equal. unfold Reqb.
    destruct (Req_dec_T (radius self - radial self x y i) (radius self)),
             (Req_dec_T (radial self x y i) 0); try reflexivity; exfalso; lra. }
  split;
    (rewrite nth_where by (rewrite ?length_map, ?Hd, ?Hth; lia);
     rewrite Hmask;
     rewrite (nth_map_lt _ _ i 0) by (rewrite Hth; lia);
     rewrite (nth_map2 _ _ _ i 0 0) by lia;
     rewrite (nth_map_lt _ _ i 0) by lia;
     destruct (Reqb (radial self x y i) 0); cbn [negb]; [lra | reflexivity]).
Qed.

(** Off the center the gradient of the circle distance is the unit vector
    pointing from the point to the center. *)
Lemma circle_gradient_radial (self : t) (x y : list R) (i : nat) :
  length x = length y -> (i < length x)%nat ->
  (nth i x 0, nth i y 0) <> center self ->
  nth i (diag (fst (gradients self x y))) 0
  = - ((nth i x 0 - fst (center self)) / radial self x y i)
  /\ nth i (diag (snd (gradients self x y))) 0
     = - ((nth i y 0 - snd (center self)) / radial self x y i).
Proof.
  intros Hxy Hi Hne.
  destruct (circle_gradient_diagonal self x y i Hxy Hi) as [Hx Hy].
  assert (Hrho : radial self x y i <> 0).
  { intros E; apply Hne, radial_zero_iff, E. }
  rewrite (Reqb_false _ _ Hrho) in Hx, Hy.
  destruct (arctan2_cos_sin (nth i x 0 - fst (center self)) (nth i y 0 - snd (center self)))
    as [Hc Hs].
  { intros E; injection E as E1 E2; apply Hne.
    destruct (center self); cbn [fst snd] in *; f_equal; lra. }
  rewrite Hx, Hy, Hc, Hs. split; reflexivity.
Qed.

(** Both Jacobians of the circle are diagonal. *)
Lemma circle_gradient_off_diagonal (self : t) (x y : list R) (i j : nat) :
  length x = length y -> (i < length x)%nat -> (j < length x)%nat -> i <> j ->
  nth j (nth i (fst (gradients self x y)) []) 0 = 0
  /\ nth j (nth i (snd (gradients self x y)) []) 0 = 0.
Proof.
  intros Hxy Hi Hj Hij. unfold gradients; cbn [fst snd].
  assert (Hd : length (distances self x y) = length x)
    by (apply circle_distances_length; exact Hxy).
  assert (Hl : forall (a : list R),
             length a = length x ->
             length (where_ (map (fun d => negb (Reqb d (radius self))) (distances self x y))
                            a (map (fun _ => -1 * 1) x)) = length x).
  { intros a Ha. unfold where_. rewrite map2_length, length_combine, !length_map. lia. }
  split; rewrite diagflat_entry
    by (rewrite Hl; [lia | rewrite length_map, map2_length; lia]);
    apply Nat.eqb_neq in Hij; rewrite Hij; reflexivity.
Qed.

Lemma nudge_length (pad : R) (x dx dist : list R) :
  length dx = length x -> length dist = length x ->
  length (PolygonBoundaryComp.nudge pad x dx dist) = length x.
Proof.
  intros H1 H2; unfold PolygonBoundaryComp.nudge.
  rewrite map2_length, length_combine; lia.
Qed.

Lemma circle_diag_length (self : t) (x y : list R) :
  length x = length y ->
  length (diag (fst (gradients self x y))) = length x
  /\ length (diag (snd (gradients self x y))) = length x.
Proof.
  intros Hxy. unfold gradients; cbn [fst snd]. rewrite !diag_diagflat.
  unfold where_. rewrite !map2_length, !length_combine, !length_map, !map2_length.
  rewrite circle_distances_length by exact Hxy. lia.
Qed.

Lemma circle_satisfy_lengths (self : t) (state : BoundaryBaseComp.State) (pad : R) :
  length (BoundaryBaseComp.xs state) = length (BoundaryBaseComp.ys state) ->
  length (BoundaryBaseComp.xs (circle_satisfy self state pad))
  = length (BoundaryBaseComp.xs state)
  /\ length (BoundaryBaseComp.ys (circle_satisfy self state pad))
     = length (BoundaryBaseComp.xs state).
Proof.
  intros Hxy. unfold circle_satisfy; cbn [BoundaryBaseComp.xs BoundaryBaseComp.ys].
  destruct (circle_diag_length self _ _ Hxy) as [H1 H2].
  pose proof (circle_distances_length self _ _ Hxy) as H3.
  split; rewrite nudge_length; lia.
Qed.

Lemma scaled_hypot (a b k : R) :
  0 <= k -> sqrt ((a * k) ^ 2 + (b * k) ^ 2) = k * sqrt (a ^ 2 + b ^ 2).
Proof.
  intros Hk.
  assert (Hq : 0 <= a ^ 2 + b ^ 2) by (apply Rplus_le_le_0_compat; apply pow2_ge_0).
  apply sqrt_lem_1.
  - apply Rplus_le_le_0_compat; apply pow2_ge_0.
  - apply Rmult_le_pos; [exact Hk | apply sqrt_pos].
  - transitivity (k * k * (sqrt (a ^ 2 + b ^ 2) * sqrt (a ^ 2 + b ^ 2))); [ring |].
    rewrite sqrt_sqrt by exact Hq. ring.
Qed.

(** [satisfy] on the circle: a feasible point stays; a point outside is
    moved along the radius by [pad] times its violation, and, unless that
    carries it past the center, ends at distance [dist * (1 - pad)]. *)
Lemma circle_satisfy_point (self : t) (state : BoundaryBaseComp.State) (pad : R) (i : nat) :
  let x := BoundaryBaseComp.xs state in
  let y := BoundaryBaseComp.ys state in
  let state' := circle_satisfy self state pad in
  let d := nth i (distances self x y) 0 in
  0 <= radius self -> length x = length y -> (i < length x)%nat ->
  (0 <= d ->
   nth i (BoundaryBaseComp.xs state') 0 = nth i x 0
   /\ nth i (BoundaryBaseComp.ys state') 0 = nth i y 0)
  /\ (d < 0 -> 0 <= radial self x y i + d * pad ->
      nth i (distances self (BoundaryBaseComp.xs state') (BoundaryBaseComp.ys state')) 0
      = d * (1 - pad)).
Proof.
  intros x y state' d Hr Hxy Hi.
  destruct (circle_satisfy_lengths self state pad Hxy) as [Lx Ly].
  fold x y state' in Lx, Ly.
  assert (Hx' : nth i (BoundaryBaseComp.xs state') 0
                = if Rltb d 0
                  then nth i x 0 - nth i (diag (fst (gradients self x y))) 0 * d * pad
                  else nth i x 0).
  { unfold state', circle_satisfy; cbn [BoundaryBaseComp.xs].
    apply nth_nudge. fold x y. change (_ < _)%nat with
      (i < length (BoundaryBaseComp.xs state'))%nat. lia. }
  assert (Hy' : nth i (BoundaryBaseComp.ys state') 0
                = if Rltb d 0
                  then nth i y 0 - nth i (diag (snd (gradients self x y))) 0 * d * pad
                  else nth i y 0).
  { unfold state', circle_satisfy; cbn [BoundaryBaseComp.ys].
    apply nth_nudge. fold x y. change (_ < _)%nat with
      (i < length (BoundaryBaseComp.ys state'))%nat. lia. }
  split.
  - intros Hd. rewrite Hx', Hy', Rltb_false by lra. split; reflexivity.
  - intros Hd Hk.
    assert (Hdr : d = radius self - radial self x y i)
      by (apply circle_distance_entry; assumption).
    pose proof (radial_nonneg self x y i) as Hrho0.
    assert (Hrho : 0 < radial self x y i) by lra.
    assert (Hne : (nth i x 0, nth i y 0) <> center self).
    { intros E; apply radial_zero_iff in E; lra. }
    destruct (circle_gradient_radial self x y i Hxy Hi Hne) as [Gx Gy].
    rewrite (Rltb_true d 0 Hd), Gx in Hx'. rewrite (Rltb_true d 0 Hd), Gy in Hy'.
    rewrite circle_distance_entry by lia.
    unfold radial at 1. rewrite Hx', Hy'.
    set (rho := radial self x y i) in *.
    set (a := nth i x 0 - fst (center self)) in *.
    set (b := nth i y 0 - snd (center self)) in *.
    replace (nth i x 0 - - (a / rho) * d * pad - fst (center self))
      with (a * ((rho + d * pad) / rho)) by (unfold a; field; lra).
    replace (nth i y 0 - - (b / rho) * d * pad - snd (center self))
      with (b * ((rho + d * pad) / rho)) by (unfold b; field; lra).
    rewrite scaled_hypot by (apply Rmult_le_pos; [exact Hk | apply Rlt_le, Rinv_0_lt_compat, Hrho]).
    change (sqrt (a ^ 2 + b ^ 2)) with rho.
    rewrite Hdr. field; lra.
Qed.

End CircleFacts.

Section PenaltyFacts.

Import Inherited.

(** ** The penalty output of [compute] *)

Lemma Rmin_0_nonpos (d : R) : Rmin d 0 <= 0.
Proof. apply Rmin_r. Qed.

Lemma Rmin_0_zero_iff (d : R) : Rmin d 0 = 0 <-> 0 <= d.
Proof.
  unfold Rmin; destruct (Rle_dec d 0); split; intros; lra.
Qed.

Lemma penalty_cons (d : R) (l : list R) : penalty (d :: l) = - Rmin d 0 + penalty l.
Proof. unfold penalty; cbn [map fold_right]; ring. Qed.

Lemma penalty_nonneg (l : list R) : 0 <= penalty l.
Proof.
  induction l as [|d l IH]; [unfold penalty; cbn; lra |].
  rewrite penalty_cons. pose proof (Rmin_0_nonpos d). lra.
Qed.

Lemma penalty_zero_iff (l : list R) : penalty l = 0 <-> forall d, In d l -> 0 <= d.
Proof.
  induction l as [|d l IH].
  - split; [intros _ d [] | intros _; unfold penalty; cbn; lra].
  - rewrite penalty_cons. pose proof (Rmin_0_nonpos d). pose proof (penalty_nonneg l).
    split.
    + intros H1 v [<- | Hv].
      * apply Rmin_0_zero_iff; lra.
      * apply IH; [lra | exact Hv].
    + intros Hall.
      assert (E1 : Rmin d 0 = 0) by (apply Rmin_0_zero_iff, Hall; left; reflexivity).
      assert (E2 : penalty l = 0) by (apply IH; intros v Hv; apply Hall; right; exact Hv).
      lra.
Qed.

(** The penalty is the total size of the violations. *)
Lemma penalty_sum_violations (l : list R) :
  penalty l = fold_right Rplus 0 (map (fun d => if Rltb d 0 then - d else 0) l).
Proof.
  induction l as [|d l IH]; [unfold penalty; cbn; lra |].
  rewrite penalty_cons, IH. cbn [map fold_right]. f_equal.
  unfold Rmin. destruct (Rle_dec d 0) as [H|H].
  - destruct (Rlt_dec d 0) as [C|C].
    + rewrite (Rltb_true _ _ C); reflexivity.
    + rewrite (Rltb_false _ _ C); lra.
  - rewrite Rltb_false by lra. lra.
Qed.

End PenaltyFacts.

Section ConvexFacts.

Import ConvexBoundaryComp.

(** ** The Jacobians of the convex component *)


Lemma zeros2_shape (rows cols : nat) : has_shape (zeros2 rows cols) rows cols.
Proof.
  unfold has_shape, zeros2; split; [apply repeat_length |].
  intros r Hr. rewrite nth_repeat_lt by exact Hr. apply repeat_length.
Qed.

Lemma zeros2_entry (rows cols r c : nat) : nth c (nth r (zeros2 rows cols) []) 0 = 0.
Proof.
  unfold zeros2.
  destruct (Nat.lt_ge_cases r rows) as [Hr|Hr].
  - rewrite nth_repeat_lt by exact Hr.
    destruct (Nat.lt_ge_cases c cols) as [Hc|Hc].
    + apply nth_repeat_lt; exact Hc.
    + apply nth_overflow; rewrite repeat_length; exact Hc.
  - rewrite (nth_overflow (repeat _ _)) by (rewrite repeat_length; exact Hr).
    destruct c; reflexivity.
Qed.

Lemma set2_row (m : list (list R)) (r c : nat) (v : R) (r' : nat) :
  (r' < length m)%nat ->
  nth r' (set2 m r c v) []
  = if Nat.eqb r' r
    then map2 (fun j old => if Nat.eqb j c then v else old)
              (seq 0 (length (nth r' m []))) (nth r' m [])
    else nth r' m [].
Proof.
  intros Hr; unfold set2.
  rewrite (nth_map2 _ _ _ r' 0%nat []) by (rewrite ?length_seq; lia).
  rewrite seq_nth by lia. reflexivity.
Qed.

Lemma set2_shape (m : list (list R)) (rows cols r c : nat) (v : R) :
  has_shape m rows cols -> has_shape (set2 m r c v) rows cols.
Proof.
  intros [Hl Hrows]; split.
  - unfold set2; rewrite map2_length, length_seq; lia.
  - intros r' Hr'. rewrite set2_row by lia.
    destruct (Nat.eqb r' r); [| apply Hrows; exact Hr'].
    rewrite map2_length, length_seq, Hrows by exact Hr'. lia.
Qed.

Lemma set2_entry (m : list (list R)) (rows cols r c : nat) (v : R) (r' c' : nat) :
  has_shape m rows cols -> (r' < rows)%nat -> (c' < cols)%nat ->
  nth c' (nth r' (set2 m r c v) []) 0
  = if Nat.eqb r' r && Nat.eqb c' c then v else nth c' (nth r' m []) 0.
Proof.
  intros [Hl Hrows] Hr' Hc'. rewrite set2_row by lia.
  destruct (Nat.eqb r' r); cbn [andb]; [| reflexivity].
  rewrite (nth_map2 _ _ _ c' 0%nat 0) by (rewrite ?length_seq, Hrows; lia).
  rewrite seq_nth by (rewrite Hrows; lia). reflexivity.
Qed.

Section Fill.

Variable g : nat -> R.
Variable nV : nat.
Variable rows cols : nat.


Lemma fill_faces_spec (i J : nat) (m : list (list R)) :
  has_shape m rows cols ->
  has_shape (fill_faces g nV i J m) rows cols
  /\ forall r c, (r < rows)%nat -> (c < cols)%nat ->
       nth c (nth r (fill_faces g nV i J m) []) 0
       = if Nat.eqb c i && Nat.leb (i * nV) r && Nat.ltb r (i * nV + J)
         then g (r - i * nV)
         else nth c (nth r m []) 0.
Proof.
  intros Hm. induction J as [|J [IHs IHe]].
  - split; [exact Hm |]. intros r c Hr Hc. cbn [fill_faces seq fold_left].
    destruct (Nat.leb (i * nV) r) eqn:E; [| rewrite andb_false_r; reflexivity].
    apply Nat.leb_le in E.
    replace (Nat.ltb r (i * nV + 0)) with false by (symmetry; apply Nat.ltb_ge; lia).
    rewrite andb_false_r; reflexivity.
  - unfold fill_faces in *. rewrite seq_S, fold_left_app. cbn [fold_left Nat.add].
    split; [apply set2_shape; exact IHs |].
    intros r c Hr Hc.
    rewrite (set2_entry _ rows cols) by assumption.
    rewrite IHe by assumption.
    destruct (Nat.eqb r (i * nV + J)) eqn:Er; destruct (Nat.eqb c i) eqn:Ec; cbn [andb].
    + apply Nat.eqb_eq in Er. subst r.
      replace (Nat.leb (i * nV) (i * nV + J)) with true
        by (symmetry; apply Nat.leb_le; lia).
      replace (Nat.ltb (i * nV + J) (i * nV + S J)) with true
        by (symmetry; apply Nat.ltb_lt; lia).
      cbn [andb]. f_equal; lia.
    + reflexivity.
    + apply Nat.eqb_neq in Er.
      destruct (Nat.leb (i * nV) r) eqn:El; cbn [andb]; [| reflexivity].
      apply Nat.leb_le in El.
      destruct (Nat.ltb r (i * nV + J)) eqn:E1.
      * apply Nat.ltb_lt in E1.
        replace (Nat.ltb r (i * nV + S J)) with true
          by (symmetry; apply Nat.ltb_lt; lia). reflexivity.
      * apply Nat.ltb_ge in E1.
        replace (Nat.ltb r (i * nV + S J)) with false
          by (symmetry; apply Nat.ltb_ge; lia). reflexivity.
    + reflexivity.
Qed.


Lemma fill_turbines_spec (I : nat) :
  (0 < nV)%nat ->
  has_shape (fill_turbines g nV I (zeros2 rows cols)) rows cols
  /\ forall r c, (r < rows)%nat -> (c < cols)%nat ->
       nth c (nth r (fill_turbines g nV I (zeros2 rows cols)) []) 0
       = if Nat.ltb (r / nV) I && Nat.eqb c (r / nV) then g (r mod nV) else 0.
Proof.
  intros HnV. induction I as [|I [IHs IHe]].
  - split; [apply zeros2_shape |]. intros r c Hr Hc.
    cbn [fill_turbines seq fold_left]. apply zeros2_entry.
  - unfold fill_turbines in *. rewrite seq_S, fold_left_app. cbn [fold_left Nat.add].
    destruct (fill_faces_spec I nV _ IHs) as [Hs He].
    split; [exact Hs |].
    intros r c Hr Hc. rewrite He, IHe by assumption.
    pose proof (Nat.div_mod_eq r nV) as Hdm.
    pose proof (Nat.mod_upper_bound r nV ltac:(lia)) as Hmod.
    destruct (Nat.eqb c I) eqn:Ec; cbn [andb].
    + apply Nat.eqb_eq in Ec. subst c.
      destruct (Nat.leb (I * nV) r) eqn:El; cbn [andb].
      * apply Nat.leb_le in El.
        destruct (Nat.ltb r (I * nV + nV)) eqn:Eu.
        -- apply Nat.ltb_lt in Eu.
           assert (Hq : (r / nV = I)%nat).
           { symmetry. apply (Nat.div_unique r nV I (r - I * nV)); lia. }
           rewrite Hq. replace (Nat.ltb I (S I)) with true
             by (symmetry; apply Nat.ltb_lt; lia).
           rewrite Nat.eqb_refl. cbn [andb]. f_equal.
           rewrite Hq in Hdm. lia.
        -- apply Nat.ltb_ge in Eu.
           assert (Hq : (S I <= r / nV)%nat).
           { apply Nat.div_le_lower_bound; lia. }
           replace (Nat.ltb (r / nV) I) with false by (symmetry; apply Nat.ltb_ge; lia).
           replace (Nat.ltb (r / nV) (S I)) with false by (symmetry; apply Nat.ltb_ge; lia).
           reflexivity.
      * apply Nat.leb_gt in El.
        assert (Hq : (r / nV < I)%nat) by (apply Nat.Div0.div_lt_upper_bound; lia).
        replace (Nat.ltb (r / nV) I) with true by (symmetry; apply Nat.ltb_lt; lia).
        replace (Nat.ltb (r / nV) (S I)) with true by (symmetry; apply Nat.ltb_lt; lia).
        reflexivity.
    + apply Nat.eqb_neq in Ec.
      destruct (Nat.eqb c (r / nV)) eqn:Eq; [| rewrite !andb_false_r; reflexivity].
      apply Nat.eqb_eq in Eq. rewrite !andb_true_r.
      destruct (Nat.ltb (r / nV) I) eqn:E1.
      * apply Nat.ltb_lt in E1.
        replace (Nat.ltb (r / nV) (S I)) with true by (symmetry; apply Nat.ltb_lt; lia).
        reflexivity.
      * apply Nat.ltb_ge in E1.
        replace (Nat.ltb (r / nV) (S I)) with false
          by (symmetry; apply Nat.ltb_ge; lia).
        reflexivity.
Qed.

End Fill.

Lemma calculate_gradient_spec (dpa : vec) (n_wt0 nV : nat) (normals : list vec) :
  (0 < nV)%nat ->
  has_shape (calculate_gradient dpa n_wt0 nV normals) (n_wt0 * nV) n_wt0
  /\ forall r c, (r < n_wt0 * nV)%nat -> (c < n_wt0)%nat ->
       nth c (nth r (calculate_gradient dpa n_wt0 nV normals) []) 0
       = if Nat.eqb c (r / nV)
         then face_gradient dpa (nth (r mod nV) normals (0, 0))
         else 0.
Proof.
  intros HnV.
  destruct (fill_turbines_spec (fun j => face_gradient dpa (nth j normals (0, 0)))
                               nV (n_wt0 * nV) n_wt0 n_wt0 HnV) as [Hs He].
  split; [exact Hs |].
  intros r c Hr Hc.
  change (calculate_gradient dpa n_wt0 nV normals)
    with (fill_turbines (fun j => face_gradient dpa (nth j normals (0, 0)))
                        nV n_wt0 (zeros2 (n_wt0 * nV) n_wt0)).
  rewrite He by assumption.
  replace (Nat.ltb (r / nV) n_wt0) with true; [reflexivity |].
  symmetry; apply Nat.ltb_lt. apply Nat.Div0.div_lt_upper_bound. lia.
Qed.

(** What construction establishes, for every boundary type. *)
Lemma convex_init_inv hull n_wt0 xy bt self :
  init hull n_wt0 xy bt = Some self ->
  exists poly,
    boundary_of hull bt xy = Some poly
    /\ BoundaryBaseComp.close_ring poly = Some (xy_boundary self)
    /\ nVertices self = length poly
    /\ unit_normals self = map (face_normal poly) (seq 0 (length poly))
    /\ n_wt self = n_wt0
    /\ dfaceDistance_dx self
       = calculate_gradient (-1, 0) n_wt0 (length poly)
                            (map (face_normal poly) (seq 0 (length poly)))
    /\ dfaceDistance_dy self
       = calculate_gradient (0, -1) n_wt0 (length poly)
                            (map (face_normal poly) (seq 0 (length poly))).
Proof.
  intros H. unfold init, calculate_boundary_and_normals in H.
  destruct (boundary_of hull bt xy) as [poly|]; [| discriminate].
  destruct (BoundaryBaseComp.close_ring poly) as [closed|] eqn:Ec; [| discriminate].
  injection H as <-. exists poly. cbn [xy_boundary nVertices unit_normals n_wt
    dfaceDistance_dx dfaceDistance_dy calculate_gradients fst snd].
  repeat split; first [reflexivity | exact Ec].
Qed.

Lemma face_normal_nth (poly : list vec) (j : nat) :
  (j < length poly)%nat ->
  nth j (map (face_normal poly) (seq 0 (length poly))) (0, 0) = face_normal poly j.
Proof.
  intros Hj. rewrite (nth_map_lt _ _ j 0%nat) by (rewrite length_seq; exact Hj).
  rewrite seq_nth by exact Hj. reflexivity.
Qed.

(** Entry (i, j) of the distances before any simplification. *)
Lemma convex_distance_raw hull n_wt0 xy bt self poly (x y : list R) (i j : nat) :
  init hull n_wt0 xy bt = Some self ->
  boundary_of hull bt xy = Some poly ->
  hd (0, 0) poly <> last poly (0, 0) ->
  length x = length y -> (i < length x)%nat -> (j < length poly)%nat ->
  length (nth i (distances self x y) []) = length poly
  /\ nth j (nth i (distances self x y) []) 0
     = face_distance (nth i x 0, nth i y 0) (nth j poly (0, 0)) (face_normal poly j).
Proof.
  intros Hinit Hb Hopen Hxy Hi Hj.
  destruct (convex_init_inv _ _ _ _ _ Hinit) as (poly' & Hb' & Hclose & _ & Hn & _).
  rewrite Hb in Hb'; injection Hb' as <-.
  unfold distances, calculate_distance_to_boundary.
  rewrite (close_ring_open _ _ Hclose Hopen), Hn.
  rewrite (nth_map_lt _ _ i (0, 0)) by (rewrite length_combine; lia).
  rewrite combine_nth by assumption.
  split.
  - rewrite map2_length, length_map, length_seq; lia.
  - rewrite (nth_map2 _ _ _ j (0, 0) (0, 0))
      by (rewrite ?length_map, ?length_seq; exact Hj).
    rewrite face_normal_nth by exact Hj. reflexivity.
Qed.

(** A face distance is affine in the point, with the face gradients as
    coefficients. *)
Lemma face_distance_affine (p h vertex n : vec) :
  face_distance (fst p + fst h, snd p + snd h) vertex n
  = face_distance p vertex n
    + fst h * face_gradient (-1, 0) n + snd h * face_gradient (0, -1) n.
Proof.
  unfold face_distance, face_gradient, vscale, vsub, dot; cbn [fst snd]. ring.
Qed.

(** The Jacobian entries of point [i] and face [j]. *)
Lemma convex_jacobian_entry hull n_wt0 xy bt self poly (i j c : nat) :
  init hull n_wt0 xy bt = Some self ->
  boundary_of hull bt xy = Some poly ->
  (i < n_wt0)%nat -> (j < length poly)%nat -> (c < n_wt0)%nat ->
  nth c (nth (i * length poly + j) (fst (gradients self [] [])) []) 0
  = (if Nat.eqb c i then face_gradient (-1, 0) (face_normal poly j) else 0)
  /\ nth c (nth (i * length poly + j) (snd (gradients self [] [])) []) 0
     = (if Nat.eqb c i then face_gradient (0, -1) (face_normal poly j) else 0).
Proof.
  intros Hinit Hb Hi Hj Hc.
  destruct (convex_init_inv _ _ _ _ _ Hinit) as (poly' & Hb' & _ & _ & _ & _ & Gx & Gy).
  rewrite Hb in Hb'; injection Hb' as <-.
  unfold gradients; cbn [fst snd]. rewrite Gx, Gy.
  assert (HnV : (0 < length poly)%nat) by lia.
  assert (Hr : (i * length poly + j < n_wt0 * length poly)%nat) by nia.
  assert (Hq : ((i * length poly + j) / length poly = i)%nat).
  { symmetry; apply (Nat.div_unique _ _ i j); lia. }
  assert (Hm : ((i * length poly + j) mod length poly = j)%nat).
  { symmetry; apply (Nat.mod_unique _ _ i j); lia. }
  destruct (calculate_gradient_spec (-1, 0) n_wt0 (length poly)
              (map (face_normal poly) (seq 0 (length poly))) HnV) as [_ Ex].
  destruct (calculate_gradient_spec (0, -1) n_wt0 (length poly)
              (map (face_normal poly) (seq 0 (length poly))) HnV) as [_ Ey].
  rewrite Ex, Ey by assumption. rewrite Hq, Hm, face_normal_nth by exact Hj.
  split; reflexivity.
Qed.

(** ** [satisfy] of the convex component restores feasibility *)


Lemma clip_le (d : R) : clip d <= d.
Proof. unfold clip; destruct (Rltb d 0); [apply Rmin_l | lra]. Qed.

Lemma clip_nonneg (d : R) : 0 <= clip d -> 0 <= d.
Proof.
  unfold clip. destruct (Rlt_dec d 0) as [C|C].
  - rewrite (Rltb_true _ _ C). intros H. pose proof (Rmin_l d (- (1 / 100))). lra.
  - intros _; lra.
Qed.

Lemma forallb_nth {A : Type} (f : A -> bool) (l : list A) (k : nat) (d : A) :
  forallb f l = true -> (k < length l)%nat -> f (nth k l d) = true.
Proof.
  intros H Hk. rewrite forallb_forall in H. apply H, nth_In, Hk.
Qed.

Lemma mask_constraint (dx dy d_i : list R) (g : vec) (k : nat) :
  mask dx dy d_i g = true ->
  (k < length dx)%nat -> (k < length dy)%nat -> (k < length d_i)%nat ->
  - nth k d_i 0 <= fst g * nth k dx 0 + snd g * nth k dy 0.
Proof.
  intros Hm Hx Hy Hd. unfold mask in Hm.
  apply (forallb_nth _ _ k ((0, 0), 0)) in Hm; [| rewrite !length_combine; lia].
  rewrite !nth_combine_lt in Hm by (rewrite ?length_combine; lia).
  cbn [fst snd] in Hm. unfold Rleb in Hm.
  destruct (Rle_dec _ _) as [H|H]; [exact H | discriminate].
Qed.

Lemma smallest_move_mask (dx dy d_i : list R) (g : vec) :
  smallest_move dx dy d_i = Some g -> mask dx dy d_i g = true.
Proof.
  unfold smallest_move. destruct (amin d_i) as [dmin|]; [| discriminate].
  set (cand := filter _ _).
  destruct (argmin _) as [index|] eqn:E; [| discriminate].
  intros H; injection H as <-.
  apply argmin_first_least in E. destruct E as [Hk _]. rewrite length_map in Hk.
  assert (Hin : In (nth index cand (0, 0)) cand) by (apply nth_In; exact Hk).
  unfold cand in Hin. apply filter_In in Hin. exact (proj2 Hin).
Qed.

(** After its turn of the loop a point meets every linearised face
    constraint built from the unclipped distances. *)
Lemma satisfy_point_linear (dx dy d_raw : list R) (p p' : vec) (k : nat) :
  satisfy_point dx dy p (map clip d_raw) = Some p' ->
  (k < length dx)%nat -> (k < length dy)%nat -> (k < length d_raw)%nat ->
  0 <= nth k d_raw 0 + (fst p' - fst p) * nth k dx 0 + (snd p' - snd p) * nth k dy 0.
Proof.
  intros Hs Hx Hy Hd. unfold satisfy_point in Hs.
  destruct (amin (map clip d_raw)) as [dmin|] eqn:Em; [| discriminate].
  assert (Hclip : nth k (map clip d_raw) 0 = clip (nth k d_raw 0))
    by (apply nth_map_lt; exact Hd).
  destruct (Rltb dmin 0) eqn:El.
  - destruct (smallest_move dx dy (map clip d_raw)) as [g|] eqn:Eg; [| discriminate].
    injection Hs as <-. cbn [fst snd].
    pose proof (mask_constraint _ _ _ g k (smallest_move_mask _ _ _ _ Eg) Hx Hy
                                ltac:(rewrite length_map; exact Hd)) as Hc.
    rewrite Hclip in Hc. pose proof (clip_le (nth k d_raw 0)). lra.
  - injection Hs as <-.
    assert (Hge : 0 <= dmin).
    { destruct (Rlt_dec dmin 0) as [C|C]; [rewrite (Rltb_true _ _ C) in El; discriminate | lra]. }
    pose proof (amin_lower _ _ Em (clip (nth k d_raw 0))) as Hlow.
    assert (0 <= nth k d_raw 0).
    { apply clip_nonneg. rewrite <- Hclip in *. 
      assert (dmin <= nth k (map clip d_raw) 0).
      { apply Hlow. apply nth_In. rewrite length_map; exact Hd. }
      lra. }
    lra.
Qed.

Lemma sequence_nth_some {A : Type} (l : list (option A)) (r : list A) (i : nat) (d : A) :
  sequence l = Some r -> (i < length l)%nat -> nth i l None = Some (nth i r d).
Proof.
  revert r i; induction l as [|o l IH]; intros r i Hs Hi; [cbn in Hi; lia |].
  cbn in Hs. destruct o as [a|]; [| discriminate].
  destruct (sequence l) as [r0|] eqn:E; [| discriminate].
  injection Hs as <-. destruct i as [|i]; cbn; [reflexivity |].
  apply IH; [reflexivity | cbn in Hi; lia].
Qed.

(** The per-face gradients [satisfy] reads off the first turbine. *)
Lemma satisfy_face_gradients hull n_wt0 xy bt self poly (x y : list R) :
  init hull n_wt0 xy bt = Some self ->
  boundary_of hull bt xy = Some poly ->
  (0 < n_wt0)%nat ->
  let g := gradients self x y in
  let dx := map (fun row => nth 0 row 0) (firstn (nVertices self) (fst g)) in
  let dy := map (fun row => nth 0 row 0) (firstn (nVertices self) (snd g)) in
  length dx = length poly /\ length dy = length poly
  /\ forall k, (k < length poly)%nat ->
       nth k dx 0 = face_gradient (-1, 0) (face_normal poly k)
       /\ nth k dy 0 = face_gradient (0, -1) (face_normal poly k).
Proof.
  intros Hinit Hb Hn g dx dy.
  destruct (convex_init_inv _ _ _ _ _ Hinit) as (poly' & Hb' & _ & HnV & _ & _ & Gx & Gy).
  rewrite Hb in Hb'; injection Hb' as <-.
  assert (Hlen : forall dpa,
             (length poly <= length (calculate_gradient dpa n_wt0 (length poly)
                 (map (face_normal poly) (seq 0 (length poly)))))%nat).
  { intros dpa. destruct (Nat.eq_dec (length poly) 0) as [E|E]; [lia |].
    destruct (calculate_gradient_spec dpa n_wt0 (length poly)
                (map (face_normal poly) (seq 0 (length poly))) ltac:(lia)) as [[Hl _] _].
    rewrite Hl. nia. }
  assert (Hfx : length (firstn (nVertices self) (fst g)) = length poly).
  { unfold g, gradients; cbn [fst]. rewrite length_firstn, HnV, Gx.
    specialize (Hlen (-1, 0)). lia. }
  assert (Hfy : length (firstn (nVertices self) (snd g)) = length poly).
  { unfold g, gradients; cbn [snd]. rewrite length_firstn, HnV, Gy.
    specialize (Hlen (0, -1)). lia. }
  split; [unfold dx; rewrite length_map; exact Hfx |].
  split; [unfold dy; rewrite length_map; exact Hfy |].
  intros k Hk.
  destruct (convex_jacobian_entry hull n_wt0 xy bt self poly 0 k 0 Hinit Hb Hn Hk Hn)
    as [Ex Ey].
  cbn [Nat.mul Nat.add Nat.eqb] in Ex, Ey.
  split.
  - unfold dx. rewrite (nth_map_lt _ _ k []) by (rewrite Hfx; exact Hk).
    rewrite nth_firstn. replace (Nat.ltb k (nVertices self)) with true
      by (symmetry; apply Nat.ltb_lt; lia).
    exact Ex.
  - unfold dy. rewrite (nth_map_lt _ _ k []) by (rewrite Hfy; exact Hk).
    rewrite nth_firstn. replace (Nat.ltb k (nVertices self)) with true
      by (symmetry; apply Nat.ltb_lt; lia).
    exact Ey.
Qed.

(** When [satisfy] returns, every point of the state it returns has a
    distance that is not negative to every face. *)
Lemma convex_satisfy_restores hull n_wt0 xy bt self poly
      (state state' : BoundaryBaseComp.State) (pad : R) :
  init hull n_wt0 xy bt = Some self ->
  boundary_of hull bt xy = Some poly ->
  hd (0, 0) poly <> last poly (0, 0) ->
  (0 < n_wt0)%nat ->
  length (BoundaryBaseComp.xs state) = length (BoundaryBaseComp.ys state) ->
  satisfy self state pad = Some state' ->
  length (BoundaryBaseComp.xs state') = length (BoundaryBaseComp.xs state)
  /\ length (BoundaryBaseComp.ys state') = length (BoundaryBaseComp.xs state)
  /\ forall i j,
       (i < length (BoundaryBaseComp.xs state))%nat -> (j < length poly)%nat ->
       0 <= nth j (nth i (distances self (BoundaryBaseComp.xs state')
                                    (BoundaryBaseComp.ys state')) []) 0.
Proof.
  intros Hinit Hb Hopen Hn Hxy Hs.
  set (x := BoundaryBaseComp.xs state) in *. set (y := BoundaryBaseComp.ys state) in *.
  destruct (satisfy_face_gradients hull n_wt0 xy bt self poly x y Hinit Hb Hn)
    as (Hdx & Hdy & Hg).
  unfold satisfy in Hs. fold x y in Hs.
  set (dx := map _ (firstn _ (fst _))) in *.
  set (dy := map _ (firstn _ (snd _))) in *.
  change (map (map (fun d => if Rltb d 0 then Rmin d (- (1 / 100)) else d))
              (distances self x y))
    with (map (map clip) (distances self x y)) in Hs.
  destruct (sequence (map2 (satisfy_point dx dy) (combine x y)
                           (map (map clip) (distances self x y)))) as [moved|] eqn:E;
    [| discriminate].
  injection Hs as <-. cbn [BoundaryBaseComp.xs BoundaryBaseComp.ys].
  assert (Hdl : length (distances self x y) = length x).
  { unfold distances, calculate_distance_to_boundary.
    rewrite length_map, length_combine; lia. }
  assert (Hml : length moved = length x).
  { rewrite (sequence_length _ _ E), map2_length, length_combine, length_map. lia. }
  rewrite !length_map.
  split; [exact Hml | split; [exact Hml |]].
  intros i j Hi Hj.
  pose proof (sequence_nth_some _ _ i (0, 0) E) as Hp.
  rewrite map2_length, length_combine, length_map in Hp.
  specialize (Hp ltac:(lia)).
  rewrite (nth_map2 _ _ _ i (0, 0) []) in Hp
    by (rewrite ?length_combine, ?length_map; lia).
  rewrite combine_nth in Hp by exact Hxy.
  rewrite (nth_map_lt _ _ i []) in Hp by lia.
  destruct (convex_distance_raw hull n_wt0 xy bt self poly x y i j
              Hinit Hb Hopen Hxy Hi Hj) as [Hrow Hraw].
  pose proof (satisfy_point_linear dx dy _ _ _ j Hp
                ltac:(lia) ltac:(lia) ltac:(lia)) as Hlin.
  cbn [fst snd] in Hlin.
  destruct (Hg j Hj) as [Gx Gy]. rewrite Gx, Gy, Hraw in Hlin.
  destruct (convex_distance_raw hull n_wt0 xy bt self poly
              (map fst moved) (map snd moved) i j Hinit Hb Hopen
              ltac:(rewrite !length_map; reflexivity)
              ltac:(rewrite length_map; lia) Hj) as [_ Hnew].
  rewrite Hnew.
  rewrite (nth_map_lt _ _ i (0, 0)) by lia. rewrite (nth_map_lt _ _ i (0, 0)) by lia.
  set (p' := nth i moved (0, 0)) in *.
  replace (fst p', snd p')
    with (fst (nth i x 0, nth i y 0) + fst (fst p' - nth i x 0, snd p' - nth i y 0),
          snd (nth i x 0, nth i y 0) + snd (fst p' - nth i x 0, snd p' - nth i y 0))
    by (cbn [fst snd]; f_equal; ring).
  rewrite face_distance_affine. cbn [fst snd]. lra.
Qed.

(** ** Rectangle and square boundaries *)


Lemma box_face_distances (a b c d : R) (p : vec) :
  a < c -> b < d ->
  map (fun j => face_distance p (nth j (box a b c d) (0, 0)) (face_normal (box a b c d) j))
      (seq 0 4)
  = [snd p - b; c - fst p; d - snd p; fst p - a].
Proof.
  intros Hac Hbd. cbn [seq map].
  unfold face_normal, box; cbn [length Nat.sub Nat.ltb Nat.leb nth fst snd].
  unfold face_distance, vec_len, vdiv, vscale, vsub, dot; cbn [fst snd].
  rewrite (sqrt_of_square (c - a) ((b - b) ^ 2 + (- (c - a)) ^ 2)); [| lra | ring].
  rewrite (sqrt_of_square (d - b) ((d - b) ^ 2 + (- (c - c)) ^ 2)); [| lra | ring].
  rewrite (sqrt_of_square (c - a) ((d - d) ^ 2 + (- (a - c)) ^ 2)); [| lra | ring].
  rewrite (sqrt_of_square (d - b) ((b - d) ^ 2 + (- (a - a)) ^ 2)); [| lra | ring].
  repeat (f_equal; [field; lra |]). f_equal; field; lra.
Qed.

(** On a box boundary the distances of a point are its four margins:
    to the bottom, right, top and left side. *)
Lemma box_distances hull n_wt0 xy bt self (a b c d : R) (x y : list R) (i : nat) :
  init hull n_wt0 xy bt = Some self ->
  boundary_of hull bt xy = Some (box a b c d) ->
  a < c -> b < d ->
  length x = length y -> (i < length x)%nat ->
  nth i (distances self x y) []
  = [nth i y 0 - b; c - nth i x 0; d - nth i y 0; nth i x 0 - a].
Proof.
  intros Hinit Hb Hac Hbd Hxy Hi.
  assert (Hopen : hd (0, 0) (box a b c d) <> last (box a b c d) (0, 0)).
  { cbn. intros E; injection E; intros; lra. }
  pose proof (box_face_distances a b c d (nth i x 0, nth i y 0) Hac Hbd) as Hf.
  cbn [fst snd] in Hf. rewrite <- Hf. clear Hf.
  apply (nth_ext _ _ 0 0).
  - destruct (convex_distance_raw hull n_wt0 xy bt self _ x y i 0
                Hinit Hb Hopen Hxy Hi ltac:(cbn; lia)) as [Hl _].
    rewrite Hl. reflexivity.
  - intros j Hj.
    destruct (convex_distance_raw hull n_wt0 xy bt self _ x y i 0
                Hinit Hb Hopen Hxy Hi ltac:(cbn; lia)) as [Hl _].
    rewrite Hl in Hj. cbn [box length] in Hj.
    destruct (convex_distance_raw hull n_wt0 xy bt self _ x y i j
                Hinit Hb Hopen Hxy Hi ltac:(cbn; lia)) as [_ He].
    rewrite He.
    rewrite (nth_map_lt _ _ j 0%nat) by (rewrite length_seq; lia).
    rewrite seq_nth by lia. reflexivity.
Qed.

Lemma amax_from_upper (l : list R) (b : R) :
  b <= amax_from b l /\ forall v, In v l -> v <= amax_from b l.
Proof.
  revert b; induction l as [|w t IH]; intros b; cbn.
  - split; [lra | intros v []].
  - destruct (Rltb b w) eqn:E.
    + apply Rltb_spec in E. destruct (IH w) as [H1 H2]. split; [lra |].
      intros v [<- | Hv]; [assumption | apply H2; assumption].
    + assert (~ b < w) by (intros C; apply Rltb_spec in C; congruence).
      destruct (IH b) as [H1 H2]. split; [assumption |].
      intros v [<- | Hv]; [lra | apply H2; assumption].
Qed.

Lemma amax_upper (l : list R) (m : R) : amax l = Some m -> forall v, In v l -> v <= m.
Proof.
  destruct l as [|w t]; [discriminate |]; cbn; intros H; injection H as <-.
  destruct (amax_from_upper t w) as [H1 H2].
  intros v [<- | Hv]; [assumption | apply H2; assumption].
Qed.

Lemma min0_max0_bounds (xy : list vec) (lo hi : vec) :
  min0 xy = Some lo -> max0 xy = Some hi ->
  forall p, In p xy ->
            fst lo <= fst p <= fst hi /\ snd lo <= snd p <= snd hi.
Proof.
  unfold min0, max0.
  destruct (amin (map fst xy)) as [a|] eqn:E1; [| discriminate].
  destruct (amin (map snd xy)) as [b|] eqn:E2; [| discriminate].
  destruct (amax (map fst xy)) as [c|] eqn:E3; [| discriminate].
  destruct (amax (map snd xy)) as [d|] eqn:E4; [| discriminate].
  intros H1 H2 p Hp; injection H1 as <-; injection H2 as <-. cbn [fst snd].
  pose proof (amin_lower _ _ E1 (fst p) (in_map fst _ _ Hp)).
  pose proof (amin_lower _ _ E2 (snd p) (in_map snd _ _ Hp)).
  pose proof (amax_upper _ _ E3 (fst p) (in_map fst _ _ Hp)).
  pose proof (amax_upper _ _ E4 (snd p) (in_map snd _ _ Hp)).
  lra.
Qed.

Lemma min0_max0_some (xy : list vec) :
  xy <> [] -> exists lo hi, min0 xy = Some lo /\ max0 xy = Some hi.
Proof.
  destruct xy as [|p rest]; [intros H; contradiction | intros _].
  unfold min0, max0; cbn. eexists; eexists; split; reflexivity.
Qed.

(** The rectangle boundary is the bounding box of the given points. *)
Lemma rectangle_boundary hull (xy : list vec) (lo hi : vec) :
  min0 xy = Some lo -> max0 xy = Some hi ->
  boundary_of hull rectangle xy = Some (box (fst lo) (snd lo) (fst hi) (snd hi)).
Proof.
  intros H1 H2. unfold boundary_of. rewrite H1, H2.
  unfold box, vadd, vsub, vdiv; cbn [fst snd].
  f_equal. repeat (f_equal; try field).
Qed.

(** The square boundary is the box of side the larger extent about the
    center of the bounding box. *)
Lemma square_boundary hull (xy : list vec) (lo hi : vec) :
  min0 xy = Some lo -> max0 xy = Some hi ->
  let xc := fst lo + (fst hi - fst lo) / 2 in
  let yc := snd lo + (snd hi - snd lo) / 2 in
  let r := Rmax (fst hi - fst lo) (snd hi - snd lo) / 2 in
  boundary_of hull square xy = Some (box (xc - r) (yc - r) (xc + r) (yc + r)).
Proof.
  intros H1 H2 xc yc r. unfold boundary_of. rewrite H1, H2.
  unfold vadd, vsub, vdiv; cbn [fst snd]. fold xc yc.
  assert (Hr : (if Rltb (fst hi - fst lo) (snd hi - snd lo)
                then snd hi - snd lo else fst hi - fst lo) / 2 = r).
  { unfold r, Rmax. destruct (Rle_dec (fst hi - fst lo) (snd hi - snd lo)) as [C|C].
    - destruct (Rlt_dec (fst hi - fst lo) (snd hi - snd lo)) as [D|D].
      + rewrite (Rltb_true _ _ D); reflexivity.
      + rewrite (Rltb_false _ _ D). f_equal; lra.
    - rewrite Rltb_false by lra. reflexivity. }
  rewrite Hr. reflexivity.
Qed.

(** ** Unit normals and exact slopes *)

(** The normal of a face that is not degenerate is a unit vector. *)
Lemma face_normal_unit (poly : list vec) (j : nat) :
  nth j poly (0, 0) <> nth (next_vertex (length poly) j) poly (0, 0) ->
  fst (face_normal poly j) ^ 2 + snd (face_normal poly j) ^ 2 = 1.
Proof.
  intros Hne. unfold face_normal. fold (next_vertex (length poly) j).
  set (pj := nth j poly (0, 0)) in *.
  set (pn := nth (next_vertex (length poly) j) poly (0, 0)) in *.
  cbv zeta. set (v := (snd pn - snd pj, - (fst pn - fst pj))).
  assert (Hv : v <> (0, 0)).
  { unfold v. intros E; injection E as E1 E2. apply Hne.
    destruct pj, pn; cbn [fst snd] in *; f_equal; lra. }
  pose proof (vec_len_pos v Hv) as Hpos.
  pose proof (vec_len_sqr v) as Hsq.
  unfold vdiv; cbn [fst snd].
  replace ((fst v / vec_len v) ^ 2 + (snd v / vec_len v) ^ 2)
    with ((fst v ^ 2 + snd v ^ 2) / (vec_len v * vec_len v)) by (field; lra).
  rewrite <- Hsq. field; lra.
Qed.

Lemma face_gradient_unit (n : vec) :
  fst n ^ 2 + snd n ^ 2 = 1 ->
  face_gradient (-1, 0) n = - fst n /\ face_gradient (0, -1) n = - snd n.
Proof.
  intros Hn. unfold face_gradient, vscale, dot; cbn [fst snd].
  split.
  - replace (-1 * fst n + 0 * snd n) with (- fst n) by ring.
    replace (- fst n * fst n * fst n + - fst n * snd n * snd n)
      with (- fst n * (fst n ^ 2 + snd n ^ 2)) by ring.
    rewrite Hn; ring.
  - replace (0 * fst n + -1 * snd n) with (- snd n) by ring.
    replace (- snd n * fst n * fst n + - snd n * snd n * snd n)
      with (- snd n * (fst n ^ 2 + snd n ^ 2)) by ring.
    rewrite Hn; ring.
Qed.

Lemma convex_jacobian_shape hull n_wt0 xy bt self poly :
  init hull n_wt0 xy bt = Some self ->
  boundary_of hull bt xy = Some poly ->
  (0 < length poly)%nat ->
  has_shape (fst (gradients self [] [])) (n_wt0 * length poly) n_wt0
  /\ has_shape (snd (gradients self [] [])) (n_wt0 * length poly) n_wt0.
Proof.
  intros Hinit Hb Hp.
  destruct (convex_init_inv _ _ _ _ _ Hinit) as (poly' & Hb' & _ & _ & _ & _ & Hx & Hy).
  rewrite Hb in Hb'; injection Hb' as <-.
  unfold gradients; cbn [fst snd]. rewrite Hx, Hy.
  split; apply calculate_gradient_spec; exact Hp.
Qed.

(** The distances are affine in the position of each turbine, with the
    Jacobian entries as slopes. *)
Lemma convex_distances_affine hull n_wt0 xy bt self poly (x y hx hy : list R) (i j : nat) :
  init hull n_wt0 xy bt = Some self ->
  boundary_of hull bt xy = Some poly ->
  hd (0, 0) poly <> last poly (0, 0) ->
  length x = n_wt0 -> length y = n_wt0 -> length hx = n_wt0 -> length hy = n_wt0 ->
  (i < n_wt0)%nat -> (j < length poly)%nat ->
  nth j (nth i (distances self (map2 Rplus x hx) (map2 Rplus y hy)) []) 0
  = nth j (nth i (distances self x y) []) 0
    + nth i hx 0 * nth i (nth (i * length poly + j) (fst (gradients self x y)) []) 0
    + nth i hy 0 * nth i (nth (i * length poly + j) (snd (gradients self x y)) []) 0.
Proof.
  intros Hinit Hb Hopen Hx Hy Hhx Hhy Hi Hj.
  destruct (convex_distance_raw hull n_wt0 xy bt self poly
              (map2 Rplus x hx) (map2 Rplus y hy) i j Hinit Hb Hopen) as [_ E1];
    [rewrite !map2_length; lia | rewrite map2_length; lia | exact Hj |].
  destruct (convex_distance_raw hull n_wt0 xy bt self poly x y i j Hinit Hb Hopen)
    as [_ E2]; [lia | lia | exact Hj |].
  destruct (convex_jacobian_entry hull n_wt0 xy bt self poly i j i Hinit Hb Hi Hj Hi)
    as [Gx Gy].
  rewrite Nat.eqb_refl in Gx, Gy.
  change (gradients self x y) with (gradients self [] []).
  rewrite E1, E2, Gx, Gy.
  rewrite !(nth_map2 _ _ _ i 0 0) by lia.
  apply (face_distance_affine (nth i x 0, nth i y 0) (nth i hx 0, nth i hy 0)).
Qed.

Lemma satisfy_point_returns (dx dy d_i : list R) (p : vec) :
  admissible_move dx dy d_i -> exists p', satisfy_point dx dy p d_i = Some p'.
Proof.
  unfold admissible_move, satisfy_point, smallest_move.
  destruct (amin d_i) as [dmin|]; [| contradiction].
  intros H. destruct (Rltb dmin 0) eqn:E; [| eexists; reflexivity].
  apply Rltb_spec in E. destruct (H E) as (g & Hin & Hm).
  set (cand := filter _ _).
  assert (Hc : In g cand) by (apply filter_In; split; assumption).
  destruct (argmin_nonempty (map (fun g => fst g ^ 2 + snd g ^ 2) cand)) as [k Hk].
  { destruct cand; [contradiction | discriminate]. }
  rewrite Hk. eexists; reflexivity.
Qed.

Lemma sequence_all_some {A : Type} (l : list (option A)) :
  (forall o, In o l -> exists a, o = Some a) -> exists r, sequence l = Some r.
Proof.
  induction l as [|o l IH]; intros H; [eexists; reflexivity |].
  destruct (H o (or_introl eq_refl)) as [a ->].
  destruct IH as [r Hr]; [intros o' Ho'; apply H; right; exact Ho' |].
  cbn [sequence]. rewrite Hr. eexists; reflexivity.
Qed.

(** [satisfy] returns a state when every point that needs a displacement
    has an admissible one on its grid. *)
Lemma convex_satisfy_returns (self : t) (state : BoundaryBaseComp.State) (pad : R) :
  let x := BoundaryBaseComp.xs state in
  let y := BoundaryBaseComp.ys state in
  (forall i, (i < length x)%nat -> (i < length y)%nat ->
     admissible_move (fst (first_turbine_gradients self)) (snd (first_turbine_gradients self))
                     (map clip (nth i (distances self x y) []))) ->
  exists state', satisfy self state pad = Some state'.
Proof.
  intros x y H. unfold satisfy. fold x y.
  change (map (map (fun d => if Rltb d 0 then Rmin d (- (1 / 100)) else d))
              (distances self x y))
    with (map (map clip) (distances self x y)).
  unfold gradients; cbn [fst snd].
  change (map (fun row => nth 0 row 0) (firstn (nVertices self) (dfaceDistance_dx self)))
    with (fst (first_turbine_gradients self)).
  change (map (fun row => nth 0 row 0) (firstn (nVertices self) (dfaceDistance_dy self)))
    with (snd (first_turbine_gradients self)).
  destruct (sequence_all_some
              (map2 (satisfy_point (fst (first_turbine_gradients self))
                                   (snd (first_turbine_gradients self)))
                    (combine x y) (map (map clip) (distances self x y)))) as [r Hr].
  - intros o Ho. destruct (In_nth _ _ None Ho) as (i & Hi & <-).
    rewrite map2_length, length_combine, length_map in Hi.
    assert (Hdl : length (distances self x y) = length (combine x y)).
    { unfold distances, calculate_distance_to_boundary. rewrite length_map. reflexivity. }
    rewrite Hdl, length_combine in Hi.
    rewrite (nth_map2 _ _ _ i (0, 0) [])
      by (rewrite ?length_combine, ?length_map, ?Hdl, ?length_combine; lia).
    rewrite (nth_map_lt _ _ i []) by (rewrite Hdl, length_combine; lia).
    apply satisfy_point_returns, H; lia.
  - rewrite Hr. eexists; reflexivity.
Qed.

(** Construction succeeds on every boundary polygon that is not empty. *)
Lemma convex_init_ok hull n_wt0 xy bt poly :
  boundary_of hull bt xy = Some poly -> poly <> [] ->
  exists self, init hull n_wt0 xy bt = Some self.
Proof.
  intros Hb Hp. unfold init, calculate_boundary_and_normals. rewrite Hb.
  destruct poly as [|p rest]; [contradiction |].
  unfold BoundaryBaseComp.close_ring.
  destruct (negb (veqb p (last (p :: rest) p))); eexists; reflexivity.
Qed.

(** The square ring as a rectangle boundary. *)
Lemma square_ring_extent : min0 square_ring = Some (0, 0) /\ max0 square_ring = Some (10, 10).
Proof.
  unfold min0, max0, amin, amax, square_ring; cbn [map fst snd amin_from amax_from].
  decide_cmp. cbn [amin_from amax_from]. decide_cmp. split; reflexivity.
Qed.

Lemma Forall_four (P : R -> Prop) (a b c d : R) :
  P a -> P b -> P c -> P d -> forall v, In v [a; b; c; d] -> P v.
Proof. intros Ha Hb Hc Hd v [<- | [<- | [<- | [<- | []]]]]; assumption. Qed.

Lemma rectangle_margins hull n_wt0 xy self (lo hi : vec) (x y : list R) (i : nat) :
  init hull n_wt0 xy rectangle = Some self ->
  min0 xy = Some lo -> max0 xy = Some hi ->
  fst lo < fst hi -> snd lo < snd hi ->
  length x = length y -> (i < length x)%nat ->
  nth i (distances self x y) []
  = [nth i y 0 - snd lo; fst hi - nth i x 0; snd hi - nth i y 0; nth i x 0 - fst lo]
  /\ (In (nth i x 0, nth i y 0) xy ->
      forall d, In d (nth i (distances self x y) []) -> 0 <= d).
Proof.
  intros Hinit Hlo Hhi Hx Hy Hxy Hi.
  pose proof (rectangle_boundary hull xy lo hi Hlo Hhi) as Hb.
  pose proof (box_distances hull n_wt0 xy rectangle self _ _ _ _ x y i Hinit Hb Hx Hy Hxy Hi)
    as Hd.
  split; [exact Hd |].
  intros Hin. rewrite Hd.
  destruct (min0_max0_bounds xy lo hi Hlo Hhi _ Hin) as [H1 H2]. cbn [fst snd] in H1, H2.
  apply Forall_four; lra.
Qed.

Lemma square_margins hull n_wt0 xy self (lo hi : vec) (x y : list R) (i : nat) :
  init hull n_wt0 xy square = Some self ->
  min0 xy = Some lo -> max0 xy = Some hi ->
  fst lo < fst hi \/ snd lo < snd hi ->
  length x = length y -> (i < length x)%nat ->
  let xc := fst lo + (fst hi - fst lo) / 2 in
  let yc := snd lo + (snd hi - snd lo) / 2 in
  let r := Rmax (fst hi - fst lo) (snd hi - snd lo) / 2 in
  nth i (distances self x y) []
  = [nth i y 0 - (yc - r); xc + r - nth i x 0; yc + r - nth i y 0; nth i x 0 - (xc - r)]
  /\ (In (nth i x 0, nth i y 0) xy ->
      forall d, In d (nth i (distances self x y) []) -> 0 <= d).
Proof.
  intros Hinit Hlo Hhi Hext Hxy Hi xc yc r.
  pose proof (square_boundary hull xy lo hi Hlo Hhi) as Hb. cbv zeta in Hb. fold xc yc r in Hb.
  pose proof (Rmax_l (fst hi - fst lo) (snd hi - snd lo)) as Hl.
  pose proof (Rmax_r (fst hi - fst lo) (snd hi - snd lo)) as Hr.
  assert (Hpos : 0 < r) by (unfold r; lra).
  pose proof (box_distances hull n_wt0 xy square self _ _ _ _ x y i Hinit Hb
                            ltac:(lra) ltac:(lra) Hxy Hi) as Hd.
  split; [exact Hd |].
  intros Hin. rewrite Hd.
  destruct (min0_max0_bounds xy lo hi Hlo Hhi _ Hin) as [H1 H2]. cbn [fst snd] in H1, H2.
  apply Forall_four; unfold xc, yc, r; lra.
Qed.

Lemma mask_intro (dx dy d_i : list R) (g : vec) :
  length dx = length d_i -> length dy = length d_i ->
  (forall k, (k < length d_i)%nat ->
             - nth k d_i 0 <= fst g * nth k dx 0 + snd g * nth k dy 0) ->
  mask dx dy d_i g = true.
Proof.
  intros Hx Hy H. unfold mask. apply forallb_forall. intros c Hc.
  destruct (In_nth _ _ ((0, 0), 0) Hc) as (k & Hk & <-).
  rewrite !length_combine in Hk.
  rewrite !nth_combine_lt by (rewrite ?length_combine; lia).
  cbn [fst snd]. apply Rleb_true. apply H. lia.
Qed.

Lemma meshgrid_In (v : list R) (a b : R) : In a v -> In b v -> In (a, b) (meshgrid v).
Proof.
  intros Ha Hb. unfold meshgrid. apply in_flat_map. exists b. split; [exact Hb |].
  apply in_map_iff. exists a. split; [reflexivity | exact Ha].
Qed.

Lemma linspace_first (a b : R) (num : nat) : (2 <= num)%nat -> In a (linspace a b num).
Proof.
  intros Hn. unfold linspace. apply in_map_iff. exists 0%nat. split.
  - replace (Nat.eqb 0 (num - 1)) with false by (symmetry; apply Nat.eqb_neq; lia).
    cbn [INR]. lra.
  - apply in_seq. lia.
Qed.

(** The slopes of the four face distances of a box: up, left, down and
    right. *)
Lemma box_face_gradients (a b c d : R) (j : nat) :
  a < c -> b < d -> (j < 4)%nat ->
  (face_gradient (-1, 0) (face_normal (box a b c d) j),
   face_gradient (0, -1) (face_normal (box a b c d) j))
  = nth j [(0, 1); (-1, 0); (0, -1); (1, 0)] (0, 0).
Proof.
  intros Hac Hbd Hj.
  assert (Hcases : j = 0%nat \/ j = 1%nat \/ j = 2%nat \/ j = 3%nat) by lia.
  unfold face_gradient, vscale, dot.
  destruct Hcases as [-> | [-> | [-> | ->]]];
    unfold face_normal, box; cbn [length Nat.sub Nat.ltb Nat.leb nth fst snd];
    unfold vec_len, vdiv; cbn [fst snd].
  - rewrite (sqrt_of_square (c - a) ((b - b) ^ 2 + (- (c - a)) ^ 2)); [| lra | ring].
    f_equal; field; lra.
  - rewrite (sqrt_of_square (d - b) ((d - b) ^ 2 + (- (c - c)) ^ 2)); [| lra | ring].
    f_equal; field; lra.
  - rewrite (sqrt_of_square (c - a) ((d - d) ^ 2 + (- (a - c)) ^ 2)); [| lra | ring].
    f_equal; field; lra.
  - rewrite (sqrt_of_square (d - b) ((b - d) ^ 2 + (- (a - a)) ^ 2)); [| lra | ring].
    f_equal; field; lra.
Qed.

(** The rectangle component over the square ring, and the point (15, 5)
    to the right of it: the displacement (-5, -5) is on the grid and meets
    the four face constraints. *)
Lemma square_rectangle_scenario :
  exists self,
    init (fun _ => []) 1 square_ring rectangle = Some self
    /\ boundary_of (fun _ => []) rectangle square_ring = Some (box 0 0 10 10)
    /\ distances self [15] [5] = [[5; -5; 5; 15]]
    /\ admissible_move (fst (first_turbine_gradients self))
                       (snd (first_turbine_gradients self))
                       (map clip [5; -5; 5; 15]).
Proof.
  destruct square_ring_extent as [Hlo Hhi].
  pose proof (rectangle_boundary (fun _ => []) square_ring (0, 0) (10, 10) Hlo Hhi) as Hb.
  cbn [fst snd] in Hb.
  destruct (convex_init_ok (fun _ => []) 1 square_ring rectangle _ Hb ltac:(discriminate))
    as [self Hinit].
  exists self. split; [exact Hinit | split; [exact Hb |]].
  assert (Hd : distances self [15] [5] = [[5; -5; 5; 15]]).
  { pose proof (box_distances (fun _ => []) 1 square_ring rectangle self 0 0 10 10 [15] [5] 0
                              Hinit Hb ltac:(lra) ltac:(lra) eq_refl ltac:(cbn; lia)) as H0.
    cbn [nth] in H0.
    assert (Hl : length (distances self [15] [5]) = 1%nat).
    { unfold distances, calculate_distance_to_boundary. rewrite length_map. reflexivity. }
    destruct (distances self [15] [5]) as [|row rest]; [discriminate |].
    destruct rest; [| discriminate]. cbn [nth] in H0. rewrite H0.
    repeat (f_equal; try lra). }
  split; [exact Hd |].
  destruct (satisfy_face_gradients (fun _ => []) 1 square_ring rectangle self _ [] []
              Hinit Hb ltac:(lia)) as (Hdx & Hdy & Hg).
  change (map (fun row => nth 0 row 0) (firstn (nVertices self) (fst (gradients self [] []))))
    with (fst (first_turbine_gradients self)) in Hdx, Hg.
  change (map (fun row => nth 0 row 0) (firstn (nVertices self) (snd (gradients self [] []))))
    with (snd (first_turbine_gradients self)) in Hdy, Hg.
  set (dx := fst (first_turbine_gradients self)) in *.
  set (dy := snd (first_turbine_gradients self)) in *.
  assert (Hclip : map clip [5; -5; 5; 15] = [5; -5; 5; 15]).
  { unfold clip; cbn [map]. decide_cmp.
    replace (Rmin (-5) (- (1 / 100))) with (-5)
      by (symmetry; apply Rmin_left; lra).
    reflexivity. }
  rewrite Hclip. unfold admissible_move.
  assert (Hmin : amin [5; -5; 5; 15] = Some (-5)).
  { unfold amin; cbn [amin_from]. decide_cmp. cbn [amin_from]. decide_cmp. reflexivity. }
  rewrite Hmin. intros _.
  replace (Rabs (-5)) with 5 by (rewrite Rabs_left; lra).
  exists (-5, -5). split.
  - apply meshgrid_In; apply linspace_first; lia.
  - apply mask_intro; [exact Hdx | exact Hdy |].
    intros k Hk. cbn [length box] in Hk, Hg.
    destruct (Hg k Hk) as [Gx Gy].
    pose proof (box_face_gradients 0 0 10 10 k ltac:(lra) ltac:(lra) Hk) as Hbox.
    rewrite <- Gx, <- Gy in Hbox.
    assert (Hcases : k = 0%nat \/ k = 1%nat \/ k = 2%nat \/ k = 3%nat) by lia.
    destruct Hcases as [-> | [-> | [-> | ->]]]; cbn [nth] in Hbox |- *;
      injection Hbox as -> ->; cbn [fst snd]; lra.
Qed.



Lemma wide_triangle_extent :
  ConvexBoundaryComp.min0 wide_triangle = Some (0, 0)
  /\ ConvexBoundaryComp.max0 wide_triangle = Some (10, 4).
Proof.
  unfold ConvexBoundaryComp.min0, ConvexBoundaryComp.max0, amin, ConvexBoundaryComp.amax,
    wide_triangle;
    cbn [map fst snd amin_from ConvexBoundaryComp.amax_from].
  decide_cmp. cbn [amin_from ConvexBoundaryComp.amax_from]. decide_cmp. split; reflexivity.
Qed.

End ConvexFacts.

Section PolygonFacts.

Import PolygonBoundaryComp.

(** ** The edge table of a ring *)

Lemma nth_removelast {A : Type} (l : list A) (j : nat) (d : A) :
  (j < length l - 1)%nat -> nth j (removelast l) d = nth j l d.
Proof.
  revert j; induction l as [|a t IH]; intros j Hj; [reflexivity |].
  destruct t as [|b t']; [cbn in Hj; lia |].
  change (removelast (a :: b :: t')) with (a :: removelast (b :: t')).
  destruct j as [|j]; [reflexivity |].
  cbn [nth]. apply IH. cbn [length] in *. lia.
Qed.

Lemma nth_tl {A : Type} (l : list A) (j : nat) (d : A) : nth j (tl l) d = nth (S j) l d.
Proof. destruct l; [destruct j; reflexivity | reflexivity]. Qed.

Lemma nth_last {A : Type} (l : list A) (d : A) : nth (length l - 1) l d = last l d.
Proof.
  induction l as [|a t IH]; [reflexivity |].
  destruct t as [|b t']; [reflexivity |].
  change (last (a :: b :: t') d) with (last (b :: t') d). rewrite <- IH.
  cbn [length Nat.sub]. rewrite Nat.sub_0_r. reflexivity.
Qed.

Lemma nth_roll1 {A : Type} (l : list A) (j : nat) (d : A) :
  (j < length l)%nat ->
  nth j (roll1 l) d = nth (if Nat.eqb j 0 then length l - 1 else j - 1)%nat l d.
Proof.
  intros Hj. destruct l as [|a t]; [cbn in Hj; lia |].
  unfold roll1. destruct j as [|j].
  - change (Nat.eqb 0 0) with true. cbv iota.
    rewrite (nth_last (a :: t) d).
    change (nth 0 (last (a :: t) a :: removelast (a :: t)) d) with (last (a :: t) a).
    apply last_nonempty_indep. discriminate.
  - change (Nat.eqb (S j) 0) with false. cbv iota.
    change (nth (S j) (last (a :: t) a :: removelast (a :: t)) d)
      with (nth j (removelast (a :: t)) d).
    rewrite nth_removelast by lia.
    replace (S j - 1)%nat with j by lia. reflexivity.
Qed.

Lemma nth_roll_1 {A : Type} (l : list A) (j : nat) (d : A) :
  (j < length l)%nat ->
  nth j (roll_1 l) d = nth (if Nat.eqb (S j) (length l) then 0 else S j)%nat l d.
Proof.
  intros Hj. destruct l as [|a t]; [cbn in Hj; lia |].
  unfold roll_1. cbn [length] in *.
  destruct (Nat.eqb (S j) (S (length t))) eqn:E.
  - apply Nat.eqb_eq in E. rewrite app_nth2 by lia.
    replace (j - length t)%nat with 0%nat by lia. reflexivity.
  - apply Nat.eqb_neq in E. rewrite app_nth1 by lia. reflexivity.
Qed.

Lemma roll1_length {A : Type} (l : list A) : length (roll1 l) = length l.
Proof.
  destruct l as [|a t]; [reflexivity |]. unfold roll1. cbn [length].
  rewrite removelast_length. cbn [length]. lia.
Qed.

(** Row [j] of the edge table. *)
Lemma edge_table_nth (As Bs : list vec) (j : nat) (d : edge) :
  (j < length As)%nat ->
  let ABs := map2 (fun b a => vsub b a) Bs As in
  let lens := map vec_len ABs in
  let normals := map2 (fun ab l => vdiv (- snd ab, fst ab) l) ABs lens in
  let A_normals := map2 (fun n m => vdiv (vadd n m) 2) normals (roll1 normals) in
  nth j (edge_table As Bs) d
  = mkEdge (nth j As zero_vec) (nth j Bs zero_vec) (nth j ABs zero_vec) (nth j lens 0)
           (nth j normals zero_vec) (nth j A_normals zero_vec)
           (nth j (roll_1 A_normals) zero_vec).
Proof.
  intros Hj. cbv zeta. unfold edge_table.
  rewrite (nth_map_lt _ _ j 0%nat) by (rewrite length_seq; exact Hj).
  rewrite seq_nth by exact Hj. reflexivity.
Qed.

(** The unit normal of an edge that is not degenerate has length one, is
    perpendicular to the edge and points to its left. *)
Lemma unit_normal_of_edge (e : edge) :
  well_formed_edge e -> A e <> B e ->
  0 < AB_len e
  /\ vec_len (edge_unit_normal e) = 1
  /\ dot (AB e) (edge_unit_normal e) = 0
  /\ fst (AB e) * snd (edge_unit_normal e) - snd (AB e) * fst (edge_unit_normal e)
     = AB_len e.
Proof.
  intros (HAB & HL & Hn) Hne.
  assert (Hnz : AB e <> (0, 0)).
  { rewrite HAB. unfold vsub. intros E; injection E as E1 E2. apply Hne.
    destruct (A e), (B e); cbn [fst snd] in *; f_equal; lra. }
  pose proof (vec_len_pos _ Hnz) as Hpos. rewrite <- HL in Hpos.
  pose proof (vec_len_sqr (AB e)) as Hsq. rewrite <- HL in Hsq.
  split; [exact Hpos |].
  rewrite Hn. unfold vdiv, dot; cbn [fst snd].
  split; [| split].
  - unfold vec_len; cbn [fst snd]. apply sqrt_of_square; [lra |].
    replace ((- snd (AB e) / AB_len e) ^ 2 + (fst (AB e) / AB_len e) ^ 2)
      with ((fst (AB e) ^ 2 + snd (AB e) ^ 2) / (AB_len e * AB_len e))
      by (field; lra).
    rewrite <- Hsq. field; lra.
  - field; lra.
  - replace (fst (AB e) * (fst (AB e) / AB_len e) - snd (AB e) * (- snd (AB e) / AB_len e))
      with ((fst (AB e) ^ 2 + snd (AB e) ^ 2) / AB_len e) by (field; lra).
    rewrite <- Hsq. field; lra.
Qed.


(** The edges of a closed ring form a closed chain through its vertices,
    and the two edges that meet at a vertex share its normal. *)
Lemma edge_table_chain (ring : list vec) (j : nat) (d : edge) :
  is_closed ring ->
  let edges := edge_table (removelast ring) (tl ring) in
  (j < length edges)%nat ->
  length edges = (length ring - 1)%nat
  /\ A (nth j edges d) = nth j ring (0, 0)
  /\ B (nth j edges d) = nth (S j) ring (0, 0)
  /\ B (nth j edges d) = A (nth (next_edge (length edges) j) edges d)
  /\ B_normal (nth j edges d) = A_normal (nth (next_edge (length edges) j) edges d).
Proof.
  intros Hc edges Hj. unfold edges in *. clear edges.
  rewrite edge_table_length, removelast_length in *.
  assert (Hn : (next_edge (length ring - 1) j < length (removelast ring))%nat).
  { rewrite removelast_length. unfold next_edge.
    destruct (Nat.eqb (S j) (length ring - 1)) eqn:E; [lia |].
    apply Nat.eqb_neq in E. lia. }
  rewrite !edge_table_nth by first [exact Hn | rewrite removelast_length; exact Hj].
  cbn [A B A_normal B_normal].
  fold zero_vec.
  split; [reflexivity |].
  assert (HA : forall k, (k < length ring - 1)%nat ->
                         nth k (removelast ring) zero_vec = nth k ring zero_vec).
  { intros k Hk. apply nth_removelast; exact Hk. }
  split; [apply HA; exact Hj |].
  split; [apply nth_tl |].
  split.
  - rewrite nth_tl. rewrite removelast_length in Hn. rewrite HA by exact Hn.
    unfold next_edge. destruct (Nat.eqb (S j) (length ring - 1)) eqn:E; [| reflexivity].
    apply Nat.eqb_eq in E. rewrite E. unfold zero_vec. rewrite nth_last.
    unfold is_closed in Hc. rewrite <- Hc. destruct ring; reflexivity.
  - set (An := map2 _ _ (roll1 _)).
    assert (HAn : length An = (length ring - 1)%nat).
    { unfold An. rewrite !map2_length, roll1_length, !map2_length, length_map, map2_length.
      rewrite removelast_length, tl_length. lia. }
    rewrite nth_roll_1 by (rewrite HAn; exact Hj).
    rewrite HAn. reflexivity.
Qed.

(** ** Distance and gradient against one edge *)

Lemma dot_self (v : vec) : dot v v = vec_len v * vec_len v.
Proof. rewrite vec_len_sqr. unfold dot. ring. Qed.

Lemma vsub_zero_iff (p q : vec) : vsub p q = (0, 0) <-> p = q.
Proof.
  unfold vsub; destruct p, q; cbn [fst snd]. split.
  - intros E; injection E as E1 E2. f_equal; lra.
  - intros E; injection E as -> ->. f_equal; lra.
Qed.

(** Before the start of an edge the point is off the start vertex, and
    beyond its end it is off the end vertex. *)
Lemma off_vertex (P : vec) (e : edge) :
  well_formed_edge e -> A e <> B e ->
  let t := dot (vsub P (A e)) (AB e) / vec_len (AB e) in
  (t < 0 -> 0 < vec_len (vsub P (A e)))
  /\ (vec_len (AB e) < t -> 0 < vec_len (vsub P (B e))).
Proof.
  intros Hwf Hne t.
  destruct (unit_normal_of_edge e Hwf Hne) as (Hpos & _).
  destruct Hwf as (HAB & HL & _). rewrite HL in Hpos.
  split; intros Ht; apply vec_len_pos; intros E.
  - unfold t in Ht. rewrite E in Ht. unfold dot in Ht; cbn [fst snd] in Ht.
    replace ((0 * fst (AB e) + 0 * snd (AB e)) / vec_len (AB e)) with 0 in Ht
      by (field; lra).
    lra.
  - apply (proj1 (vsub_zero_iff P (B e))) in E. unfold t in Ht. rewrite E, <- HAB, dot_self in Ht.
    replace (vec_len (AB e) * vec_len (AB e) / vec_len (AB e)) with (vec_len (AB e)) in Ht
      by (field; lra).
    lra.
Qed.

Lemma side_sqr (AP normal : vec) : side AP normal * side AP normal = 1.
Proof. destruct (side_cases AP normal) as [-> | ->]; ring. Qed.

Lemma unit_vector_sqr (v : vec) (s : R) :
  0 < vec_len v -> s * s = 1 ->
  (s * (fst v / vec_len v)) ^ 2 + (s * (snd v / vec_len v)) ^ 2 = 1.
Proof.
  intros Hv Hs.
  replace ((s * (fst v / vec_len v)) ^ 2 + (s * (snd v / vec_len v)) ^ 2)
    with (s * s * ((fst v ^ 2 + snd v ^ 2) / (vec_len v * vec_len v))) by (field; lra).
  rewrite <- vec_len_sqr, Hs. field; lra.
Qed.

(** Against an edge that is not degenerate the gradient is a unit vector,
    whichever feature is nearest. *)
Lemma edge_gradient_unit (P : vec) (e : edge) :
  well_formed_edge e -> A e <> B e ->
  snd (fst (edge_distance_and_gradient P e)) ^ 2
  + snd (edge_distance_and_gradient P e) ^ 2 = 1.
Proof.
  intros Hwf Hne.
  destruct (edge_classification P e Hwf) as (H1 & H2 & H3).
  destruct (off_vertex P e Hwf Hne) as [HA HB].
  destruct (unit_normal_of_edge e Hwf Hne) as (_ & Hn & _).
  set (t := dot (vsub P (A e)) (AB e) / vec_len (AB e)) in *.
  destruct (Rlt_dec t 0) as [C|C].
  - destruct (H1 C) as [-> _]. cbn [fst snd].
    apply unit_vector_sqr; [apply HA; exact C | apply side_sqr].
  - destruct (Rlt_dec (vec_len (AB e)) t) as [D|D].
    + destruct (H2 D) as [-> _]. cbn [fst snd].
      apply unit_vector_sqr; [apply HB; exact D | apply side_sqr].
    + rewrite H3 by lra. cbn [fst snd].
      rewrite <- vec_len_sqr, Hn. ring.
Qed.

(** A point of an edge has distance zero to it. *)
Lemma edge_on_segment_zero (P : vec) (e : edge) (t : R) :
  well_formed_edge e -> A e <> B e -> 0 <= t <= 1 ->
  P = vadd (A e) (vscale t (AB e)) ->
  edge_distance P e = 0.
Proof.
  intros Hwf Hne Ht HP.
  destruct (edge_classification P e Hwf) as (_ & _ & H3).
  destruct (unit_normal_of_edge e Hwf Hne) as (Hpos & _).
  destruct Hwf as (HAB & HL & _). rewrite HL in Hpos.
  assert (HAP : vsub P (A e) = vscale t (AB e)).
  { rewrite HP. unfold vsub, vadd, vscale; cbn [fst snd]. f_equal; ring. }
  assert (Hdot : dot (vsub P (A e)) (AB e) / vec_len (AB e) = t * vec_len (AB e)).
  { rewrite HAP. unfold vscale, dot; cbn [fst snd].
    replace (t * fst (AB e) * fst (AB e) + t * snd (AB e) * snd (AB e))
      with (t * (fst (AB e) ^ 2 + snd (AB e) ^ 2)) by ring.
    rewrite <- vec_len_sqr. field; lra. }
  unfold edge_distance. rewrite H3.
  - cbn [fst]. unfold signed_perpendicular_distance.
    assert (E1 : fst P - fst (A e) = t * fst (AB e))
      by (change (fst (vsub P (A e)) = t * fst (AB e)); rewrite HAP; reflexivity).
    assert (E2 : snd P - snd (A e) = t * snd (AB e))
      by (change (snd (vsub P (A e)) = t * snd (AB e)); rewrite HAP; reflexivity).
    rewrite E1, E2.
    change (fst (B e) - fst (A e)) with (fst (vsub (B e) (A e))).
    change (snd (B e) - snd (A e)) with (snd (vsub (B e) (A e))).
    rewrite <- HAB. field; lra.
  - rewrite Hdot. split; [apply Rmult_le_pos; lra |].
    rewrite <- (Rmult_1_l (vec_len (AB e))) at 2.
    apply Rmult_le_compat_r; lra.
Qed.


(** Where the update of [satisfy] takes a point, by nearest feature of an
    edge: across the edge to the depth [(1 - pad) * distance] without any
    shift along the edge, or through the nearest vertex. *)
Lemma moved_across_edge (pad : R) (P : vec) (e : edge) :
  well_formed_edge e -> A e <> B e ->
  let t := dot (vsub P (A e)) (AB e) / vec_len (AB e) in
  let P' := moved_point pad P (edge_distance_and_gradient P e) in
  (t < 0 -> vsub P' (A e) = vscale (1 - pad) (vsub P (A e)))
  /\ (vec_len (AB e) < t -> vsub P' (B e) = vscale (1 - pad) (vsub P (B e)))
  /\ (0 <= t <= vec_len (AB e) ->
      dot (vsub P' (A e)) (edge_unit_normal e) = (1 - pad) * edge_distance P e
      /\ dot (vsub P' (A e)) (AB e) = dot (vsub P (A e)) (AB e)).
Proof.
  intros Hwf Hne t P'.
  destruct (edge_classification P e Hwf) as (H1 & H2 & H3).
  destruct (off_vertex P e Hwf Hne) as [HA HB].
  destruct (unit_normal_of_edge e Hwf Hne) as (_ & Hn & Hperp & _).
  fold t in H1, H2, H3, HA, HB. unfold P', moved_point, edge_distance.
  split; [| split].
  - intros C. destruct (H1 C) as [-> _]. specialize (HA C).
    pose proof (side_sqr (vsub P (A e)) (A_normal e)) as Hs.
    set (s := side (vsub P (A e)) (A_normal e)) in *.
    unfold vsub, vscale in *; cbn [fst snd] in *.
    set (L := vec_len (fst P - fst (A e), snd P - snd (A e))) in *.
    f_equal.
    + replace (fst P - s * ((fst P - fst (A e)) / L) * (L * s) * pad - fst (A e))
        with ((fst P - fst (A e)) * (1 - s * s * pad)) by (field; lra).
      rewrite Hs. ring.
    + replace (snd P - s * ((snd P - snd (A e)) / L) * (L * s) * pad - snd (A e))
        with ((snd P - snd (A e)) * (1 - s * s * pad)) by (field; lra).
      rewrite Hs. ring.
  - intros C. destruct (H2 C) as [-> _]. specialize (HB C).
    pose proof (side_sqr (vsub P (B e)) (B_normal e)) as Hs.
    set (s := side (vsub P (B e)) (B_normal e)) in *.
    unfold vsub, vscale in *; cbn [fst snd] in *.
    set (L := vec_len (fst P - fst (B e), snd P - snd (B e))) in *.
    f_equal.
    + replace (fst P - s * ((fst P - fst (B e)) / L) * (L * s) * pad - fst (B e))
        with ((fst P - fst (B e)) * (1 - s * s * pad)) by (field; lra).
      rewrite Hs. ring.
    + replace (snd P - s * ((snd P - snd (B e)) / L) * (L * s) * pad - snd (B e))
        with ((snd P - snd (B e)) * (1 - s * s * pad)) by (field; lra).
      rewrite Hs. ring.
  - intros C. rewrite (H3 C). cbn [fst snd].
    set (d := signed_perpendicular_distance (A e) (B e) P).
    assert (Hd : dot (vsub P (A e)) (edge_unit_normal e) = d).
    { pose proof (H3 C) as E. unfold edge_distance_and_gradient in E.
      fold t in E.
      destruct Hwf as (_ & HL & _). rewrite HL in E. fold t in E.
      rewrite (Rltb_false t 0) in E by lra.
      rewrite (Rltb_false (vec_len (AB e)) t) in E by lra.
      injection E as E. exact E. }
    pose proof (vec_len_sqr (edge_unit_normal e)) as Hsq. rewrite Hn in Hsq.
    unfold dot, vsub in *; cbn [fst snd] in *.
    set (nx := fst (edge_unit_normal e)) in *. set (ny := snd (edge_unit_normal e)) in *.
    split.
    + replace ((fst P - nx * d * pad - fst (A e)) * nx + (snd P - ny * d * pad - snd (A e)) * ny)
        with (((fst P - fst (A e)) * nx + (snd P - snd (A e)) * ny)
              - d * pad * (nx ^ 2 + ny ^ 2)) by ring.
      rewrite Hd, <- Hsq. ring.
    + replace ((fst P - nx * d * pad - fst (A e)) * fst (AB e)
               + (snd P - ny * d * pad - snd (A e)) * snd (AB e))
        with (((fst P - fst (A e)) * fst (AB e) + (snd P - snd (A e)) * snd (AB e))
              - d * pad * (fst (AB e) * nx + snd (AB e) * ny)) by ring.
      rewrite Hperp. ring.
Qed.

(** ** Queries of the polygon component *)

(** What [reports_nearest] says of point [i], with the nearest edge as a
    member of the table. *)
Lemma reported_edge (edges : list edge) (x y dist dx dy : list R) (i : nat) :
  reports_nearest edges x y (dist, dx, dy) -> (i < length x)%nat ->
  exists e,
    In e edges
    /\ (nth i dist 0, nth i dx 0, nth i dy 0)
       = edge_distance_and_gradient (nth i x 0, nth i y 0) e
    /\ forall e', In e' edges ->
         Rabs (nth i dist 0) <= Rabs (edge_distance (nth i x 0, nth i y 0) e').
Proof.
  intros (_ & _ & _ & H) Hi.
  destruct (H i Hi) as (k & (Hk & Hmin & _) & He).
  rewrite length_map in Hk.
  destruct edges as [|e0 rest] eqn:Ee; [cbn in Hk; lia |]. rewrite <- Ee in *.
  assert (Hin0 : In e0 edges) by (rewrite Ee; left; reflexivity).
  exists (nth k edges e0). split; [apply nth_In; exact Hk |].
  split; [apply He |].
  intros e' He'. destruct (In_nth _ _ e0 He') as (j & Hj & <-).
  specialize (Hmin j). rewrite length_map in Hmin. specialize (Hmin Hj).
  rewrite !(nth_map_lt _ _ _ e0) in Hmin by assumption.
  unfold edge_distance in Hmin at 1. rewrite <- (He e0) in Hmin. exact Hmin.
Qed.

Lemma gradients_again (self : t) (c c1 c2 : cache output) (x y dist : list R)
      (gx gy : list (list R)) :
  distances self c x y = Ok (dist, c1) ->
  gradients self c x y = Ok (gx, gy, c2) ->
  gradients self c1 x y = Ok (gx, gy, c1).
Proof.
  unfold distances, gradients.
  destruct (calc_distance_and_gradients self c x y) as [[o c']|err] eqn:E; [| discriminate].
  cbn [bind fst snd].
  destruct o as [[[d ex] ey]|]; [| discriminate].
  intros H1 H2. injection H1 as _ <-. injection H2 as <- <- _.
  rewrite (calc_distance_and_gradients_again _ _ _ _ _ _ E). reflexivity.
Qed.

(** [satisfy] applies the masked update with the reported distances and
    gradients. *)
Lemma satisfy_nudges (self : t) (c c1 : cache output) (state : BoundaryBaseComp.State)
      (pad : R) (dist dx dy : list R) :
  distances self c (BoundaryBaseComp.xs state) (BoundaryBaseComp.ys state) = Ok (dist, c1) ->
  gradients self c (BoundaryBaseComp.xs state) (BoundaryBaseComp.ys state)
  = Ok (diagflat dx, diagflat dy, c1) ->
  satisfy self c state pad
  = Ok (BoundaryBaseComp.mkState (nudge pad (BoundaryBaseComp.xs state) dx dist)
                                 (nudge pad (BoundaryBaseComp.ys state) dy dist), c1).
Proof.
  intros Hd Hg. unfold satisfy. rewrite Hd. cbn [bind].
  rewrite (gradients_again _ _ _ _ _ _ _ _ _ Hd Hg). cbn [bind].
  rewrite !diag_diagflat. reflexivity.
Qed.

Lemma polygon_boundary_zero (self : t) (c : cache output) (x y : list R)
      (i : nat) (e : edge) (t : R) :
  snd (boundary_properties self) <> [] ->
  (forall e, In e (snd (boundary_properties self)) -> well_formed_edge e) ->
  (forall e, In e (snd (boundary_properties self)) -> A e <> B e) ->
  (0 < nTurbines self)%nat ->
  cache_ok self c -> length x = nTurbines self -> length y = nTurbines self ->
  (i < nTurbines self)%nat ->
  In e (snd (boundary_properties self)) -> 0 <= t <= 1 ->
  (nth i x 0, nth i y 0) = vadd (A e) (vscale t (AB e)) ->
  exists dist c', distances self c x y = Ok (dist, c') /\ nth i dist 0 = 0.
Proof.
  intros Hne Hwf Hnd Hn Hc Hx Hy Hi He Ht HP.
  destruct (distances_gradients_report self c x y Hne Hn Hx Hy Hc)
    as (dist & dx & dy & c' & Hd & _ & Hrep & _).
  exists dist, c'. split; [exact Hd |].
  destruct (reported_edge _ _ _ _ _ _ i Hrep ltac:(lia)) as (k & _ & _ & Hmin).
  specialize (Hmin e He).
  rewrite (edge_on_segment_zero _ e t (Hwf e He) (Hnd e He) Ht HP), Rabs_R0 in Hmin.
  pose proof (Rabs_pos (nth i dist 0)).
  destruct (Req_dec (nth i dist 0) 0) as [E|E]; [exact E |].
  pose proof (Rabs_pos_lt _ E). lra.
Qed.

Lemma polygon_gradients_unit (self : t) (c : cache output) (x y : list R) :
  snd (boundary_properties self) <> [] ->
  (forall e, In e (snd (boundary_properties self)) -> well_formed_edge e) ->
  (forall e, In e (snd (boundary_properties self)) -> A e <> B e) ->
  (0 < nTurbines self)%nat ->
  cache_ok self c -> length x = nTurbines self -> length y = nTurbines self ->
  exists Jx Jy c',
    gradients self c x y = Ok (Jx, Jy, c')
    /\ forall i j, (i < nTurbines self)%nat -> (j < nTurbines self)%nat ->
         (i <> j -> nth j (nth i Jx []) 0 = 0 /\ nth j (nth i Jy []) 0 = 0)
         /\ nth i (nth i Jx []) 0 ^ 2 + nth i (nth i Jy []) 0 ^ 2 = 1.
Proof.
  intros Hne Hwf Hnd Hn Hc Hx Hy.
  destruct (distances_gradients_report self c x y Hne Hn Hx Hy Hc)
    as (dist & dx & dy & c' & _ & Hg & Hrep & _).
  exists (diagflat dx), (diagflat dy), c'. split; [exact Hg |].
  pose proof Hrep as (_ & Hdx & Hdy & _).
  intros i j Hi Hj. split.
  - intros Hij. apply Nat.eqb_neq in Hij.
    rewrite !diagflat_entry by lia. rewrite Hij. split; reflexivity.
  - rewrite !diagflat_entry by lia. rewrite Nat.eqb_refl.
    destruct (reported_edge _ _ _ _ _ _ i Hrep ltac:(lia)) as (e & He & Hout & _).
    pose proof (edge_gradient_unit (nth i x 0, nth i y 0) e (Hwf e He) (Hnd e He)) as Hu.
    rewrite <- Hout in Hu. exact Hu.
Qed.

Lemma polygon_satisfy_moves (self : t) (c : cache output)
      (state : BoundaryBaseComp.State) (pad : R) :
  snd (boundary_properties self) <> [] ->
  (forall e, In e (snd (boundary_properties self)) -> well_formed_edge e) ->
  (forall e, In e (snd (boundary_properties self)) -> A e <> B e) ->
  (0 < nTurbines self)%nat ->
  cache_ok self c ->
  length (BoundaryBaseComp.xs state) = nTurbines self ->
  length (BoundaryBaseComp.ys state) = nTurbines self ->
  exists dist state' c',
    distances self c (BoundaryBaseComp.xs state) (BoundaryBaseComp.ys state) = Ok (dist, c')
    /\ satisfy self c state pad = Ok (state', c')
    /\ forall i, (i < nTurbines self)%nat -> nth i dist 0 < 0 ->
         let P := (nth i (BoundaryBaseComp.xs state) 0, nth i (BoundaryBaseComp.ys state) 0) in
         let P' := (nth i (BoundaryBaseComp.xs state') 0,
                    nth i (BoundaryBaseComp.ys state') 0) in
         exists e,
           In e (snd (boundary_properties self))
           /\ edge_distance P e = nth i dist 0
           /\ (forall e', In e' (snd (boundary_properties self)) ->
                 Rabs (nth i dist 0) <= Rabs (edge_distance P e'))
           /\ let t := dot (vsub P (A e)) (AB e) / vec_len (AB e) in
              (t < 0 -> vsub P' (A e) = vscale (1 - pad) (vsub P (A e)))
              /\ (vec_len (AB e) < t -> vsub P' (B e) = vscale (1 - pad) (vsub P (B e)))
              /\ (0 <= t <= vec_len (AB e) ->
                  dot (vsub P' (A e)) (edge_unit_normal e) = (1 - pad) * nth i dist 0
                  /\ dot (vsub P' (A e)) (AB e) = dot (vsub P (A e)) (AB e)).
Proof.
  intros Hne Hwf Hnd Hn Hc Hx Hy.
  destruct (distances_gradients_report self c _ _ Hne Hn Hx Hy Hc)
    as (dist & dx & dy & c' & Hd & Hg & Hrep & _).
  exists dist. eexists. exists c'.
  split; [exact Hd |]. split; [apply (satisfy_nudges _ _ _ _ _ _ _ _ Hd Hg) |].
  pose proof Hrep as (Hdl & Hdx & Hdy & _).
  intros i Hi Hneg. cbn [BoundaryBaseComp.xs BoundaryBaseComp.ys].
  destruct (reported_edge _ _ _ _ _ _ i Hrep ltac:(lia)) as (e & He & Hout & Hmin).
  exists e. split; [exact He |].
  split; [unfold edge_distance; rewrite <- Hout; reflexivity |].
  split; [exact Hmin |].
  rewrite !nth_nudge by (unfold nudge; rewrite map2_length, length_combine; lia).
  rewrite (Rltb_true _ _ Hneg).
  pose proof (moved_across_edge pad (nth i (BoundaryBaseComp.xs state) 0,
                                     nth i (BoundaryBaseComp.ys state) 0)
                                e (Hwf e He) (Hnd e He)) as Hm.
  cbv zeta in Hm. rewrite <- Hout in Hm. unfold moved_point in Hm. cbn [fst snd] in Hm.
  unfold edge_distance in Hm. rewrite <- Hout in Hm. cbn [fst snd] in Hm.
  exact Hm.
Qed.

End PolygonFacts.

(** ** The multi-polygon component against the polygon component *)

Lemma nth_combine_fst (a : list R) (b : list R) (k : nat) :
  length a = length b ->
  fst (nth k (combine a b) zero_vec) = nth k a 0
  /\ snd (nth k (combine a b) zero_vec) = nth k b 0.
Proof.
  revert b k; induction a as [|u a IH]; intros b k Hl.
  - destruct b; [| discriminate]. destruct k; split; reflexivity.
  - destruct b as [|v b]; [discriminate |]. injection Hl as Hl.
    destruct k as [|k]; [split; reflexivity |]. cbn [combine nth]. apply IH; exact Hl.
Qed.

Lemma choose_gradient (index : list nat) (DX DY : list (list R)) :
  Forall2 (fun rx ry => length rx = length ry) DX DY ->
  let g := map2 (fun k row => nth k row zero_vec) index
                (map2 (fun rx ry => combine rx ry) DX DY) in
  map fst g = choose index DX /\ map snd g = choose index DY.
Proof.
  intros H. cbv zeta. unfold choose, map2. revert index.
  induction H as [|rx ry DX DY Hr Hrest IH]; intros index.
  - destruct index; split; reflexivity.
  - destruct index as [|k index]; [split; reflexivity |].
    cbn [combine map fst snd].
    destruct (IH index) as [E1 E2]. destruct (nth_combine_fst rx ry k Hr) as [F1 F2].
    split; f_equal; assumption.
Qed.

Lemma gradient_rows_aligned (edges : list edge) (x y : list R) :
  Forall2 (fun rx ry => length rx = length ry)
          (snd (fst (_calc_distance_and_gradients edges x y)))
          (snd (_calc_distance_and_gradients edges x y)).
Proof.
  unfold _calc_distance_and_gradients; cbn [fst snd].
  induction (combine x y) as [|p P IH]; cbn [map]; constructor.
  - rewrite !length_map; reflexivity.
  - exact IH.
Qed.

Section Agreement.

Variable smooth_max : list (list R) -> R -> list R.
Variable smooth_max_gradient : list (list R) -> R -> list (list R).

(** A fresh multi-polygon component without relaxation and with the
    nearest-edge reduction answers as a fresh polygon component with the
    same edge table, errors included. *)
Lemma multi_nearest_is_polygon (M : MultiPolygonBoundaryComp.t) (P : PolygonBoundaryComp.t)
      (n : nat) (x y : list R) :
  relaxation M = None -> method M = nearest ->
  edge_table_in_use M = snd (boundary_properties P) ->
  x <> [] ->
  bind (MultiPolygonBoundaryComp.distances smooth_max M empty_cache n x y)
       (fun r => Ok (fst r))
  = bind (PolygonBoundaryComp.distances P empty_cache x y) (fun r => Ok (fst r))
  /\ bind (MultiPolygonBoundaryComp.gradients smooth_max_gradient M empty_cache x y)
          (fun r => Ok (fst (fst (fst r)), snd (fst (fst r)), snd (fst r)))
     = bind (PolygonBoundaryComp.gradients P empty_cache x y)
            (fun r => Ok (fst (fst r), snd (fst r), None)).
Proof.
  intros Hr Hm He Hx.
  assert (Hmiss : Nat.eqb (length x) 0 = false)
    by (apply Nat.eqb_neq; destruct x; [contradiction | cbn; lia]).
  unfold MultiPolygonBoundaryComp.distances, MultiPolygonBoundaryComp.gradients,
    PolygonBoundaryComp.distances, PolygonBoundaryComp.gradients,
    MultiPolygonBoundaryComp.calc_distance_and_gradients,
    PolygonBoundaryComp.calc_distance_and_gradients.
  cbn [empty_cache _cache_input cache_hit]. rewrite Hmiss. cbn [andb].
  rewrite He, Hr, Hm. unfold all_features, nearest_feature, sign.
  pose proof (gradient_rows_aligned (snd (boundary_properties P)) x y) as Hal.
  destruct (_calc_distance_and_gradients (snd (boundary_properties P)) x y)
    as [[D DX] DY]. cbn [fst snd] in Hal.
  destruct (argmin_abs_rows D) as [index|err] eqn:Ei; [| split; reflexivity].
  cbn [bind fst snd reduce_distance reduce_gradient]. rewrite Ei. cbn [bind fst snd].
  split; [reflexivity |].
  destruct (choose_gradient index DX DY Hal) as [-> ->]. reflexivity.
Qed.

(** Under relaxation the inherited [satisfy] never returns a state. *)
Lemma multi_satisfy_relaxed (self : MultiPolygonBoundaryComp.t)
      (c : cache MultiPolygonBoundaryComp.output) (n : nat)
      (state : BoundaryBaseComp.State) (pad : R) (rel : R * R) :
  relaxation self = Some rel ->
  (exists e, Inherited.multi_satisfy smooth_max smooth_max_gradient self c n state pad = Raise e)
  /\ (method self = nearest -> edge_table_in_use self <> [] ->
      Inherited.multi_satisfy smooth_max smooth_max_gradient self c n state pad = Raise ValueError).
Proof.
  intros Hr. split.
  - unfold Inherited.multi_satisfy.
    destruct (MultiPolygonBoundaryComp.distances smooth_max self c n _ _)
      as [[dist c1]|e]; [| eexists; reflexivity].
    cbn [bind].
    destruct (MultiPolygonBoundaryComp.gradients smooth_max_gradient self c1 _ _)
      as [[[[gx gy] dt] c2]|e] eqn:G; [| eexists; reflexivity].
    cbn [bind]. rewrite (multi_gradients_third _ _ _ _ _ _ _ _ _ _ Hr G).
    eexists; reflexivity.
  - intros Hm Hne. unfold Inherited.multi_satisfy.
    set (x := BoundaryBaseComp.xs state). set (y := BoundaryBaseComp.ys state).
    destruct (all_features_ok _ x y Hne) as (index & Hidx & out & Hout & HD).
    unfold MultiPolygonBoundaryComp.distances at 1.
    rewrite multi_calc_relaxed by (rewrite Hr; reflexivity).
    rewrite Hout. cbn [bind fst snd].
    destruct out as [[D dD] s]. cbn [fst] in HD. subst D.
    rewrite Hm. cbn [reduce_distance]. rewrite Hidx. cbn [bind]. rewrite Hr.
    match goal with
    | |- context [MultiPolygonBoundaryComp.gradients _ _ ?c1 _ _] =>
        destruct (multi_gradients_nearest_ok smooth_max_gradient self c1 x y rel Hr Hm Hne)
          as (gx & gy & c' & G)
    end.
    rewrite G. reflexivity.
Qed.

End Agreement.

(** ** Zones ahead of the first inclusion zone *)

Section Exclusions.

Variable Geom : Type.
Variable area : Geom -> R.
Variable intersects : Geom -> Geom -> bool.
Variable contains : Geom -> Geom -> bool.
Variable unary_union : list Geom -> Geom.
Variable symmetric_difference : Geom -> Geom -> Geom.
Variable difference : Geom -> Geom -> Geom.
Variable type_of : Geom -> geometry_type.
Variable geoms : Geom -> list Geom.
Variable Polygon : list vec -> list (list vec) -> Geom.
Variable exterior_coords : Geom -> list vec.
Variable interiors_coords : Geom -> list (list vec).

Lemma exclusions_keep_empty (zones : list (Geom * bool)) :
  Forall (fun z => snd z = false) zones ->
  fold_left (merge_zone Geom area intersects contains unary_union symmetric_difference
                        difference type_of geoms Polygon exterior_coords) zones []
  = [].
Proof.
  induction 1 as [|z zones Hz _ IH]; [reflexivity |].
  cbn [fold_left]. unfold merge_zone at 2. cbn [List.length Nat.eqb]. rewrite Hz. exact IH.
Qed.

Lemma combine_app_eq {X Y : Type} (a a' : list X) (b b' : list Y) :
  length a = length b -> combine (a ++ a') (b ++ b') = combine a b ++ combine a' b'.
Proof.
  revert b; induction a as [|u a IH]; intros [|v b] Hl; try discriminate; [reflexivity |].
  cbn. f_equal. apply IH. injection Hl as Hl; exact Hl.
Qed.

Lemma leading_exclusions_ignored (before rest : list Geom) (flags_before flags : list bool) :
  length before = length flags_before ->
  Forall (fun f => f = false) flags_before ->
  _calc_resulting_polygons Geom area intersects contains unary_union symmetric_difference
    difference type_of geoms Polygon exterior_coords
    (before ++ rest) (flags_before ++ flags)
  = _calc_resulting_polygons Geom area intersects contains unary_union symmetric_difference
      difference type_of geoms Polygon exterior_coords rest flags.
Proof.
  intros Hl Hf. unfold _calc_resulting_polygons.
  rewrite combine_app_eq by exact Hl. rewrite fold_left_app.
  rewrite exclusions_keep_empty; [reflexivity |].
  clear rest flags. revert flags_before Hl Hf.
  induction before as [|b before IH]; intros [|f fs] Hl Hf; try discriminate;
    [constructor |].
  inversion Hf; subst. cbn [combine]. constructor; [reflexivity |].
  apply IH; [injection Hl as Hl; exact Hl | assumption].
Qed.

Lemma exclusion_flags (zones : list (list vec * flag)) :
  (forall z, In z zones -> type_bool (snd z) = false) ->
  Forall (fun z : Geom * bool => snd z = false)
         (combine (map (fun z => Polygon (fst z) []) zones)
                  (map (fun z => type_bool (snd z)) zones)).
Proof.
  induction zones as [|z zs IH]; intros Hall; [constructor |].
  cbn [map combine]. constructor.
  - cbn [snd]. apply Hall. left; reflexivity.
  - apply IH. intros z' Hz'. apply Hall. right; exact Hz'.
Qed.

(** Construction on exclusion zones only comes down to the construction
    of the polygon component of the first ring; the component has no
    edges of its own, and its queries run on the edge table of the first
    ring taken as an inclusion zone. *)
Lemma init_exclusions_only (fuel n : nat) (first : list vec * flag)
      (others : list (list vec * flag)) (relax : option (R * R)) (m : reduction) :
  (forall z, In z (first :: others) -> type_bool (snd z) = false) ->
  MultiPolygonBoundaryComp.init Geom area intersects contains unary_union
    symmetric_difference difference type_of geoms Polygon exterior_coords interiors_coords
    fuel n (first :: others) relax m
  = bind (PolygonBoundaryComp.init fuel n (fst first) relax)
         (fun base =>
            Ok (MultiPolygonBoundaryComp.mk
                  n (snd (boundary_properties (fst base))) [] relax m,
                empty_cache))
  /\ forall M c,
       MultiPolygonBoundaryComp.init Geom area intersects contains unary_union
         symmetric_difference difference type_of geoms Polygon exterior_coords
         interiors_coords fuel n (first :: others) relax m = Ok (M, c) ->
       boundary_properties_list_all M = []
       /\ exists P,
            PolygonBoundaryComp.init fuel n (fst first) relax = Ok (P, empty_cache)
            /\ edge_table_in_use M = snd (boundary_properties P).
Proof.
  intros Hall.
  assert (E : MultiPolygonBoundaryComp.init Geom area intersects contains unary_union
                symmetric_difference difference type_of geoms Polygon exterior_coords
                interiors_coords fuel n (first :: others) relax m
              = bind (PolygonBoundaryComp.init fuel n (fst first) relax)
                     (fun base =>
                        Ok (MultiPolygonBoundaryComp.mk
                              n (snd (boundary_properties (fst base))) [] relax m,
                            empty_cache))).
  { unfold MultiPolygonBoundaryComp.init. destruct first as [ring fl]. cbn [fst].
    destruct (PolygonBoundaryComp.init fuel n ring relax) as [[P c0]|e]; [| reflexivity].
    cbn [bind]. unfold _setup_boundaries, _calc_resulting_polygons.
    rewrite exclusions_keep_empty by (apply exclusion_flags; exact Hall).
    reflexivity. }
  split; [exact E |].
  intros M c H. rewrite E in H.
  destruct (PolygonBoundaryComp.init fuel n (fst first) relax) as [[P c0]|e] eqn:EP;
    [| discriminate].
  destruct (init_inv _ _ _ _ _ _ EP) as (_ & -> & _).
  cbn [bind fst] in H. injection H as <- <-.
  split; [reflexivity |]. exists P. split; reflexivity.
Qed.

End Exclusions.

(** ** The edge table of the multi-polygon component *)

Lemma get_boundary_properties_well_formed (fuel : nat) (xy : list vec) (incl : bool)
      (bp : list vec * list edge) :
  get_boundary_properties fuel xy incl = Ok bp ->
  forall e, In e (snd bp) -> well_formed_edge e.
Proof.
  unfold get_boundary_properties. intros H.
  destruct (get_edges fuel xy incl) as [r|err] eqn:E; [| discriminate].
  destruct (get_edges_inv _ _ _ _ E) as (ring & _ & _ & ->).
  cbn [bind] in H. injection H as <-. cbn [snd].
  intros e He. apply (edge_table_well_formed _ _ e) in He; [exact He |].
  rewrite removelast_length, tl_length; reflexivity.
Qed.

Lemma all_edges_well_formed (fuel : nat) (boundaries : list (list vec * bool)) :
  forall edges,
    all_edges fuel boundaries = Ok edges ->
    forall e, In e edges -> well_formed_edge e.
Proof.
  induction boundaries as [|[bound incl] rest IH]; intros edges H.
  - injection H as <-. intros e [].
  - cbn [all_edges] in H.
    destruct (get_boundary_properties fuel bound incl) as [bp|err] eqn:E; [| discriminate].
    cbn [bind] in H.
    destruct (all_edges fuel rest) as [es|err]; [| discriminate].
    cbn [bind] in H. injection H as <-.
    intros e He. apply in_app_or in He. destruct He as [He | He].
    + exact (get_boundary_properties_well_formed _ _ _ _ E e He).
    + exact (IH es eq_refl e He).
Qed.

Section MultiTable.

Variable Geom : Type.
Variable area : Geom -> R.
Variable intersects : Geom -> Geom -> bool.
Variable contains : Geom -> Geom -> bool.
Variable unary_union : list Geom -> Geom.
Variable symmetric_difference : Geom -> Geom -> Geom.
Variable difference : Geom -> Geom -> Geom.
Variable type_of : Geom -> geometry_type.
Variable geoms : Geom -> list Geom.
Variable Polygon : list vec -> list (list vec) -> Geom.
Variable exterior_coords : Geom -> list vec.
Variable interiors_coords : Geom -> list (list vec).

(** Every edge a constructed multi-polygon component queries relates its
    columns as the edges of a polygon component do. *)
Lemma multi_init_well_formed (fuel n : nat) (zones : list (list vec * flag))
      (relax : option (R * R)) (m : reduction) (M : MultiPolygonBoundaryComp.t)
      (c : cache MultiPolygonBoundaryComp.output) :
  MultiPolygonBoundaryComp.init Geom area intersects contains unary_union
    symmetric_difference difference type_of geoms Polygon exterior_coords interiors_coords
    fuel n zones relax m = Ok (M, c) ->
  edge_table_in_use M <> []
  /\ forall e, In e (edge_table_in_use M) -> well_formed_edge e.
Proof.
  unfold MultiPolygonBoundaryComp.init. intros H.
  destruct zones as [|[first fl] others]; [discriminate |].
  destruct (PolygonBoundaryComp.init fuel n first relax) as [[P c0]|err] eqn:EP;
    [| discriminate].
  cbn [bind] in H.
  destruct (_setup_boundaries _ _ _ _ _ _ _ _ _ _ _ _ fuel _ _) as [edges|err] eqn:ES;
    [| discriminate].
  cbn [bind fst] in H. injection H as <- <-.
  destruct (init_inv _ _ _ _ _ _ EP) as (_ & _ & Hne & Hwf & _).
  unfold edge_table_in_use;
    cbn [boundary_properties_list_all base_boundary_properties].
  destruct edges as [|e0 es] eqn:Ee.
  - split; [exact Hne | exact Hwf].
  - split; [discriminate |]. rewrite <- Ee in *.
    unfold _setup_boundaries in ES.
    exact (all_edges_well_formed _ _ _ ES).
Qed.

End MultiTable.

(** The square ring as the boundary of an inclusion zone. *)
Lemma square_boundary_properties :
  get_boundary_properties 2 square_ring true = Ok (square_ring, square_edges).
Proof.
  unfold get_boundary_properties.
  rewrite get_edges_unfold by discriminate. cbv zeta.
  rewrite double_area_square, closed_ring_square.
  rewrite (Reqb_false 200 0) by lra.
  unfold wrong_winding. rewrite (Rltb_false 200 0) by lra.
  cbn [andb negb orb bind fst snd].
  change (removelast square_closed) with square_ring.
  reflexivity.
Qed.

(** The square as the only zone of a multi-polygon component, with rings
    for geometries. *)
Lemma square_multi_init :
  MultiPolygonBoundaryComp.init
    (list vec) (fun _ => 1) (fun _ _ => false) (fun _ _ => false)
    (fun l => List.concat l) (fun a _ => a) (fun a _ => a) (fun _ => IsPolygon)
    (fun a => [a]) (fun a _ => a ++ firstn 1 a) (fun a => a) (fun _ => [])
    2 1 [(square_ring, FlagBool true)] None nearest
  = Ok (square_multi, empty_cache).
Proof.
  unfold MultiPolygonBoundaryComp.init. rewrite square_polygon_init. cbn [bind].
  unfold _setup_boundaries, _calc_resulting_polygons, _poly_to_bound.
  cbn [map fst snd type_bool combine fold_left merge_zone List.length Nat.eqb app
       flat_map].
  change (removelast (square_ring ++ firstn 1 square_ring)) with square_ring.
  cbn [all_edges]. rewrite square_boundary_properties. cbn [bind snd fst].
  rewrite app_nil_r. reflexivity.
Qed.

Section MultiTotal.

Variable smooth_max : list (list R) -> R -> list R.

Lemma max_abs_ok (edges : list edge) (x y : list R) :
  edges <> [] -> x <> [] -> y <> [] ->
  exists mx, max_abs (fst (fst (_calc_distance_and_gradients edges x y))) = Ok mx.
Proof.
  intros He Hx Hy. unfold _calc_distance_and_gradients; cbn [fst].
  destruct x as [|x0 x]; [contradiction |]. destruct y as [|y0 y]; [contradiction |].
  destruct edges as [|e0 es]; [contradiction |].
  unfold max_abs. cbn [combine map List.concat app ConvexBoundaryComp.amax].
  eexists; reflexivity.
Qed.

(** On a table that is not empty, a query of at least one point on a
    fresh component returns distances, with either reduction and with or
    without relaxation. *)
Lemma multi_distances_total (M : MultiPolygonBoundaryComp.t) (n : nat) (x y : list R) :
  edge_table_in_use M <> [] -> x <> [] -> y <> [] ->
  exists dist c',
    MultiPolygonBoundaryComp.distances smooth_max M empty_cache n x y = Ok (dist, c').
Proof.
  intros He Hx Hy.
  assert (Hmiss : Nat.eqb (length x) 0 = false)
    by (apply Nat.eqb_neq; destruct x; [contradiction | cbn; lia]).
  destruct (all_features_ok _ x y He) as (index & Hidx & out & Hout & HD).
  destruct (max_abs_ok _ x y He Hx Hy) as [mx Hmx].
  unfold MultiPolygonBoundaryComp.distances,
    MultiPolygonBoundaryComp.calc_distance_and_gradients.
  cbn [empty_cache _cache_input cache_hit]. rewrite Hmiss. cbn [andb].
  rewrite Hout. cbn [bind fst snd].
  destruct out as [[D dD] s]. cbn [fst] in HD. subst D.
  destruct (method M); cbn [reduce_distance].
  - rewrite Hidx. cbn [bind]. do 2 eexists; reflexivity.
  - rewrite Hmx. cbn [bind]. do 2 eexists; reflexivity.
Qed.

End MultiTotal.

(** * Further properties of the components *)

(** ** X1 *)

(** X1.  [CircleBoundaryComp.distances]: for a circle whose radius is not
    negative, the distance of a point is not negative exactly when the
    point lies in the closed disc, and it is zero exactly when the point
    lies on the circle. *)
Theorem X1_circle_feasible_iff_in_disc
        (self : CircleBoundaryComp.t) (x y : list R) (i : nat) :
  0 <= CircleBoundaryComp.radius self -> length x = length y -> (i < length x)%nat ->
  let q := (nth i x 0 - fst (CircleBoundaryComp.center self)) ^ 2
           + (nth i y 0 - snd (CircleBoundaryComp.center self)) ^ 2 in
  (0 <= nth i (CircleBoundaryComp.distances self x y) 0
   <-> q <= CircleBoundaryComp.radius self ^ 2)
  /\ (nth i (CircleBoundaryComp.distances self x y) 0 = 0
      <-> q = CircleBoundaryComp.radius self ^ 2).
Proof. exact (circle_distance_sign self x y i). Qed.

(** The point (3, 4) in the circle of radius 10. *)
Lemma X1_circle_feasible_iff_in_disc_witness :
  let q := (nth 0 [3] 0 - fst (CircleBoundaryComp.center circle10)) ^ 2
           + (nth 0 [4] 0 - snd (CircleBoundaryComp.center circle10)) ^ 2 in
  (0 <= nth 0 (CircleBoundaryComp.distances circle10 [3] [4]) 0
   <-> q <= CircleBoundaryComp.radius circle10 ^ 2)
  /\ (nth 0 (CircleBoundaryComp.distances circle10 [3] [4]) 0 = 0
      <-> q = CircleBoundaryComp.radius circle10 ^ 2).
Proof.
  apply (X1_circle_feasible_iff_in_disc circle10 [3] [4] 0%nat).
  - cbn; lra.
  - reflexivity.
  - cbn; lia.
Defined.

(** ** X2 *)

(** X2.  [CircleBoundaryComp.gradients]: both Jacobians are diagonal, and
    for a point off the center the two diagonal entries are the
    components of the unit vector that points from the point to the
    center. *)
Theorem X2_circle_gradient_unit_radial
        (self : CircleBoundaryComp.t) (x y : list R) (i j : nat) :
  length x = length y -> (i < length x)%nat -> (j < length x)%nat ->
  let Jx := fst (CircleBoundaryComp.gradients self x y) in
  let Jy := snd (CircleBoundaryComp.gradients self x y) in
  (i <> j -> nth j (nth i Jx []) 0 = 0 /\ nth j (nth i Jy []) 0 = 0)
  /\ ((nth i x 0, nth i y 0) <> CircleBoundaryComp.center self ->
      nth i (diag Jx) 0
      = - ((nth i x 0 - fst (CircleBoundaryComp.center self)) / radial self x y i)
      /\ nth i (diag Jy) 0
         = - ((nth i y 0 - snd (CircleBoundaryComp.center self)) / radial self x y i)
      /\ nth i (diag Jx) 0 ^ 2 + nth i (diag Jy) 0 ^ 2 = 1).
Proof.
  intros Hxy Hi Hj Jx Jy. split.
  - intros Hij. exact (circle_gradient_off_diagonal self x y i j Hxy Hi Hj Hij).
  - intros Hne.
    destruct (circle_gradient_radial self x y i Hxy Hi Hne) as [Gx Gy].
    split; [exact Gx | split; [exact Gy |]].
    unfold Jx, Jy. rewrite Gx, Gy.
    pose proof (radial_nonneg self x y i) as H0.
    assert (Hrho : radial self x y i <> 0).
    { intros E. apply Hne. apply radial_zero_iff. exact E. }
    assert (Hsq : radial self x y i * radial self x y i
                  = (nth i x 0 - fst (CircleBoundaryComp.center self)) ^ 2
                    + (nth i y 0 - snd (CircleBoundaryComp.center self)) ^ 2).
    { unfold radial. apply sqrt_sqrt.
      apply Rplus_le_le_0_compat; apply pow2_ge_0. }
    set (rho := radial self x y i) in *.
    set (a := nth i x 0 - fst (CircleBoundaryComp.center self)) in *.
    set (b := nth i y 0 - snd (CircleBoundaryComp.center self)) in *.
    replace ((- (a / rho)) ^ 2 + (- (b / rho)) ^ 2)
      with ((a ^ 2 + b ^ 2) / (rho * rho)) by (field; exact Hrho).
    rewrite <- Hsq. field; exact Hrho.
Qed.

(** The point (3, 4) in the circle of radius 10. *)
Lemma X2_circle_gradient_unit_radial_witness :
  let Jx := fst (CircleBoundaryComp.gradients circle10 [3] [4]) in
  let Jy := snd (CircleBoundaryComp.gradients circle10 [3] [4]) in
  (0%nat <> 0%nat -> nth 0 (nth 0 Jx []) 0 = 0 /\ nth 0 (nth 0 Jy []) 0 = 0)
  /\ ((nth 0 [3] 0, nth 0 [4] 0) <> CircleBoundaryComp.center circle10 ->
      nth 0 (diag Jx) 0
      = - ((nth 0 [3] 0 - fst (CircleBoundaryComp.center circle10)) / radial circle10 [3] [4] 0)
      /\ nth 0 (diag Jy) 0
         = - ((nth 0 [4] 0 - snd (CircleBoundaryComp.center circle10))
              / radial circle10 [3] [4] 0)
      /\ nth 0 (diag Jx) 0 ^ 2 + nth 0 (diag Jy) 0 ^ 2 = 1).
Proof.
  apply (X2_circle_gradient_unit_radial circle10 [3] [4] 0%nat 0%nat).
  - reflexivity.
  - cbn; lia.
  - cbn; lia.
Defined.

(** ** X3 *)

(** X3.  [satisfy] as the circle component inherits it from the polygon
    component: a point whose distance is not negative stays where it is;
    a point outside the circle is moved along its radius by [pad] times
    its violation and, unless that carries it past the center, ends at
    the distance [d * (1 - pad)], inside the circle when [pad > 1]. *)
Theorem X3_circle_satisfy_moves_inside
        (self : CircleBoundaryComp.t) (state : BoundaryBaseComp.State) (pad : R) (i : nat) :
  let x := BoundaryBaseComp.xs state in
  let y := BoundaryBaseComp.ys state in
  let state' := Inherited.circle_satisfy self state pad in
  let d := nth i (CircleBoundaryComp.distances self x y) 0 in
  0 <= CircleBoundaryComp.radius self -> length x = length y -> (i < length x)%nat ->
  (0 <= d ->
   nth i (BoundaryBaseComp.xs state') 0 = nth i x 0
   /\ nth i (BoundaryBaseComp.ys state') 0 = nth i y 0)
  /\ (d < 0 -> 0 <= radial self x y i + d * pad ->
      nth i (CircleBoundaryComp.distances self (BoundaryBaseComp.xs state')
                                          (BoundaryBaseComp.ys state')) 0
      = d * (1 - pad)).
Proof. exact (circle_satisfy_point self state pad i). Qed.

(** The point (20, 0) outside the circle of radius 10, with the default
    pad. *)
Lemma X3_circle_satisfy_moves_inside_witness :
  let state := BoundaryBaseComp.mkState [20] [0] in
  let state' := Inherited.circle_satisfy circle10 state (11 / 10) in
  let d := nth 0 (CircleBoundaryComp.distances circle10 [20] [0]) 0 in
  (0 <= d ->
   nth 0 (BoundaryBaseComp.xs state') 0 = nth 0 [20] 0
   /\ nth 0 (BoundaryBaseComp.ys state') 0 = nth 0 [0] 0)
  /\ (d < 0 -> 0 <= radial circle10 [20] [0] 0 + d * (11 / 10) ->
      nth 0 (CircleBoundaryComp.distances circle10 (BoundaryBaseComp.xs state')
                                          (BoundaryBaseComp.ys state')) 0
      = d * (1 - 11 / 10)).
Proof.
  apply (X3_circle_satisfy_moves_inside circle10 (BoundaryBaseComp.mkState [20] [0])
                                        (11 / 10) 0%nat).
  - cbn; lra.
  - reflexivity.
  - cbn; lia.
Defined.

(** ** X4 *)

(** X4.  [BoundaryBaseComp.compute], as the circle, the convex and the
    polygon component run it: the first output is what [distances]
    returns, and the penalty output is never negative, is zero exactly
    when no distance is negative, and is the sum of the sizes of the
    negative distances. *)
Theorem X4_penalty_measures_violation
        (circle : CircleBoundaryComp.t) (convex : ConvexBoundaryComp.t)
        (polygon : PolygonBoundaryComp.t) (x y : list R) :
  (let out := Inherited.circle_compute circle x y in
   fst out = CircleBoundaryComp.distances circle x y
   /\ 0 <= snd out
   /\ (snd out = 0 <-> forall d, In d (fst out) -> 0 <= d)
   /\ snd out = fold_right Rplus 0 (map (fun d => if Rltb d 0 then - d else 0) (fst out)))
  /\ (let out := Inherited.convex_compute convex x y in
      fst out = ConvexBoundaryComp.distances convex x y
      /\ 0 <= snd out
      /\ (snd out = 0 <-> forall row d, In row (fst out) -> In d row -> 0 <= d))
  /\ (forall c dist p c',
         Inherited.polygon_compute polygon c x y = Ok (dist, p, c') ->
         PolygonBoundaryComp.distances polygon c x y = Ok (dist, c')
         /\ 0 <= p
         /\ (p = 0 <-> forall d, In d dist -> 0 <= d)
         /\ p = fold_right Rplus 0 (map (fun d => if Rltb d 0 then - d else 0) dist)).
Proof.
  split; [| split].
  - cbv zeta. unfold Inherited.circle_compute; cbn [fst snd].
    split; [reflexivity |].
    split; [apply penalty_nonneg |].
    split; [apply penalty_zero_iff | apply penalty_sum_violations].
  - cbv zeta. unfold Inherited.convex_compute; cbn [fst snd].
    split; [reflexivity |].
    split; [apply penalty_nonneg |].
    unfold Inherited.penalty2. rewrite penalty_zero_iff. split.
    + intros H row d Hrow Hd. apply H. apply in_concat. exists row; split; assumption.
    + intros H d Hd. apply in_concat in Hd. destruct Hd as (row & Hrow & Hd).
      exact (H row d Hrow Hd).
  - intros c dist p c'. unfold Inherited.polygon_compute.
    destruct (PolygonBoundaryComp.distances polygon c x y) as [[d0 c0]|e]; [| discriminate].
    cbn [bind fst snd]. intros H; injection H as <- <- <-.
    split; [reflexivity |].
    split; [apply penalty_nonneg |].
    split; [apply penalty_zero_iff | apply penalty_sum_violations].
Qed.

(** ** X5 *)

(** X5.  [ConvexBoundaryComp.calculate_gradients], as stored by the
    constructor: each Jacobian has one row per (turbine, face) pair and
    one column per turbine; the row of turbine [i] and face [j] is zero
    outside column [i]; and in column [i], for a face that is not
    degenerate, the two Jacobians hold minus the components of the unit
    normal computed for the face, a unit vector. *)
Theorem X5_convex_jacobian_structure
        (hull : list vec -> list nat) (n_wt0 : nat) (xy : list vec)
        (bt : ConvexBoundaryComp.boundary_type) (self : ConvexBoundaryComp.t)
        (poly : list vec) (x y : list R) :
  ConvexBoundaryComp.init hull n_wt0 xy bt = Some self ->
  ConvexBoundaryComp.boundary_of hull bt xy = Some poly ->
  (0 < length poly)%nat ->
  let Jx := fst (ConvexBoundaryComp.gradients self x y) in
  let Jy := snd (ConvexBoundaryComp.gradients self x y) in
  has_shape Jx (n_wt0 * length poly) n_wt0
  /\ has_shape Jy (n_wt0 * length poly) n_wt0
  /\ forall i j c, (i < n_wt0)%nat -> (j < length poly)%nat -> (c < n_wt0)%nat ->
       let r := (i * length poly + j)%nat in
       (c <> i -> nth c (nth r Jx []) 0 = 0 /\ nth c (nth r Jy []) 0 = 0)
       /\ (nth j poly (0, 0) <> nth (next_vertex (length poly) j) poly (0, 0) ->
           nth i (nth r Jx []) 0 = - fst (ConvexBoundaryComp.face_normal poly j)
           /\ nth i (nth r Jy []) 0 = - snd (ConvexBoundaryComp.face_normal poly j)
           /\ nth i (nth r Jx []) 0 ^ 2 + nth i (nth r Jy []) 0 ^ 2 = 1).
Proof.
  intros Hinit Hb Hp Jx Jy.
  destruct (convex_jacobian_shape hull n_wt0 xy bt self poly Hinit Hb Hp) as [Sx Sy].
  split; [exact Sx | split; [exact Sy |]].
  intros i j c Hi Hj Hc r. split.
  - intros Hne.
    destruct (convex_jacobian_entry hull n_wt0 xy bt self poly i j c Hinit Hb Hi Hj Hc)
      as [Ex Ey].
    apply Nat.eqb_neq in Hne. rewrite Hne in Ex, Ey. split; assumption.
  - intros Hnd.
    destruct (convex_jacobian_entry hull n_wt0 xy bt self poly i j i Hinit Hb Hi Hj Hi)
      as [Ex Ey].
    rewrite Nat.eqb_refl in Ex, Ey.
    pose proof (face_normal_unit poly j Hnd) as Hu.
    destruct (face_gradient_unit _ Hu) as [Gx Gy].
    unfold Jx, Jy, r.
    change (ConvexBoundaryComp.gradients self x y)
      with (ConvexBoundaryComp.gradients self [] []).
    rewrite Ex, Ey, Gx, Gy.
    split; [reflexivity | split; [reflexivity |]].
    rewrite <- Hu. ring.
Qed.

(** The hull of the square ring, for two turbines. *)
Lemma X5_convex_jacobian_structure_witness :
  exists self,
    ConvexBoundaryComp.init (fun _ => [0; 1; 2; 3]%nat) 2 square_ring
                            ConvexBoundaryComp.convex_hull = Some self
    /\ has_shape (fst (ConvexBoundaryComp.gradients self [5; 15] [5; 5])) (2 * 4) 2
    /\ has_shape (snd (ConvexBoundaryComp.gradients self [5; 15] [5; 5])) (2 * 4) 2.
Proof.
  destruct (square_scenario (fun _ => [0; 1; 2; 3]%nat) 2%nat) as (self & Hinit & _).
  - left; reflexivity.
  - exists self. split; [exact Hinit |].
    destruct (X5_convex_jacobian_structure (fun _ => [0; 1; 2; 3]%nat) 2 square_ring
                ConvexBoundaryComp.convex_hull self square_ring [5; 15] [5; 5] Hinit
                eq_refl ltac:(cbn; lia)) as (Sx & Sy & _).
    split; [exact Sx | exact Sy].
Defined.

(** ** X6 *)

(** X6.  [ConvexBoundaryComp.distances] against [gradients]: the distance
    of a turbine to a face is affine in the position of that turbine, and
    the entries of the two Jacobians are its exact slopes, so a
    displacement of the turbines changes each distance by the Jacobian
    entries times the displacement of its turbine. *)
Theorem X6_convex_distances_affine
        (hull : list vec -> list nat) (n_wt0 : nat) (xy : list vec)
        (bt : ConvexBoundaryComp.boundary_type) (self : ConvexBoundaryComp.t)
        (poly : list vec) (x y hx hy : list R) (i j : nat) :
  ConvexBoundaryComp.init hull n_wt0 xy bt = Some self ->
  ConvexBoundaryComp.boundary_of hull bt xy = Some poly ->
  hd (0, 0) poly <> last poly (0, 0) ->
  length x = n_wt0 -> length y = n_wt0 -> length hx = n_wt0 -> length hy = n_wt0 ->
  (i < n_wt0)%nat -> (j < length poly)%nat ->
  let r := (i * length poly + j)%nat in
  nth j (nth i (ConvexBoundaryComp.distances self (map2 Rplus x hx) (map2 Rplus y hy)) []) 0
  = nth j (nth i (ConvexBoundaryComp.distances self x y) []) 0
    + nth i hx 0 * nth i (nth r (fst (ConvexBoundaryComp.gradients self x y)) []) 0
    + nth i hy 0 * nth i (nth r (snd (ConvexBoundaryComp.gradients self x y)) []) 0.
Proof.
  intros Hinit Hb Hopen Hx Hy Hhx Hhy Hi Hj r.
  exact (convex_distances_affine hull n_wt0 xy bt self poly x y hx hy i j
                                 Hinit Hb Hopen Hx Hy Hhx Hhy Hi Hj).
Qed.

(** The hull of the square ring: the point (5, 5) displaced by (1, 2),
    against the right face. *)
Lemma X6_convex_distances_affine_witness :
  exists self,
    ConvexBoundaryComp.init (fun _ => [0; 1; 2; 3]%nat) 1 square_ring
                            ConvexBoundaryComp.convex_hull = Some self
    /\ nth 1 (nth 0 (ConvexBoundaryComp.distances self (map2 Rplus [5] [1])
                                                       (map2 Rplus [5] [2])) []) 0
       = nth 1 (nth 0 (ConvexBoundaryComp.distances self [5] [5]) []) 0
         + nth 0 [1] 0
           * nth 0 (nth (0 * length square_ring + 1)
                        (fst (ConvexBoundaryComp.gradients self [5] [5])) []) 0
         + nth 0 [2] 0
           * nth 0 (nth (0 * length square_ring + 1)
                        (snd (ConvexBoundaryComp.gradients self [5] [5])) []) 0.
Proof.
  destruct (square_scenario (fun _ => [0; 1; 2; 3]%nat) 1%nat) as (self & Hinit & _).
  - left; reflexivity.
  - exists self. split; [exact Hinit |].
    apply (X6_convex_distances_affine (fun _ => [0; 1; 2; 3]%nat) 1 square_ring
             ConvexBoundaryComp.convex_hull self square_ring [5] [5] [1] [2] 0%nat 1%nat
             Hinit eq_refl).
    + cbn. intros E; injection E; intros; lra.
    + reflexivity.
    + reflexivity.
    + reflexivity.
    + reflexivity.
    + lia.
    + cbn; lia.
Defined.

(** ** X7 *)

(** X7.  [ConvexBoundaryComp.satisfy]: whenever it returns, the state it
    returns has as many points as the one it was given, and every point
    of it has a distance that is not negative to every face; and it does
    return when the grid searched for each point that needs a
    displacement holds one that meets the linearised face constraints
    (otherwise [np.argmin] raises on an empty selection). *)
Theorem X7_convex_satisfy_restores_feasibility
        (hull : list vec -> list nat) (n_wt0 : nat) (xy : list vec)
        (bt : ConvexBoundaryComp.boundary_type) (self : ConvexBoundaryComp.t)
        (poly : list vec) (state : BoundaryBaseComp.State) (pad : R) :
  ConvexBoundaryComp.init hull n_wt0 xy bt = Some self ->
  ConvexBoundaryComp.boundary_of hull bt xy = Some poly ->
  hd (0, 0) poly <> last poly (0, 0) ->
  (0 < n_wt0)%nat ->
  length (BoundaryBaseComp.xs state) = length (BoundaryBaseComp.ys state) ->
  (forall state',
      ConvexBoundaryComp.satisfy self state pad = Some state' ->
      length (BoundaryBaseComp.xs state') = length (BoundaryBaseComp.xs state)
      /\ length (BoundaryBaseComp.ys state') = length (BoundaryBaseComp.xs state)
      /\ forall i j,
           (i < length (BoundaryBaseComp.xs state))%nat -> (j < length poly)%nat ->
           0 <= nth j (nth i (ConvexBoundaryComp.distances
                                 self (BoundaryBaseComp.xs state')
                                 (BoundaryBaseComp.ys state')) []) 0)
  /\ ((forall i,
          (i < length (BoundaryBaseComp.xs state))%nat ->
          admissible_move
            (fst (first_turbine_gradients self)) (snd (first_turbine_gradients self))
            (map clip (nth i (ConvexBoundaryComp.distances
                                self (BoundaryBaseComp.xs state)
                                (BoundaryBaseComp.ys state)) []))) ->
      exists state', ConvexBoundaryComp.satisfy self state pad = Some state').
Proof.
  intros Hinit Hb Hopen Hn Hxy. split.
  - intros state' Hs.
    exact (convex_satisfy_restores hull n_wt0 xy bt self poly state state' pad
                                   Hinit Hb Hopen Hn Hxy Hs).
  - intros H. apply convex_satisfy_returns. intros i Hi _. apply H. exact Hi.
Qed.

(** The rectangle over the square ring and the point (15, 5) to the right
    of it: [satisfy] returns, and the point it returns is inside. *)
Lemma X7_convex_satisfy_restores_feasibility_witness :
  exists self state',
    ConvexBoundaryComp.init (fun _ => []) 1 square_ring ConvexBoundaryComp.rectangle
    = Some self
    /\ ConvexBoundaryComp.distances self [15] [5] = [[5; -5; 5; 15]]
    /\ ConvexBoundaryComp.satisfy self (BoundaryBaseComp.mkState [15] [5]) (11 / 10)
       = Some state'
    /\ forall j, (j < 4)%nat ->
         0 <= nth j (nth 0 (ConvexBoundaryComp.distances
                              self (BoundaryBaseComp.xs state')
                              (BoundaryBaseComp.ys state')) []) 0.
Proof.
  destruct square_rectangle_scenario as (self & Hinit & Hb & Hd & Hadm).
  destruct (X7_convex_satisfy_restores_feasibility
              (fun _ => []) 1 square_ring ConvexBoundaryComp.rectangle self
              (box 0 0 10 10) (BoundaryBaseComp.mkState [15] [5]) (11 / 10) Hinit Hb)
    as [Hsafe Hret].
  - cbn. intros E; injection E; intros; lra.
  - lia.
  - reflexivity.
  - destruct Hret as [state' Hs].
    + intros i Hi. cbn [BoundaryBaseComp.xs BoundaryBaseComp.ys length] in *.
      replace i with 0%nat by lia. rewrite Hd. exact Hadm.
    + exists self, state'. split; [exact Hinit | split; [exact Hd | split; [exact Hs |]]].
      intros j Hj. destruct (Hsafe state' Hs) as (_ & _ & H).
      apply H; [cbn; lia | exact Hj].
Defined.

(** ** X8 *)

(** X8.  [ConvexBoundaryComp.calculate_boundary_and_normals] for the
    boundary type 'rectangle': the boundary is the bounding box of the
    given points, so the four distances of a point are its margins to
    the bottom, right, top and left side of that box, and every one of
    the given points is feasible. *)
Theorem X8_rectangle_is_bounding_box
        (hull : list vec -> list nat) (n_wt0 : nat) (xy : list vec)
        (self : ConvexBoundaryComp.t) (lo hi : vec) (x y : list R) (i : nat) :
  ConvexBoundaryComp.init hull n_wt0 xy ConvexBoundaryComp.rectangle = Some self ->
  ConvexBoundaryComp.min0 xy = Some lo -> ConvexBoundaryComp.max0 xy = Some hi ->
  fst lo < fst hi -> snd lo < snd hi ->
  length x = length y -> (i < length x)%nat ->
  nth i (ConvexBoundaryComp.distances self x y) []
  = [nth i y 0 - snd lo; fst hi - nth i x 0; snd hi - nth i y 0; nth i x 0 - fst lo]
  /\ (In (nth i x 0, nth i y 0) xy ->
      forall d, In d (nth i (ConvexBoundaryComp.distances self x y) []) -> 0 <= d).
Proof. exact (rectangle_margins hull n_wt0 xy self lo hi x y i). Qed.

(** The rectangle over the square ring, and the point (15, 5). *)
Lemma X8_rectangle_is_bounding_box_witness :
  exists self,
    ConvexBoundaryComp.init (fun _ => []) 1 square_ring ConvexBoundaryComp.rectangle
    = Some self
    /\ nth 0 (ConvexBoundaryComp.distances self [15] [5]) []
       = [nth 0 [5] 0 - snd (0, 0); fst (10, 10) - nth 0 [15] 0;
          snd (10, 10) - nth 0 [5] 0; nth 0 [15] 0 - fst (0, 0)].
Proof.
  destruct square_rectangle_scenario as (self & Hinit & _).
  exists self. split; [exact Hinit |].
  apply (X8_rectangle_is_bounding_box (fun _ => []) 1 square_ring self (0, 0) (10, 10)
                                      [15] [5] 0%nat Hinit).
  - exact (proj1 square_ring_extent).
  - exact (proj2 square_ring_extent).
  - cbn; lra.
  - cbn; lra.
  - reflexivity.
  - cbn; lia.
Defined.

(** ** X9 *)

(** X9.  [ConvexBoundaryComp.calculate_boundary_and_normals] for the
    boundary type 'square': the boundary is the square about the center
    of the bounding box of the given points whose side is the larger of
    the two extents, so the four distances of a point are its margins to
    the sides of that square, and every one of the given points is
    feasible. *)
Theorem X9_square_covers_points
        (hull : list vec -> list nat) (n_wt0 : nat) (xy : list vec)
        (self : ConvexBoundaryComp.t) (lo hi : vec) (x y : list R) (i : nat) :
  ConvexBoundaryComp.init hull n_wt0 xy ConvexBoundaryComp.square = Some self ->
  ConvexBoundaryComp.min0 xy = Some lo -> ConvexBoundaryComp.max0 xy = Some hi ->
  fst lo < fst hi \/ snd lo < snd hi ->
  length x = length y -> (i < length x)%nat ->
  let xc := fst lo + (fst hi - fst lo) / 2 in
  let yc := snd lo + (snd hi - snd lo) / 2 in
  let r := Rmax (fst hi - fst lo) (snd hi - snd lo) / 2 in
  nth i (ConvexBoundaryComp.distances self x y) []
  = [nth i y 0 - (yc - r); xc + r - nth i x 0; yc + r - nth i y 0; nth i x 0 - (xc - r)]
  /\ (In (nth i x 0, nth i y 0) xy ->
      forall d, In d (nth i (ConvexBoundaryComp.distances self x y) []) -> 0 <= d).
Proof. exact (square_margins hull n_wt0 xy self lo hi x y i). Qed.

(** The square over the points (0, 0), (10, 0) and (10, 4), and the
    point (10, 4) of them. *)
Lemma X9_square_covers_points_witness :
  exists self,
    ConvexBoundaryComp.init (fun _ => []) 1 wide_triangle ConvexBoundaryComp.square
    = Some self
    /\ forall d, In d (nth 0 (ConvexBoundaryComp.distances self [10] [4]) []) -> 0 <= d.
Proof.
  destruct wide_triangle_extent as [Hlo Hhi].
  pose proof (square_boundary (fun _ => []) wide_triangle (0, 0) (10, 4) Hlo Hhi) as Hb.
  destruct (convex_init_ok (fun _ => []) 1 wide_triangle ConvexBoundaryComp.square _ Hb
                           ltac:(discriminate)) as [self Hinit].
  exists self. split; [exact Hinit |].
  apply (X9_square_covers_points (fun _ => []) 1 wide_triangle self (0, 0) (10, 4)
                                 [10] [4] 0%nat Hinit Hlo Hhi).
  - left; cbn; lra.
  - reflexivity.
  - cbn; lia.
  - cbn. right; right; left; reflexivity.
Defined.

(** ** X10 *)

(** X10.  [PolygonBoundaryComp.get_boundary_properties], as stored by the
    constructor: the table has one edge per vertex of the ring; edge [j]
    starts at vertex [j] and ends where the next edge around the ring
    starts, and the two share the normal of that vertex; [AB] is the
    vector from A to B and [AB_len] its length; and the unit normal of an
    edge that is not degenerate has length one, is perpendicular to the
    edge and points to its left. *)
Theorem X10_edge_table_structure
        (fuel n : nat) (xy : list vec) (relax : option (R * R))
        (self : PolygonBoundaryComp.t) (c0 : cache PolygonBoundaryComp.output)
        (j : nat) (d : edge) :
  PolygonBoundaryComp.init fuel n xy relax = Ok (self, c0) ->
  let vertices := fst (boundary_properties self) in
  let edges := snd (boundary_properties self) in
  (j < length edges)%nat ->
  let e := nth j edges d in
  let e' := nth (next_edge (length edges) j) edges d in
  length edges = length vertices
  /\ A e = nth j vertices (0, 0)
  /\ B e = A e'
  /\ B_normal e = A_normal e'
  /\ AB e = vsub (B e) (A e)
  /\ AB_len e = vec_len (AB e)
  /\ (A e <> B e ->
      0 < AB_len e
      /\ vec_len (edge_unit_normal e) = 1
      /\ dot (AB e) (edge_unit_normal e) = 0
      /\ fst (AB e) * snd (edge_unit_normal e) - snd (AB e) * fst (edge_unit_normal e)
         = AB_len e).
Proof.
  intros Hinit vertices edges Hj e e'.
  destruct (init_inv _ _ _ _ _ _ Hinit) as (_ & _ & _ & Hwf & ring & Hc & _ & Hbp).
  subst e e' edges vertices.
  rewrite Hbp in *. cbn [fst snd] in *.
  destruct (edge_table_chain ring j d Hc Hj) as (Hl & HA & _ & HB & HN).
  assert (Hin : In (nth j (edge_table (removelast ring) (tl ring)) d)
                   (edge_table (removelast ring) (tl ring)))
    by (apply nth_In; exact Hj).
  pose proof (Hwf _ Hin) as Hw.
  split; [rewrite Hl, removelast_length; reflexivity |].
  split.
  { rewrite HA. symmetry. apply nth_removelast.
    rewrite edge_table_length, removelast_length in Hj. exact Hj. }
  split; [exact HB | split; [exact HN |]].
  split; [exact (proj1 Hw) | split; [exact (proj1 (proj2 Hw)) |]].
  intros Hne. exact (unit_normal_of_edge _ Hw Hne).
Qed.

(** The first edge of the square. *)
Lemma X10_edge_table_structure_witness :
  let d := mkEdge (0, 0) (0, 0) (0, 0) 0 (0, 0) (0, 0) (0, 0) in
  let e := nth 0 square_edges d in
  let e' := nth (next_edge (length square_edges) 0) square_edges d in
  length square_edges = length square_ring
  /\ A e = nth 0 square_ring (0, 0)
  /\ B e = A e'
  /\ B_normal e = A_normal e'
  /\ AB e = vsub (B e) (A e)
  /\ AB_len e = vec_len (AB e)
  /\ (A e <> B e ->
      0 < AB_len e
      /\ vec_len (edge_unit_normal e) = 1
      /\ dot (AB e) (edge_unit_normal e) = 0
      /\ fst (AB e) * snd (edge_unit_normal e) - snd (AB e) * fst (edge_unit_normal e)
         = AB_len e).
Proof.
  apply (X10_edge_table_structure 2 1 square_ring None square_polygon empty_cache 0
                                  (mkEdge (0, 0) (0, 0) (0, 0) 0 (0, 0) (0, 0) (0, 0))
                                  square_polygon_init).
  cbn; lia.
Defined.

(** ** X11 *)

(** X11.  [PolygonBoundaryComp.gradients]: for a polygon component as
    constructed, none of whose edges has zero length and whose edges are
    no more than [np.choose] selects from, both Jacobians are diagonal,
    and the two diagonal entries of every point form a unit vector,
    whether its nearest feature is an edge or a vertex. *)
Theorem X11_polygon_gradient_unit
        (fuel n : nat) (xy : list vec) (relax : option (R * R))
        (self : PolygonBoundaryComp.t) (c0 c : cache PolygonBoundaryComp.output)
        (x y : list R) :
  PolygonBoundaryComp.init fuel n xy relax = Ok (self, c0) ->
  (0 < n)%nat ->
  (forall e, In e (snd (boundary_properties self)) -> A e <> B e) ->
  (length (snd (boundary_properties self)) <= 31)%nat ->
  cache_ok self c -> length x = n -> length y = n ->
  exists Jx Jy c',
    PolygonBoundaryComp.gradients self c x y = Ok (Jx, Jy, c')
    /\ forall i j, (i < n)%nat -> (j < n)%nat ->
         (i <> j -> nth j (nth i Jx []) 0 = 0 /\ nth j (nth i Jy []) 0 = 0)
         /\ nth i (nth i Jx []) 0 ^ 2 + nth i (nth i Jy []) 0 ^ 2 = 1.
Proof.
  intros Hinit Hn Hnd _ Hc Hx Hy.
  destruct (init_inv _ _ _ _ _ _ Hinit) as (HnT & _ & Hne & Hwf & _).
  rewrite <- HnT in *.
  exact (polygon_gradients_unit self c x y Hne Hwf Hnd Hn Hc Hx Hy).
Qed.

(** The square, queried at the point (15, 5). *)
Lemma X11_polygon_gradient_unit_witness :
  exists Jx Jy c',
    PolygonBoundaryComp.gradients square_polygon empty_cache [15] [5] = Ok (Jx, Jy, c')
    /\ forall i j, (i < 1)%nat -> (j < 1)%nat ->
         (i <> j -> nth j (nth i Jx []) 0 = 0 /\ nth j (nth i Jy []) 0 = 0)
         /\ nth i (nth i Jx []) 0 ^ 2 + nth i (nth i Jy []) 0 ^ 2 = 1.
Proof.
  apply (X11_polygon_gradient_unit 2 1 square_ring None square_polygon empty_cache
                                   empty_cache [15] [5] square_polygon_init).
  - lia.
  - exact square_edges_nondegenerate.
  - cbn; lia.
  - left; reflexivity.
  - reflexivity.
  - reflexivity.
Defined.

(** ** X12 *)

(** X12.  [PolygonBoundaryComp.distances]: for a polygon component as
    constructed, none of whose edges has zero length and whose edges are
    no more than [np.choose] selects from, a point that lies on an edge
    of the boundary, end points included, has distance zero. *)
Theorem X12_polygon_boundary_distance_zero
        (fuel n : nat) (xy : list vec) (relax : option (R * R))
        (self : PolygonBoundaryComp.t) (c0 c : cache PolygonBoundaryComp.output)
        (x y : list R) (i : nat) (e : edge) (s : R) :
  PolygonBoundaryComp.init fuel n xy relax = Ok (self, c0) ->
  (forall e, In e (snd (boundary_properties self)) -> A e <> B e) ->
  (length (snd (boundary_properties self)) <= 31)%nat ->
  cache_ok self c -> length x = n -> length y = n -> (i < n)%nat ->
  In e (snd (boundary_properties self)) -> 0 <= s <= 1 ->
  (nth i x 0, nth i y 0) = vadd (A e) (vscale s (AB e)) ->
  exists dist c',
    PolygonBoundaryComp.distances self c x y = Ok (dist, c') /\ nth i dist 0 = 0.
Proof.
  intros Hinit Hnd _ Hc Hx Hy Hi He Hs HP.
  destruct (init_inv _ _ _ _ _ _ Hinit) as (HnT & _ & Hne & Hwf & _).
  rewrite <- HnT in *.
  exact (polygon_boundary_zero self c x y i e s Hne Hwf Hnd ltac:(lia) Hc Hx Hy Hi He Hs HP).
Qed.

(** The middle (5, 0) of the first edge of the square. *)
Lemma X12_polygon_boundary_distance_zero_witness :
  exists dist c',
    PolygonBoundaryComp.distances square_polygon empty_cache [5] [0] = Ok (dist, c')
    /\ nth 0 dist 0 = 0.
Proof.
  apply (X12_polygon_boundary_distance_zero
           2 1 square_ring None square_polygon empty_cache empty_cache [5] [0] 0%nat
           (nth 0 square_edges (mkEdge (0, 0) (0, 0) (0, 0) 0 (0, 0) (0, 0) (0, 0)))
           (1 / 2) square_polygon_init).
  - exact square_edges_nondegenerate.
  - cbn; lia.
  - left; reflexivity.
  - reflexivity.
  - reflexivity.
  - lia.
  - apply nth_In. cbn; lia.
  - lra.
  - cbn. unfold vadd, vscale, vsub; cbn [fst snd]. f_equal; lra.
Defined.

(** ** X13 *)

(** X13.  [PolygonBoundaryComp.satisfy]: for a polygon component as
    constructed, none of whose edges has zero length and whose edges are
    no more than [np.choose] selects from, a point with a negative
    distance is moved with respect to its nearest edge: when the
    nearest feature is the edge itself, across the edge to the signed
    distance [(1 - pad) * dist] from its line, without any shift along
    the edge; when it is a vertex, along the line through the vertex to
    [(1 - pad)] times its offset from the vertex. *)
Theorem X13_polygon_satisfy_moves_across
        (fuel n : nat) (xy : list vec) (relax : option (R * R))
        (self : PolygonBoundaryComp.t) (c0 c : cache PolygonBoundaryComp.output)
        (state : BoundaryBaseComp.State) (pad : R) :
  PolygonBoundaryComp.init fuel n xy relax = Ok (self, c0) ->
  (0 < n)%nat ->
  (forall e, In e (snd (boundary_properties self)) -> A e <> B e) ->
  (length (snd (boundary_properties self)) <= 31)%nat ->
  cache_ok self c ->
  length (BoundaryBaseComp.xs state) = n -> length (BoundaryBaseComp.ys state) = n ->
  exists dist state' c',
    PolygonBoundaryComp.distances self c (BoundaryBaseComp.xs state)
                                  (BoundaryBaseComp.ys state) = Ok (dist, c')
    /\ PolygonBoundaryComp.satisfy self c state pad = Ok (state', c')
    /\ forall i, (i < n)%nat -> nth i dist 0 < 0 ->
         let P := (nth i (BoundaryBaseComp.xs state) 0, nth i (BoundaryBaseComp.ys state) 0) in
         let P' := (nth i (BoundaryBaseComp.xs state') 0,
                    nth i (BoundaryBaseComp.ys state') 0) in
         exists e,
           In e (snd (boundary_properties self))
           /\ edge_distance P e = nth i dist 0
           /\ (forall e', In e' (snd (boundary_properties self)) ->
                 Rabs (nth i dist 0) <= Rabs (edge_distance P e'))
           /\ let t := dot (vsub P (A e)) (AB e) / vec_len (AB e) in
              (t < 0 -> vsub P' (A e) = vscale (1 - pad) (vsub P (A e)))
              /\ (vec_len (AB e) < t -> vsub P' (B e) = vscale (1 - pad) (vsub P (B e)))
              /\ (0 <= t <= vec_len (AB e) ->
                  dot (vsub P' (A e)) (edge_unit_normal e) = (1 - pad) * nth i dist 0
                  /\ dot (vsub P' (A e)) (AB e) = dot (vsub P (A e)) (AB e)).
Proof.
  intros Hinit Hn Hnd _ Hc Hx Hy.
  destruct (init_inv _ _ _ _ _ _ Hinit) as (HnT & _ & Hne & Hwf & _).
  rewrite <- HnT in *.
  exact (polygon_satisfy_moves self c state pad Hne Hwf Hnd Hn Hc Hx Hy).
Qed.

(** The square and the point (15, 5), with the default pad. *)
Lemma X13_polygon_satisfy_moves_across_witness :
  exists dist state' c',
    PolygonBoundaryComp.distances square_polygon empty_cache [15] [5] = Ok (dist, c')
    /\ PolygonBoundaryComp.satisfy square_polygon empty_cache
         (BoundaryBaseComp.mkState [15] [5]) (11 / 10) = Ok (state', c').
Proof.
  destruct (X13_polygon_satisfy_moves_across
              2 1 square_ring None square_polygon empty_cache empty_cache
              (BoundaryBaseComp.mkState [15] [5]) (11 / 10) square_polygon_init)
    as (dist & state' & c' & Hd & Hs & _).
  - lia.
  - exact square_edges_nondegenerate.
  - cbn; lia.
  - left; reflexivity.
  - reflexivity.
  - reflexivity.
  - exists dist, state', c'. split; [exact Hd | exact Hs].
Defined.

(** ** X14 *)

(** X14.  [MultiPolygonBoundaryComp.distances] and [gradients] with the
    reduction 'nearest' and without relaxation: a fresh component answers
    a query exactly as a fresh polygon component with the same edge
    table does, with the same distances, the same two Jacobians and the
    same error when the query fails, as long as the edges are no more
    than the [np.choose] of the polygon component selects from. *)
Theorem X14_multi_nearest_agrees_with_polygon
        (smooth_max : list (list R) -> R -> list R)
        (smooth_max_gradient : list (list R) -> R -> list (list R))
        (M : MultiPolygonBoundaryComp.t) (P : PolygonBoundaryComp.t)
        (n_grad_eval : nat) (x y : list R) :
  MultiPolygonBoundaryComp.relaxation M = None ->
  MultiPolygonBoundaryComp.method M = nearest ->
  edge_table_in_use M = snd (boundary_properties P) ->
  (length (snd (boundary_properties P)) <= 31)%nat ->
  x <> [] ->
  bind (MultiPolygonBoundaryComp.distances smooth_max M empty_cache n_grad_eval x y)
       (fun r => Ok (fst r))
  = bind (PolygonBoundaryComp.distances P empty_cache x y) (fun r => Ok (fst r))
  /\ bind (MultiPolygonBoundaryComp.gradients smooth_max_gradient M empty_cache x y)
          (fun r => Ok (fst (fst (fst r)), snd (fst (fst r)), snd (fst r)))
     = bind (PolygonBoundaryComp.gradients P empty_cache x y)
            (fun r => Ok (fst (fst r), snd (fst r), None)).
Proof.
  intros Hr Hm He _ Hx.
  exact (multi_nearest_is_polygon smooth_max smooth_max_gradient M P n_grad_eval x y
                                  Hr Hm He Hx).
Qed.

(** The square as a multi-polygon and as a polygon component, queried at
    the point (15, 5). *)
Lemma X14_multi_nearest_agrees_with_polygon_witness :
  bind (MultiPolygonBoundaryComp.distances (fun _ _ => []) square_multi empty_cache 0
                                           [15] [5])
       (fun r => Ok (fst r))
  = bind (PolygonBoundaryComp.distances square_polygon empty_cache [15] [5])
         (fun r => Ok (fst r))
  /\ bind (MultiPolygonBoundaryComp.gradients (fun _ _ => []) square_multi empty_cache
                                              [15] [5])
          (fun r => Ok (fst (fst (fst r)), snd (fst (fst r)), snd (fst r)))
     = bind (PolygonBoundaryComp.gradients square_polygon empty_cache [15] [5])
            (fun r => Ok (fst (fst r), snd (fst r), None)).
Proof.
  apply (X14_multi_nearest_agrees_with_polygon (fun _ _ => []) (fun _ _ => [])
                                               square_multi square_polygon 0 [15] [5]).
  - reflexivity.
  - reflexivity.
  - reflexivity.
  - cbn; lia.
  - discriminate.
Defined.

(** ** X15 *)

(** X15.  [satisfy] as the multi-polygon component inherits it from the
    polygon component: with relaxation set it never returns a state,
    because [gradients] then returns three arrays where [satisfy] unpacks
    two; with the reduction 'nearest' and an edge table that is not empty
    the error is the [ValueError] of that unpacking. *)
Theorem X15_multi_satisfy_fails_under_relaxation
        (smooth_max : list (list R) -> R -> list R)
        (smooth_max_gradient : list (list R) -> R -> list (list R))
        (self : MultiPolygonBoundaryComp.t) (c : cache MultiPolygonBoundaryComp.output)
        (n_grad_eval : nat) (state : BoundaryBaseComp.State) (pad : R) (rel : R * R) :
  MultiPolygonBoundaryComp.relaxation self = Some rel ->
  (exists e,
      Inherited.multi_satisfy smooth_max smooth_max_gradient self c n_grad_eval state pad
      = Raise e)
  /\ (MultiPolygonBoundaryComp.method self = nearest -> edge_table_in_use self <> [] ->
      Inherited.multi_satisfy smooth_max smooth_max_gradient self c n_grad_eval state pad
      = Raise ValueError).
Proof.
  exact (multi_satisfy_relaxed smooth_max smooth_max_gradient self c n_grad_eval state pad
                               rel).
Qed.

(** The relaxed multi-polygon component over the square. *)
Lemma X15_multi_satisfy_fails_under_relaxation_witness :
  Inherited.multi_satisfy (fun _ _ => []) (fun _ _ => []) square_multi_relaxed empty_cache 0
                          (BoundaryBaseComp.mkState [15] [5]) (11 / 10)
  = Raise ValueError.
Proof.
  apply (proj2 (X15_multi_satisfy_fails_under_relaxation
                  (fun _ _ => []) (fun _ _ => []) square_multi_relaxed empty_cache 0
                  (BoundaryBaseComp.mkState [15] [5]) (11 / 10) (1 / 10, 5) eq_refl)).
  - reflexivity.
  - exact square_edges_nonempty.
Defined.

(** ** X16 *)

(** X16.  [MultiPolygonBoundaryComp._calc_resulting_polygons]: zones
    given ahead of the first inclusion zone are ignored, so the merged
    domain is the one the remaining zones give on their own; a list of
    exclusion zones only gives the empty domain. *)
Theorem X16_leading_exclusion_zones_ignored
        (Geom : Type) (area : Geom -> R)
        (intersects contains : Geom -> Geom -> bool) (unary_union : list Geom -> Geom)
        (symmetric_difference difference : Geom -> Geom -> Geom)
        (type_of : Geom -> geometry_type) (geoms : Geom -> list Geom)
        (Polygon : list vec -> list (list vec) -> Geom) (exterior_coords : Geom -> list vec)
        (before rest : list Geom) (flags_before flags : list bool) :
  length before = length flags_before ->
  Forall (fun f => f = false) flags_before ->
  _calc_resulting_polygons Geom area intersects contains unary_union symmetric_difference
    difference type_of geoms Polygon exterior_coords
    (before ++ rest) (flags_before ++ flags)
  = _calc_resulting_polygons Geom area intersects contains unary_union symmetric_difference
      difference type_of geoms Polygon exterior_coords rest flags
  /\ _calc_resulting_polygons Geom area intersects contains unary_union symmetric_difference
       difference type_of geoms Polygon exterior_coords before flags_before
     = [].
Proof.
  intros Hl Hf. split.
  - apply leading_exclusions_ignored; assumption.
  - pose proof (leading_exclusions_ignored Geom area intersects contains unary_union
                  symmetric_difference difference type_of geoms Polygon exterior_coords
                  before [] flags_before [] Hl Hf) as H.
    rewrite !app_nil_r in H. exact H.
Qed.

(** An exclusion zone ahead of an inclusion zone, with rings for
    geometries. *)
Lemma X16_leading_exclusion_zones_ignored_witness :
  _calc_resulting_polygons (list vec) (fun _ => 1) (fun _ _ => false) (fun _ _ => false)
    (fun l => List.concat l) (fun a _ => a) (fun a _ => a) (fun _ => IsPolygon)
    (fun a => [a]) (fun a _ => a) (fun a => a)
    ([small_triangle] ++ [square_ring]) ([false] ++ [true])
  = _calc_resulting_polygons (list vec) (fun _ => 1) (fun _ _ => false) (fun _ _ => false)
      (fun l => List.concat l) (fun a _ => a) (fun a _ => a) (fun _ => IsPolygon)
      (fun a => [a]) (fun a _ => a) (fun a => a)
      [square_ring] [true].
Proof.
  apply (X16_leading_exclusion_zones_ignored
           (list vec) (fun _ => 1) (fun _ _ => false) (fun _ _ => false)
           (fun l => List.concat l) (fun a _ => a) (fun a _ => a) (fun _ => IsPolygon)
           (fun a => [a]) (fun a _ => a) (fun a => a)
           [small_triangle] [square_ring] [false] [true]).
  - reflexivity.
  - constructor; [reflexivity | constructor].
Defined.

(** ** X17 *)

(** X17.  [MultiPolygonBoundaryComp.__init__] on exclusion zones only: a
    component that was constructed has no edges of its own, the polygon
    component of its first ring was built, taking that ring as an
    inclusion zone, and its queries run on the edge table of that
    polygon component. *)
Theorem X17_exclusion_zones_only
        (Geom : Type) (area : Geom -> R)
        (intersects contains : Geom -> Geom -> bool) (unary_union : list Geom -> Geom)
        (symmetric_difference difference : Geom -> Geom -> Geom)
        (type_of : Geom -> geometry_type) (geoms : Geom -> list Geom)
        (Polygon : list vec -> list (list vec) -> Geom) (exterior_coords : Geom -> list vec)
        (interiors_coords : Geom -> list (list vec))
        (fuel n : nat) (first : list vec * flag) (others : list (list vec * flag))
        (relax : option (R * R)) (m : reduction) (M : MultiPolygonBoundaryComp.t)
        (c : cache MultiPolygonBoundaryComp.output) :
  (forall z, In z (first :: others) -> type_bool (snd z) = false) ->
  MultiPolygonBoundaryComp.init Geom area intersects contains unary_union
    symmetric_difference difference type_of geoms Polygon exterior_coords interiors_coords
    fuel n (first :: others) relax m = Ok (M, c) ->
  boundary_properties_list_all M = []
  /\ exists P,
       PolygonBoundaryComp.init fuel n (fst first) relax = Ok (P, empty_cache)
       /\ edge_table_in_use M = snd (boundary_properties P)
       /\ M = MultiPolygonBoundaryComp.mk n (snd (boundary_properties P)) [] relax m.
Proof.
  intros Hall Hinit.
  destruct (init_exclusions_only Geom area intersects contains unary_union
              symmetric_difference difference type_of geoms Polygon exterior_coords
              interiors_coords fuel n first others relax m Hall) as [E H].
  destruct (H M c Hinit) as (Hl & P & HP & Ht).
  split; [exact Hl |]. exists P. split; [exact HP | split; [exact Ht |]].
  rewrite E, HP in Hinit. cbn [bind fst] in Hinit. injection Hinit as <- _. reflexivity.
Qed.

(** The square given as the only zone, flagged as an exclusion zone: the
    component built queries the edges of the square. *)
Lemma X17_exclusion_zones_only_witness :
  boundary_properties_list_all
    (MultiPolygonBoundaryComp.mk 1 square_edges [] None nearest) = []
  /\ exists P,
       PolygonBoundaryComp.init 2 1 (fst (square_ring, FlagBool false)) None
       = Ok (P, empty_cache)
       /\ edge_table_in_use (MultiPolygonBoundaryComp.mk 1 square_edges [] None nearest)
          = snd (boundary_properties P)
       /\ MultiPolygonBoundaryComp.mk 1 square_edges [] None nearest
          = MultiPolygonBoundaryComp.mk 1 (snd (boundary_properties P)) [] None nearest.
Proof.
  apply (X17_exclusion_zones_only
           (list vec) (fun _ => 1) (fun _ _ => false) (fun _ _ => false)
           (fun l => List.concat l) (fun a _ => a) (fun a _ => a) (fun _ => IsPolygon)
           (fun a => [a]) (fun a _ => a ++ firstn 1 a) (fun a => a) (fun _ => [])
           2 1 (square_ring, FlagBool false) [] None nearest
           (MultiPolygonBoundaryComp.mk 1 square_edges [] None nearest) empty_cache).
  - intros z [<- | []]. reflexivity.
  - unfold MultiPolygonBoundaryComp.init. rewrite square_polygon_init. reflexivity.
Defined.

(** ** X18 *)

(** X18.  [MultiPolygonBoundaryComp._setup_boundaries] and the queries on
    its table: for a component as constructed, the edge table its queries
    run on is not empty, every edge in it, from whichever merged ring,
    follows the nearest-feature rule of the polygon component, and a
    query of at least one point, with as many [x] as [y] coordinates, on
    the fresh component returns distances, with either reduction and,
    given the iteration counter of the surrounding problem, with or
    without relaxation. *)
Theorem X18_multi_table_follows_polygon_rule
        (Geom : Type) (area : Geom -> R)
        (intersects contains : Geom -> Geom -> bool) (unary_union : list Geom -> Geom)
        (symmetric_difference difference : Geom -> Geom -> Geom)
        (type_of : Geom -> geometry_type) (geoms : Geom -> list Geom)
        (Polygon : list vec -> list (list vec) -> Geom) (exterior_coords : Geom -> list vec)
        (interiors_coords : Geom -> list (list vec))
        (smooth_max : list (list R) -> R -> list R)
        (fuel n : nat) (zones : list (list vec * flag))
        (relax : option (R * R)) (m : reduction) (M : MultiPolygonBoundaryComp.t)
        (c : cache MultiPolygonBoundaryComp.output) :
  MultiPolygonBoundaryComp.init Geom area intersects contains unary_union
    symmetric_difference difference type_of geoms Polygon exterior_coords interiors_coords
    fuel n zones relax m = Ok (M, c) ->
  edge_table_in_use M <> []
  /\ (forall e P, In e (edge_table_in_use M) -> well_formed_edge e /\ nearest_feature_rule P e)
  /\ (forall n_grad_eval x y,
         x <> [] -> length x = length y ->
         exists dist c',
           MultiPolygonBoundaryComp.distances smooth_max M empty_cache n_grad_eval x y
           = Ok (dist, c')).
Proof.
  intros Hinit.
  destruct (multi_init_well_formed Geom area intersects contains unary_union
              symmetric_difference difference type_of geoms Polygon exterior_coords
              interiors_coords fuel n zones relax m M c Hinit) as [Hne Hwf].
  split; [exact Hne | split].
  - intros e P He. split; [exact (Hwf e He) | apply edge_classification, Hwf, He].
  - intros n_grad_eval x y Hx Hxy.
    assert (Hy : y <> []).
    { intros E. apply Hx. subst y. destruct x; [reflexivity | discriminate]. }
    exact (multi_distances_total smooth_max M n_grad_eval x y Hne Hx Hy).
Qed.

(** The square as the only zone, queried at the point (15, 5). *)
Lemma X18_multi_table_follows_polygon_rule_witness :
  exists dist c',
    MultiPolygonBoundaryComp.distances (fun _ _ => []) square_multi empty_cache 0 [15] [5]
    = Ok (dist, c').
Proof.
  apply (proj2 (proj2 (X18_multi_table_follows_polygon_rule
                         (list vec) (fun _ => 1) (fun _ _ => false) (fun _ _ => false)
                         (fun l => List.concat l) (fun a _ => a) (fun a _ => a)
                         (fun _ => IsPolygon) (fun a => [a])
                         (fun a _ => a ++ firstn 1 a) (fun a => a) (fun _ => [])
                         (fun _ _ => [])
                         2 1 [(square_ring, FlagBool true)] None nearest
                         square_multi empty_cache square_multi_init))).
  - discriminate.
  - reflexivity.
Defined.
